(** * GISTEMP steps 3 and 5: gridding, zonal averaging, annual reduction

    A shallow embedding of [steps/step3.py] and [steps/step5.py].

    - Python lists are Rocq lists; indices are [nat], slice bounds are [Z]
      because Python normalises negative bounds.
    - Step 3 needs [sin], [cos] and [sqrt], so its floats are read as real
      numbers ([R]).  Step 5 only adds, multiplies, divides and compares, so
      its floats are read as rationals ([Q]), which keeps every definition
      there executable.  Rounding error is outside both models.
    - A Python exception is a value of [exn]; a function that can raise
      returns a [result]; a generator is the list of the items it yields
      together with the exception that ended it, if any.
    - The collaborators that live in other files of the repository
      ([series.combine], [series.anomalize], [eqarea], [parameters],
      [earth.radius]) are Section variables. *)

From Stdlib Require Import String DecimalString.
From Stdlib Require Import ZArith QArith Reals List Bool Arith Psatz.
From Stdlib Require Import Permutation Sorted.
Import ListNotations.

(** ** Python primitives *)

Module Py.

Inductive exn : Type :=
| StopIteration
| IndexError
| KeyError
| ValueError
| ZeroDivisionError
| AssertionError (msg : String.string)
| Exception (msg : String.string).

Inductive result (A : Type) : Type :=
| Ok (a : A)
| Raise (e : exn).
Arguments Ok {A} a.
Arguments Raise {A} e.

Definition bind {A B} (m : result A) (k : A -> result B) : result B :=
  match m with
  | Ok a => k a
  | Raise e => Raise e
  end.

(** A generator run to its end: what it yielded, and how it stopped;
    [raised] is the exception that ended its body, if any. *)
Record gen (A : Type) : Type := Gen {
  yielded : list A;
  raised : option exn
}.
Arguments Gen {A} yielded raised.
Arguments yielded {A} g.
Arguments raised {A} g.

(** [RuntimeError] *)
Definition RuntimeError : exn := Exception "RuntimeError".

(** What the consumer of a generator sees of it.  A [StopIteration] that
    escapes the body does not reach the consumer as such: up to Python 3.6
    the generator just ends, as if its body had returned, and from Python
    3.7 on (PEP 479) the consumer gets a [RuntimeError] in its place.  Every
    other exception passes unchanged. *)
Definition consumed {A : Type} (pep479 : bool) (g : gen A) : gen A :=
  match raised g with
  | Some StopIteration =>
      Gen (yielded g) (if pep479 then Some RuntimeError else None)
  | _ => g
  end.

Section StableSort.
Context {A : Type} (key : A -> Z).

(** [x] stood before every element of [l] in the input, so it goes in
    front of the elements whose key equals its own. *)
Fixpoint insert_by (x : A) (l : list A) : list A :=
  match l with
  | [] => [x]
  | y :: l' => if (key x <=? key y)%Z then x :: l else y :: insert_by x l'
  end.

(** [sorted(l, key=key)]: ascending in [key], stable. *)
Definition sorted (l : list A) : list A := fold_right insert_by [] l.
End StableSort.

(** [sorted(l, key=key, reverse=True)]: descending in [key]; Python keeps
    the input order among equal keys here as well. *)
Definition sorted_reverse {A : Type} (key : A -> Z) (l : list A) : list A :=
  sorted (fun x => (- key x)%Z) l.

(** Bound of a slice, as [PySlice_AdjustIndices] computes it. *)
Definition slice_bound (len : nat) (i : Z) : nat :=
  let i' := if (i <? 0)%Z then (i + Z.of_nat len)%Z else i in
  if (i' <? 0)%Z then 0%nat else Nat.min (Z.to_nat i') len.

(** [s[start:stop] = a] *)
Definition slice_assign {A : Type} (s : list A) (start stop : Z) (a : list A)
  : list A :=
  let lo := slice_bound (length s) start in
  let hi := Nat.max lo (slice_bound (length s) stop) in
  firstn lo s ++ a ++ skipn hi s.

(** [sum] of a list of integers. *)
Definition sumZ (l : list Z) : Z := fold_left Z.add l 0%Z.

End Py.

Export Py.

Notation "x <- m ;; k" := (bind m (fun x => k))
  (at level 61, m at next level, right associativity).

(** [l[i]], raising [IndexError] out of range ([i] is never negative in the
    code below). *)
Definition getitem {A : Type} (l : list A) (i : nat) : result A :=
  match nth_error l i with
  | Some x => Ok x
  | None => Raise IndexError
  end.

(** [l[i] = x] for an index in range. *)
Fixpoint set_at {A : Type} (l : list A) (i : nat) (x : A) : list A :=
  match l, i with
  | [], _ => []
  | _ :: l', O => x :: l'
  | y :: l', S i' => y :: set_at l' i' x
  end.

(** [for i in ns: s = body(i, s)] *)
Definition for_each {S : Type} (ns : list nat) (body : nat -> S -> S) (s : S)
  : S :=
  fold_left (fun s i => body i s) ns s.

(** [next(stream)] called [n] times on an iterator. *)
Fixpoint next_n {A : Type} (n : nat) (stream : list A)
  : result (list A * list A) :=
  match n with
  | O => Ok ([], stream)
  | S n' =>
      match stream with
      | [] => Raise StopIteration
      | b :: rest =>
          r <- next_n n' rest ;;
          Ok (b :: fst r, snd r)
      end
  end.

(** ** Step 3 *)

Module Step3.
Local Open Scope R_scope.

(** Modelled from the spec: [giss_data.MISSING], the sentinel for an absent
    value, and [giss_data.valid]; [steps/giss_data.py] is not among the
    sources.  The value is the [missing_flag] of the step 3 metadata. *)
Definition MISSING : R := 9999.

Definition valid (v : R) : bool := if Req_dec_T v MISSING then false else true.

Record station_t : Type := Station {
  lat : R;
  lon : R
}.

(** The attributes of a station record that step 3 reads. *)
Record record_t : Type := Record_ {
  station : station_t;
  series : list R;
  good_count : Z;
  rel_first_month : Z;
  rel_last_month : Z;
  uid : string
}.

(** *** [incircle] *)

(** [cosd], the dot product of the two unit vectors. *)
Definition cosd (lat lon s_lat s_lon : R) : R :=
  let coslat := cos (lat * PI / 180) in
  let sinlat := sin (lat * PI / 180) in
  let coslon := cos (lon * PI / 180) in
  let sinlon := sin (lon * PI / 180) in
  let sinlats := sin (s_lat * PI / 180) in
  let coslats := cos (s_lat * PI / 180) in
  let sinlons := sin (s_lon * PI / 180) in
  let coslons := cos (s_lon * PI / 180) in
  sinlats * sinlat + coslats * coslat * (coslons * coslon + sinlons * sinlon).

(** The weight of a station whose [cosd] is [c].  Here [sqrt] and the
    division are those of the real numbers, and [c] is at most 1; the
    program rounds each operation, so that its [cosd] of a station at the
    point itself can fall just below 1 or just above it. *)
Definition weight (arc c : R) : R :=
  let d := sqrt (2 * (1 - c)) in
  1 - d / arc.

Fixpoint incircle (iterable : list record_t) (arc lat lon : R)
  : list (record_t * R) :=
  let cosarc := cos arc in
  match iterable with
  | [] => []
  | record :: rest =>
      let st := station record in
      let c := cosd lat lon (Step3.lat st) (Step3.lon st) in
      if Rlt_dec cosarc c
      then (record, weight arc c) :: incircle rest arc lat lon
      else incircle rest arc lat lon
  end.

(** *** [iter_subbox_grid] *)

Definition region : Type := R * R * R * R.

(** The keyword arguments [giss_data.Series] is built from. *)
Record Series : Type := MkSeries {
  s_series : list R;
  s_n : option nat;
  s_box : region;
  s_stations : Z;
  s_station_months : Z;
  s_d : R
}.

(** [round(x)]: to the nearest integer, a tie to the even one. *)
Definition py_round (x : R) : Z :=
  let n := Int_part x in
  let f := x - IZR n in
  if Rlt_dec f (1 / 2) then n
  else if Rlt_dec (1 / 2) f then (n + 1)%Z
  else if Z.even n then n else (n + 1)%Z.

(** All the cells that touch a pole are gridded at the pole. *)
Definition pole_snap (centre : R * R) : R * R :=
  let centre := if (84 <=? py_round (fst centre))%Z then (90, 0) else centre in
  if (py_round (fst centre) <=? -84)%Z then (-90, 0) else centre.

Section Collaborators.

(** [series.combine(composite, weight, new, new_weight, min_overlap)] updates
    [composite] and [weight] in place and returns the per-calendar-month
    counts; here it returns the three of them. *)
Variable combine :
  list R -> list R -> list R -> R -> Z -> list R * list R * list Z.

(** [series.anomalize(data, reference_period, base_year)] updates [data] in
    place; here it returns it. *)
Variable anomalize : list R -> Z * Z -> Z -> list R.

(** [parameters.gridding_min_overlap], [parameters.gridding_reference_period],
    [earth.radius], [list(eqarea.gridsub())], [eqarea.centre]. *)
Variable gridding_min_overlap : Z.
Variable gridding_reference_period : Z * Z.
Variable earth_radius : R.
Variable gridsub : list (region * list region).
Variable eqarea_centre : region -> R * R.

(** The variables the loop over the remaining stations updates. *)
Record acc_t : Type := Acc {
  subbox_series : list R;
  acc_weight : list R;
  total_good_months : Z;
  total_stations : Z;
  max_weight : R
}.

(** One turn of [for record, wt in contributors[1:]]. *)
Definition add_station (max_months : nat) (st : acc_t) (c : record_t * R)
  : acc_t :=
  let '(record, wt) := c in
  let new := repeat MISSING max_months in
  let aa := rel_first_month record in
  let bb := rel_last_month record in
  let new := slice_assign new (aa - 1) bb (series record) in
  let '(s', w', station_months) :=
    combine (subbox_series st) (acc_weight st) new wt gridding_min_overlap in
  let n_good_months := sumZ station_months in
  let total := (total_good_months st + n_good_months)%Z in
  if (n_good_months =? 0)%Z
  then Acc s' w' total (total_stations st) (max_weight st)
  else
    Acc s' w' total (total_stations st + 1)%Z
      (if Rlt_dec (max_weight st) wt then wt else max_weight st).

(** The body of the loop over the subboxes, from the contributors on.
    Progress and log output is left out. *)
Definition subbox_average (max_months : nat) (first_year : Z) (radius : R)
  (subbox : region) (contributors : list (record_t * R)) : Series :=
  let blank := repeat MISSING max_months in
  match contributors with
  | [] => MkSeries blank None subbox 0 0 MISSING
  | (record, wt) :: rest =>
      let offset := (rel_first_month record - 1)%Z in
      let a := series record in
      let seeded :=
        slice_assign blank offset (offset + Z.of_nat (length a)) a in
      let weight := map (fun v => wt * (if valid v then 1 else 0)) seeded in
      let st :=
        fold_left (add_station max_months) rest
          (Acc seeded weight (good_count record) 1 wt) in
      let anomalies :=
        anomalize (subbox_series st) gridding_reference_period first_year in
      MkSeries anomalies (Some max_months) subbox (total_stations st)
        (total_good_months st) (radius * (1 - max_weight st))
  end.

(** [iter_subbox_grid(station_records, max_months, first_year, radius)] run
    to its end: the cells it yields, region by region. *)
Definition iter_subbox_grid (station_records : list record_t)
  (max_months : nat) (first_year : Z) (radius : R) : list Series :=
  let station_records := sorted_reverse good_count station_records in
  let arc := radius / earth_radius in
  flat_map
    (fun region : region * list region =>
       map (fun subbox =>
              let centre := pole_snap (eqarea_centre subbox) in
              let contributors :=
                incircle station_records arc (fst centre) (snd centre) in
              subbox_average max_months first_year radius subbox contributors)
           (snd region))
    gridsub.

End Collaborators.

End Step3.

(** ** Step 5 *)

Module Step5.
Local Open Scope Q_scope.

(** Modelled from the spec: [giss_data.MISSING], the sentinel for an absent
    value, and [giss_data.valid]; [steps/giss_data.py] is not among the
    sources.  The value is the [missing_flag] of the step 3 metadata. *)
Definition MISSING : Q := 9999.

Definition valid (v : Q) : bool := negb (Qeq_bool v MISSING).

(** [sum(valid(a) for a in s)] *)
Definition count_valid (s : list Q) : Z :=
  sumZ (map (fun a => if valid a then 1%Z else 0%Z) s).

(** [sort_perm(a)]: [zip], [sorted] with the key [x[1] - x[0]], and the
    unzipping of [z], whose unpacking into two names raises [ValueError] when
    [z] is empty. *)
Definition sort_perm (a : list Z) : result (list Z * list nat) :=
  let z := List.combine a (seq 0 (length a)) in
  let z := sorted (fun x => (Z.of_nat (snd x) - fst x)%Z) z in
  match z with
  | [] => Raise ValueError
  | _ :: _ => Ok (split z)
  end.

Definition set_minus (a b : list nat) : list nat :=
  filter (fun x => negb (existsb (Nat.eqb x) b)) a.

(** [zones()] *)
Definition zones : list nat * list (list nat) :=
  let boxes_in_band := [4; 8; 12; 16; 16; 12; 8; 4]%nat in
  let N := seq 0 4 in
  let G := seq 0 8 in
  let S := set_minus G N in
  let T := [3; 4]%nat in
  let NM := [1; 2]%nat in
  let SM := [5; 6]%nat in
  let band_in_zone :=
    [set_minus N T; T; set_minus S T; NM; SM; N; S; G] in
  (boxes_in_band, band_in_zone).

(** A region is [(south, north, west, east)] in degrees. *)
Definition region : Type := Q * Q * Q * Q.

(** What [subbox_to_box] yields for a box: [(anom, weight, ngood, box)]. *)
Definition box_t : Type := list Q * list Q * Z * region.

Record meta : Type := Meta {
  yrbeg : Z;
  monm : nat
}.

(** [series.combine] takes the incoming weight as a number or as a series. *)
Inductive weight_arg : Type :=
| WScalar (w : Q)
| WSeries (w : list Q).

Definition zone_t : Type := list Q * list Q.

Section Collaborators.

(** [series.combine(composite, weight, new, new_weight, min_overlap)] updates
    [composite] and [weight] in place and returns the per-calendar-month
    counts; here it returns the three of them. *)
Variable combine :
  list Q -> list Q -> list Q -> weight_arg -> Z -> list Q * list Q * list Z.

(** [series.anomalize(data, reference_period, base_year)] updates [data] in
    place; here it returns it. *)
Variable anomalize : list Q -> Z * Z -> Z -> list Q.

(** [parameters.box_min_overlap], [parameters.box_reference_period],
    [parameters.subbox_min_valid], [parameters.subbox_reference_period],
    [parameters.zone_annual_min_months]. *)
Variable box_min_overlap : Z.
Variable box_reference_period : Z * Z.
Variable subbox_min_valid : Z.
Variable subbox_reference_period : Z * Z.
Variable zone_annual_min_months : Z.

(** *** [zonav] *)

(** The loop [for n in range(1, boxes_in_band[band])] of a band, with its
    [break].  [IORD] holds positions of [box_series]. *)
Fixpoint combine_boxes (box_series box_weights : list (list Q))
  (box_length : list Z) (IORD : list nat) (ns : list nat)
  (avg wt : list Q) : list Q * list Q :=
  match ns with
  | [] => (avg, wt)
  | n :: ns' =>
      let nr := nth n IORD 0%nat in
      if (nth n box_length 0 =? 0)%Z then (avg, wt)
      else
        let '(avg', wt', _) :=
          combine avg wt (nth nr box_series []) (WSeries (nth nr box_weights []))
            box_min_overlap in
        combine_boxes box_series box_weights box_length IORD ns' avg' wt'
  end.

(** One band, from the boxes read for it to the pair it yields. *)
Definition band_average (m : meta) (boxes : list box_t) : result zone_t :=
  let box_series := map (fun b => fst (fst (fst b))) boxes in
  let box_weights := map (fun b => snd (fst (fst b))) boxes in
  let box_length := map (fun b => snd (fst b)) boxes in
  let total_length := sumZ box_length in
  r <- (if (total_length =? 0)%Z
        then Ok (repeat MISSING (monm m), repeat 0 (monm m))
        else
          p <- sort_perm box_length ;;
          let '(box_length, IORD) := p in
          let nr := nth 0 IORD 0%nat in
          Ok (combine_boxes box_series box_weights box_length IORD
                (seq 1 (length boxes - 1))
                (nth nr box_series []) (nth nr box_weights []))) ;;
  let '(avg, wt) := r in
  Ok (anomalize avg box_reference_period (yrbeg m), wt).

(** The loop over the bands: the band series yielded so far, and either the
    rest of the box stream or the exception that stopped the loop. *)
Fixpoint zonav_bands (m : meta) (sizes : list nat) (boxed_data : list box_t)
  : list zone_t * result (list box_t) :=
  match sizes with
  | [] => ([], Ok boxed_data)
  | k :: sizes' =>
      match next_n k boxed_data with
      | Raise e => ([], Raise e)
      | Ok (boxes, rest) =>
          match band_average m boxes with
          | Raise e => ([], Raise e)
          | Ok z =>
              let '(zs, r) := zonav_bands m sizes' rest in
              (z :: zs, r)
          end
      end
  end.

Definition no_band_message (zone : nat) : String.string :=
  String.append "No band in compound zone "%string
    (String.append (DecimalString.NilEmpty.string_of_uint (Nat.to_uint zone))
       "."%string).

Definition mem (x : nat) (s : list nat) : bool := existsb (Nat.eqb x) s.

(** One compound zone.  [avg] and [wt] are the band series, [iord] the bands
    in length order. *)
Definition zone_average (m : meta) (avg wt : list (list Q)) (iord : list nat)
  (bands zone : nat) (members : list nat) : result zone_t :=
  match find (fun j1 => mem (nth j1 iord 0%nat) members) (seq 0 bands) with
  | None => Raise (Exception (no_band_message zone))
  | Some j1 =>
      let band := nth j1 iord 0%nat in
      let wtg := nth band wt [] in
      let avgg := nth band avg [] in
      let '(avgg, wtg) :=
        for_each (seq (j1 + 1) (bands - (j1 + 1)))
          (fun j '(avgg, wtg) =>
             let band := nth j iord 0%nat in
             if negb (mem band members) then (avgg, wtg)
             else
               let '(avgg', wtg', _) :=
                 combine avgg wtg (nth band avg []) (WSeries (nth band wt []))
                   box_min_overlap in
               (avgg', wtg'))
          (avgg, wtg) in
      Ok (anomalize avgg box_reference_period (yrbeg m), wtg)
  end.

(** The loop over the compound zones. *)
Fixpoint zonav_zones (m : meta) (avg wt : list (list Q)) (iord : list nat)
  (bands zone : nat) (band_in_zone : list (list nat))
  : list zone_t * option exn :=
  match band_in_zone with
  | [] => ([], None)
  | members :: rest =>
      match zone_average m avg wt iord bands zone members with
      | Raise e => ([], Some e)
      | Ok z =>
          let '(zs, e) := zonav_zones m avg wt iord bands (S zone) rest in
          (z :: zs, e)
      end
  end.

(** [zonav(meta, boxed_data)] run to its end: the generator, and what is left
    of the box stream.  A [StopIteration] that [next(boxed_data)] raises
    inside the band loop ends the body and is recorded as such; [consumed]
    gives what the consumer of the generator sees of it. *)
Definition zonav (m : meta) (boxed_data : list box_t)
  : gen zone_t * list box_t :=
  let '(boxes_in_band, band_in_zone) := zones in
  let bands := length boxes_in_band in
  match zonav_bands m boxes_in_band boxed_data with
  | (zs, Raise e) => (Gen zs (Some e), [])
  | (zs, Ok rest) =>
      match rest with
      | _ :: rest' =>
          (Gen zs (Some (AssertionError "Too many boxes found"%string)), rest')
      | [] =>
          let avg := map fst zs in
          let wt := map snd zs in
          let lenz := map count_valid avg in
          match sort_perm lenz with
          | Raise e => (Gen zs (Some e), [])
          | Ok (_, iord) =>
              let '(cs, e) := zonav_zones m avg wt iord bands 0 band_in_zone in
              (Gen (zs ++ cs) e, [])
          end
      end
  end.

(** *** [subbox_to_box] *)

(** The attributes of a [giss_data.Series] that step 5 reads. *)
Record cell : Type := Cell {
  cell_series : list Q;
  cell_box : region;
  cell_good_count : Z;
  cell_first_year : Z;
  cell_uid : string
}.

(** [eqarea.centre] and [list(eqarea.grid())]. *)
Variable centre : region -> Q * Q.
Variable grid : list region.

Definition Qlt_bool (x y : Q) : bool := negb (Qle_bool y x).

(** [whichbox(boxes, cell)]; falling off the loop returns [None]. *)
Definition whichbox (boxes : list region) (c : region) : option region :=
  let '(lat, lon) := centre c in
  find (fun box : region =>
          let '(s, n, w, e) := box in
          (Qle_bool s lat && Qlt_bool lat n)
          && (Qle_bool w lon && Qlt_bool lon e))
       boxes.

(** Equality of two tuples of four numbers. *)
Definition region_eqb (a b : region) : bool :=
  let '(s1, n1, w1, e1) := a in
  let '(s2, n2, w2, e2) := b in
  Qeq_bool s1 s2 && Qeq_bool n1 n2 && Qeq_bool w1 w2 && Qeq_bool e1 e2.

(** [contributordict]: a dict from boxes to lists of cells. *)
Definition dict : Type := list (region * list cell).

Fixpoint dict_set (d : dict) (k : region) (v : list cell) : dict :=
  match d with
  | [] => [(k, v)]
  | (k', v') :: d' =>
      if region_eqb k' k then (k', v) :: d' else (k', v') :: dict_set d' k v
  end.

Fixpoint dict_get (d : dict) (k : region) : result (list cell) :=
  match d with
  | [] => Raise KeyError
  | (k', v') :: d' => if region_eqb k' k then Ok v' else dict_get d' k
  end.

(** [for cell in cells: contributordict[whichbox(boxes, cell.box)].append(cell)];
    [None] is not a key of the dict. *)
Fixpoint partition_cells (boxes : list region) (cells : list cell) (d : dict)
  : result dict :=
  match cells with
  | [] => Ok d
  | c :: cells' =>
      match whichbox boxes (cell_box c) with
      | None => Raise KeyError
      | Some box =>
          l <- dict_get d box ;;
          partition_cells boxes cells' (dict_set d box (l ++ [c]))
      end
  end.

(** [padded_series(s)]; [len(s)] is the length of [s.series]. *)
Definition padded_series (m : meta) (s : cell) : list Q :=
  let result := repeat MISSING (monm m) in
  let offset := (12 * (cell_first_year s - yrbeg m))%Z in
  slice_assign result offset (offset + Z.of_nat (length (cell_series s)))
    (cell_series s).

(** The body of the loop over the boxes, up to its [yield]. *)
Definition box_average (m : meta) (d : dict) (box : region) : result box_t :=
  l <- dict_get d box ;;
  match sorted_reverse cell_good_count l with
  | [] => Raise IndexError
  | best :: others =>
      let box_series := padded_series m best in
      let box_weight := map (fun a => if valid a then 1 else 0) box_series in
      let '(box_series, box_weight) :=
        fold_left
          (fun '(box_series, box_weight) c =>
             if (subbox_min_valid <=? cell_good_count c)%Z then
               let '(s', w', _) :=
                 combine box_series box_weight (padded_series m c) (WScalar 1)
                   box_min_overlap in
               (s', w')
             else (box_series, box_weight))
          others (box_series, box_weight) in
      let box_series :=
        anomalize box_series subbox_reference_period (yrbeg m) in
      Ok (box_series, box_weight, count_valid box_series, box)
  end.

Fixpoint boxes_loop (m : meta) (d : dict) (boxes : list region)
  : list box_t * option exn :=
  match boxes with
  | [] => ([], None)
  | box :: rest =>
      match box_average m d box with
      | Raise e => ([], Some e)
      | Ok b =>
          let '(bs, e) := boxes_loop m d rest in
          (b :: bs, e)
      end
  end.

(** [subbox_to_box(meta, cells)] run to its end. *)
Definition subbox_to_box (m : meta) (cells : list cell) : gen box_t :=
  let boxes := grid in
  let contributordict := fold_left (fun d box => dict_set d box []) boxes [] in
  match partition_cells boxes cells contributordict with
  | Raise e => Gen [] (Some e)
  | Ok contributordict =>
      let '(bs, e) := boxes_loop m contributordict boxes in
      Gen bs e
  end.

(** *** [annzon] *)

(** [alternate]: ['global'] is 1, 2 or false (0 here), ['hemi'] a flag. *)
Record alternate_t : Type := Alternate {
  alt_global : Z;
  alt_hemi : bool
}.

Definition default_alternate : alternate_t := Alternate 2 true.

(** Regrouping a series in blocks of 12; an incomplete last block is
    dropped. *)
Definition group12 (l : list Q) : list (list Q) :=
  map (fun i => firstn 12 (skipn (12 * i) l)) (seq 0 (length l / 12)).

Fixpoint mapM {A B : Type} (f : A -> result B) (l : list A)
  : result (list B) :=
  match l with
  | [] => Ok []
  | x :: l' =>
      y <- f x ;;
      ys <- mapM f l' ;;
      Ok (y :: ys)
  end.

(** The months of one year: the count [mon] and the sum [anniy] of the
    values that are not [MISSING].  A block has exactly 12 entries. *)
Definition year_sum (yr : list Q) : Z * Q :=
  fold_left
    (fun '(mon, anniy) v =>
       if Qeq_bool v MISSING then (mon, anniy) else ((mon + 1)%Z, anniy + v))
    yr (0%Z, 0).

(** The value [ann[zone][iy]] holds after the loop over the months; it was
    initialised to [MISSING]. *)
Definition year_mean (yr : list Q) : result Q :=
  let '(mon, anniy) := year_sum yr in
  if (zone_annual_min_months <=? mon)%Z then
    if (mon =? 0)%Z then Raise ZeroDivisionError
    else Ok (anniy / inject_Z mon)
  else Ok MISSING.

Definition annual_means (iyrs : nat) (data : list (list (list Q)))
  : result (list (list Q)) :=
  mapM (fun dz =>
          mapM (fun iy => yr <- getitem dz iy ;; year_mean yr) (seq 0 iyrs))
       data.

Definition get2 (a : list (list Q)) (z i : nat) : Q :=
  nth i (nth z a []) MISSING.

Definition set2 {A : Type} (a : list (list A)) (z i : nat) (x : A)
  : list (list A) :=
  set_at a z (set_at (nth z a []) i x).

Definition get3 (d : list (list (list Q))) (z i m : nat) : Q :=
  nth m (nth i (nth z d []) []) MISSING.

Definition set3 (d : list (list (list Q))) (z i m : nat) (x : Q)
  : list (list (list Q)) :=
  set_at d z (set2 (nth z d []) i m x).

(** The [for z, w in zip(zone, wtsp)] loop: [None] when it leaves through
    [break], the sum [glob] when it reaches its [else]. *)
Fixpoint blend_loop (zw : list (Q * Q)) (glob : Q) : option Q :=
  match zw with
  | [] => Some glob
  | (v, w) :: rest =>
      if Qeq_bool v MISSING then None else blend_loop rest (glob + v * w)
  end.

Definition wtsp : list Q := [3; 2; 2; 3].

(** One turn of the loop over the years that blends the annual means;
    [last] is the index that [-1] denotes. *)
Definition global_ann_turn (zone : list nat) (iy : nat) (ann : list (list Q))
  : list (list Q) :=
  let last := (length ann - 1)%nat in
  let ann := set2 ann last iy MISSING in
  match blend_loop (List.combine (map (fun z => get2 ann z iy) zone) wtsp) 0
  with
  | None => ann
  | Some glob => set2 ann last iy (0.1 * glob)
  end.

(** One turn of the loop over the months of the year [iy]. *)
Definition global_month_turn (zone : list nat) (last iy m : nat)
  (data : list (list (list Q))) : list (list (list Q)) :=
  match blend_loop (List.combine (map (fun z => get3 data z iy m) zone) wtsp) 0
  with
  | None => data
  | Some glob => set3 data last iy m (0.1 * glob)
  end.

(** One turn of the loop over the years that blends the monthly values. *)
Definition global_data_turn (zone : list nat) (iy : nat)
  (data : list (list (list Q))) : list (list (list Q)) :=
  let last := (length data - 1)%nat in
  let data := set2 data last iy (repeat MISSING 12) in
  for_each (seq 0 12) (global_month_turn zone last iy) data.

(** The alternate global mean. *)
Definition alternate_global (glb : Z) (iyrs : nat)
  (data : list (list (list Q))) (ann : list (list Q))
  : result (list (list (list Q)) * list (list Q)) :=
  if (glb =? 0)%Z then Ok (data, ann)
  else if negb ((glb =? 1)%Z || (glb =? 2)%Z)
  then Raise (AssertionError EmptyString)
  else
    let zone := if (glb =? 1)%Z then [8; 9; 9; 10]%nat else [8; 3; 4; 10]%nat in
    let ann := for_each (seq 0 iyrs) (global_ann_turn zone) ann in
    let data := for_each (seq 0 iyrs) (global_data_turn zone) data in
    Ok (data, ann).

Definition hemi_ann_turn (ihem iy : nat) (ann : list (list Q))
  : list (list Q) :=
  let ann := set2 ann (ihem + 11) iy MISSING in
  if negb (Qeq_bool (get2 ann (ihem + 3) iy) MISSING)
     && negb (Qeq_bool (get2 ann (2 * ihem + 8) iy) MISSING)
  then
    set2 ann (ihem + 11) iy
      (0.4 * get2 ann (ihem + 3) iy + 0.6 * get2 ann (2 * ihem + 8) iy)
  else ann.

Definition hemi_month_turn (ihem iy m : nat) (data : list (list (list Q)))
  : list (list (list Q)) :=
  if negb (Qeq_bool (get3 data (ihem + 3) iy m) MISSING)
     && negb (Qeq_bool (get3 data (2 * ihem + 8) iy m) MISSING)
  then
    set3 data (ihem + 11) iy m
      (0.4 * get3 data (ihem + 3) iy m + 0.6 * get3 data (2 * ihem + 8) iy m)
  else data.

Definition hemi_data_turn (ihem iy : nat) (data : list (list (list Q)))
  : list (list (list Q)) :=
  let data := set2 data (ihem + 11) iy (repeat MISSING 12) in
  for_each (seq 0 12) (hemi_month_turn ihem iy) data.

(** The alternate hemispheric means. *)
Definition alternate_hemi (hemi : bool) (iyrs : nat)
  (data : list (list (list Q))) (ann : list (list Q))
  : list (list (list Q)) * list (list Q) :=
  if negb hemi then (data, ann)
  else
    for_each (seq 0 2)
      (fun ihem '(data, ann) =>
         let ann := for_each (seq 0 iyrs) (hemi_ann_turn ihem) ann in
         let data := for_each (seq 0 iyrs) (hemi_data_turn ihem) data in
         (data, ann))
      (data, ann).

Record annzon_t : Type := Annzon {
  az_data : list (list (list Q));
  az_wt : list (list (list Q));
  az_ann : list (list Q);
  az_min_months : Z
}.

(** [annzon(meta, zoned_averages, alternate)]; the stream holds what the
    iterator yields. *)
Definition annzon (m : meta) (zoned_averages : list zone_t)
  (alternate : alternate_t) : result annzon_t :=
  let zones := 16%nat in
  let iyrs := (monm m / 12)%nat in
  r <- next_n zones zoned_averages ;;
  let data := map (fun z : zone_t => group12 (fst z)) (fst r) in
  let wt := map (fun z : zone_t => group12 (snd z)) (fst r) in
  ann <- annual_means iyrs data ;;
  r <- alternate_global (alt_global alternate) iyrs data ann ;;
  let '(data, ann) := alternate_hemi (alt_hemi alternate) iyrs (fst r) (snd r) in
  Ok (Annzon data wt ann zone_annual_min_months).

End Collaborators.

End Step5.

(** ** Step 5: the land mask and the choice of cells *)

Module Step5Cells.
Import Step5.
Local Open Scope Q_scope.

(** The first item of the metadata triple: [None], the metadata of a mask
    that was read, or a string. *)
Inductive mask_meta : Type :=
| MaskNone
| MaskMeta (m : meta)
| MaskNote (s : string).

(** Truth value of the first item, as [if maskmeta:] takes it. *)
Definition mask_truthy (mm : mask_meta) : bool :=
  match mm with
  | MaskNone => false
  | MaskMeta _ => true
  | MaskNote s => negb (String.eqb s "")
  end.

(** A weight of the stream: a number or [None]. *)
Definition weight_t : Type := option Q.

(** A [(weight, land, ocean)] triple of the stream. *)
Definition triple : Type := weight_t * cell * cell.

(** [landweight in (0, 1)] and [if landweight:] *)
Definition in_0_1 (w : weight_t) : bool :=
  match w with
  | Some q => Qeq_bool q 0 || Qeq_bool q 1
  | None => false
  end.

Definition weight_truthy (w : weight_t) : bool :=
  match w with
  | Some q => negb (Qeq_bool q 0)
  | None => false
  end.

(** The metadata of the stream of subboxes that [land_ocean_boxes] reads:
    [yrbeg], [monm] and [mavg]. *)
Record subbox_meta : Type := SubboxMeta {
  sm_yrbeg : Z;
  sm_monm : nat;
  sm_mavg : Z
}.

(** The month ranges kept while the cells are chosen. *)
Record ranges : Type := Ranges {
  minland : Z;
  maxland : Z;
  minocean : Z;
  maxocean : Z
}.

(** The state of the loop over the cells. *)
Record chosen : Type := Chosen {
  land : list cell;
  mixed : list cell;
  month_ranges : ranges
}.

(** The metadata of the mixed analysis. *)
Record mixed_meta : Type := MixedMeta {
  mm_yrbeg : Z;
  mm_monm : Z;
  land_month_range : Z * Z;
  ocean_month_range : Z * Z;
  mm_months_data : Z
}.

(** The [UnboundLocalError] that [del] raises on a name that was never
    bound. *)
Definition UnboundLocalError : exn := Exception "UnboundLocalError".

(** What [land_ocean_boxes] returns: the land metadata, with the
    [months_data] that [itermixed] stores in it, and the mixed metadata, each
    with its generator of boxes. *)
Record analyses : Type := Analyses {
  land_meta_out : subbox_meta;
  land_months_data : Z;
  land_boxes : gen box_t;
  mixed_meta_out : mixed_meta;
  mixed_boxes : gen box_t
}.

Section Collaborators.

(** [series.combine] and [series.anomalize], the parameters and the grid
    that [subbox_to_box] uses. *)
Variable combine :
  list Q -> list Q -> list Q -> weight_arg -> Z -> list Q * list Q * list Z.
Variable anomalize : list Q -> Z * Z -> Z -> list Q.
Variable box_min_overlap : Z.
Variable subbox_min_valid : Z.
Variable subbox_reference_period : Z * Z.
Variable centre : region -> Q * Q.
Variable grid : list region.

(** [parameters.subbox_land_range] *)
Variable subbox_land_range : Q.

(** The attribute [d] and the methods [first_valid_month] and
    [last_valid_month] of a series; [steps/giss_data.py] is not among the
    sources. *)
Variable d : cell -> Q.
Variable first_valid_month : cell -> Z.
Variable last_valid_month : cell -> Z.

(** What [land_ocean_boxes] does before its loop: it reads the last year
    off the ocean title, opens the land file and writes its header; this
    may raise. *)
Variable header : result unit.

(** The lines that the loop of [land_ocean_boxes] writes to the land file
    for one land cell, with [get_set_of_years]; they may raise. *)
Variable report : cell -> result unit.

(** The mask of one cell, as [ensure_weight] computes it. *)
Definition landmask (land ocean : cell) : Q :=
  if (cell_good_count ocean <? subbox_min_valid)%Z
     || Qlt_bool (d land) subbox_land_range
  then 1
  else 0.

(** [ensure_weight(data)] on a stream that starts with its metadata triple
    [(maskmeta, landmeta, oceanmeta)]: the first item of the metadata that
    is yielded, and the triples that follow it. *)
Definition ensure_weight (data : mask_meta * list triple)
  : mask_meta * list triple :=
  let '(maskmeta, cells) := data in
  if mask_truthy maskmeta then (maskmeta, cells)
  else
    (MaskNote "mask computed in Step 5",
     map (fun t : triple =>
            let '(_, land, ocean) := t in
            (Some (landmask land ocean), land, ocean))
         cells).

(** One turn of the loop of [land_ocean_boxes] over the cells. *)
Definition choose_turn (s : chosen) (t : triple) : result chosen :=
  let '(landweight, landcell, oceancell) := t in
  let land := land s ++ [landcell] in
  if in_0_1 landweight then
    let r := month_ranges s in
    let '(mixedcell, r) :=
      if weight_truthy landweight then
        (landcell,
         Ranges (Z.min (minland r) (first_valid_month landcell))
                (Z.max (maxland r) (last_valid_month landcell))
                (minocean r) (maxocean r))
      else
        (oceancell,
         Ranges (minland r) (maxland r)
                (Z.min (minocean r) (first_valid_month oceancell))
                (Z.max (maxocean r) (last_valid_month oceancell))) in
    _ <- report landcell ;;
    Ok (Chosen land (mixed s ++ [mixedcell]) r)
  else Raise (AssertionError "").

Fixpoint choose_loop (cells : list triple) (s : chosen) : result chosen :=
  match cells with
  | [] => Ok s
  | t :: cells' =>
      s' <- choose_turn s t ;;
      choose_loop cells' s'
  end.

Definition choose_cells (cells : list triple) : result chosen :=
  choose_loop cells
    (Chosen [] [] (Ranges 999999 (-999999) 999999 (-999999))).

(** [itermixed()]: the metadata of the mixed analysis. *)
Definition itermixed_meta (land_meta ocean_meta : subbox_meta) (r : ranges)
  : mixed_meta :=
  let first_year := Z.min (sm_yrbeg land_meta) (sm_yrbeg ocean_meta) in
  let land_limit_year :=
    (sm_yrbeg land_meta + Z.of_nat (sm_monm land_meta) / 12)%Z in
  let ocean_limit_year :=
    (sm_yrbeg ocean_meta + Z.of_nat (sm_monm ocean_meta) / 12)%Z in
  let limit_year := Z.max land_limit_year ocean_limit_year in
  let max_months := ((limit_year - first_year) * 12)%Z in
  MixedMeta first_year max_months
    (minland r, maxland r) (minocean r, maxocean r)
    (Z.max (maxland r) (maxocean r)).

Definition subbox_to_box_of (yrbeg : Z) (monm : nat) (cells : list cell)
  : gen box_t :=
  subbox_to_box combine anomalize box_min_overlap subbox_min_valid
    subbox_reference_period centre grid (Meta yrbeg monm) cells.

(** [land_ocean_boxes(meta, cells)].  The warning about mismatched ranges
    is printed only and is left out.  After the loop,
    [del landweight, landcell, oceancell] raises when the loop had no turn,
    since the names were never bound. *)
Definition land_ocean_boxes (land_meta ocean_meta : subbox_meta)
  (cells : list triple) : result analyses :=
  _ <- header ;;
  if (sm_mavg land_meta =? 6)%Z then
    s <- choose_cells cells ;;
    _ <- match cells with
         | [] => Raise UnboundLocalError
         | _ :: _ => Ok tt
         end ;;
    let mm := itermixed_meta land_meta ocean_meta (month_ranges s) in
    Ok (Analyses land_meta (mm_months_data mm)
          (subbox_to_box_of (sm_yrbeg land_meta) (sm_monm land_meta) (land s))
          mm
          (subbox_to_box_of (mm_yrbeg mm) (Z.to_nat (mm_monm mm)) (mixed s)))
  else Raise (AssertionError "").

(** [as_boxes(data)] on a stream that starts with its metadata triple. *)
Definition as_boxes (data : (mask_meta * subbox_meta * subbox_meta)
                            * list triple) : result analyses :=
  let '((_, land_meta, ocean_meta), cells) := data in
  land_ocean_boxes land_meta ocean_meta cells.

End Collaborators.

End Step5Cells.

(** * Properties *)

Lemma bind_Ok {A B : Type} (a : A) (k : A -> result B) : bind (Ok a) k = k a.
Proof. reflexivity. Qed.

(** ** The stable sort *)

Section SortedFacts.
Context {A : Type} (key : A -> Z).

Lemma insert_by_perm (x : A) (l : list A) :
  Permutation (insert_by key x l) (x :: l).
Proof.
  induction l as [|y l IH]; simpl.
  - apply Permutation_refl.
  - destruct (key x <=? key y)%Z.
    + apply Permutation_refl.
    + eapply perm_trans; [apply perm_skip, IH | apply perm_swap].
Qed.

Lemma sorted_perm (l : list A) : Permutation (sorted key l) l.
Proof.
  induction l as [|x l IH]; simpl.
  - apply perm_nil.
  - eapply perm_trans; [apply insert_by_perm | apply perm_skip, IH].
Qed.

Lemma sorted_length (l : list A) : length (sorted key l) = length l.
Proof. apply Permutation_length, sorted_perm. Qed.

Definition key_le (x y : A) : Prop := (key x <= key y)%Z.

Lemma insert_by_sorted (x : A) (l : list A) :
  StronglySorted key_le l -> StronglySorted key_le (insert_by key x l).
Proof.
  induction 1 as [|y l Hs IH Hy]; simpl.
  - constructor; constructor.
  - destruct (key x <=? key y)%Z eqn:E.
    + apply Z.leb_le in E. constructor.
      * constructor; assumption.
      * constructor; [exact E|].
        eapply Forall_impl; [|exact Hy].
        intros z Hz. unfold key_le in *. lia.
    + apply Z.leb_gt in E. constructor; [exact IH|].
      eapply Permutation_Forall.
      * apply Permutation_sym, insert_by_perm.
      * constructor; [unfold key_le; lia | exact Hy].
Qed.

Lemma sorted_sorted (l : list A) : StronglySorted key_le (sorted key l).
Proof.
  induction l as [|x l IH]; simpl.
  - constructor.
  - apply insert_by_sorted, IH.
Qed.

(** Stability: the elements of any one key keep their input order. *)
Lemma insert_by_stable (k : Z) (x : A) (l : list A) :
  filter (fun y => (key y =? k)%Z) (insert_by key x l)
  = filter (fun y => (key y =? k)%Z) (x :: l).
Proof.
  induction l as [|y l IH]; simpl.
  - reflexivity.
  - destruct (key x <=? key y)%Z eqn:E.
    + reflexivity.
    + apply Z.leb_gt in E. simpl. rewrite IH. simpl.
      destruct (key x =? k)%Z eqn:Ex; [|reflexivity].
      destruct (key y =? k)%Z eqn:Ey; [|reflexivity].
      apply Z.eqb_eq in Ex, Ey. lia.
Qed.

Lemma sorted_stable (k : Z) (l : list A) :
  filter (fun y => (key y =? k)%Z) (sorted key l)
  = filter (fun y => (key y =? k)%Z) l.
Proof.
  induction l as [|x l IH]; simpl.
  - reflexivity.
  - rewrite insert_by_stable. simpl. rewrite IH. reflexivity.
Qed.

End SortedFacts.

(** ** [sort_perm] *)

Section SortPerm.
Import Step5.

Lemma split_maps {A B : Type} (z : list (A * B)) :
  split z = (map fst z, map snd z).
Proof.
  induction z as [|[x y] z IH]; simpl.
  - reflexivity.
  - rewrite IH. reflexivity.
Qed.

Lemma map_snd_combine {A B : Type} (l : list A) (l' : list B) :
  length l = length l' -> map snd (List.combine l l') = l'.
Proof.
  revert l'. induction l as [|x l IH]; intros [|y l'] H; simpl in *;
    try discriminate; try reflexivity.
  f_equal. apply IH. lia.
Qed.

Lemma in_zip_range (a : list Z) (p : Z * nat) :
  In p (List.combine a (seq 0 (length a))) -> nth (snd p) a 0%Z = fst p.
Proof.
  intros H.
  destruct (In_nth _ _ (0%Z, 0%nat) H) as [n [Hn Hp]].
  rewrite length_combine, length_seq, Nat.min_id in Hn.
  rewrite combine_nth in Hp by (now rewrite length_seq).
  rewrite seq_nth in Hp by exact Hn.
  subst p. reflexivity.
Qed.

(** What [sort_perm] does guarantee: [indexes] is a permutation of the
    positions of [a], and [a[indexes[x]] == sorted[x]]. *)
Lemma sort_perm_spec (a s : list Z) (ix : list nat) :
  sort_perm a = Ok (s, ix) ->
  Permutation ix (seq 0 (length a)) /\ s = map (fun i => nth i a 0%Z) ix.
Proof.
  unfold sort_perm.
  set (key := fun x : Z * nat => (Z.of_nat (snd x) - fst x)%Z).
  set (z := List.combine a (seq 0 (length a))).
  pose proof (sorted_perm key z) as Hp.
  destruct (sorted key z) as [|p z'] eqn:E; [discriminate|].
  rewrite split_maps. intros H. injection H as Hs Hix. subst s ix.
  split.
  - apply (Permutation_map snd) in Hp.
    replace (map snd z) with (seq 0 (length a)) in Hp; [exact Hp|].
    symmetry. apply map_snd_combine. now rewrite length_seq.
  - change (map fst (p :: z')
            = map (fun i => nth i a 0%Z) (map snd (p :: z'))).
    rewrite map_map. apply map_ext_in. intros q Hq.
    symmetry. apply in_zip_range.
    eapply Permutation_in; [exact Hp | exact Hq].
Qed.

Lemma sort_perm_ok (a : list Z) :
  a <> [] -> exists s ix, sort_perm a = Ok (s, ix).
Proof.
  intros Ha. unfold sort_perm.
  set (key := fun x : Z * nat => (Z.of_nat (snd x) - fst x)%Z).
  set (z := List.combine a (seq 0 (length a))).
  pose proof (sorted_length key z) as Hl.
  destruct (sorted key z) as [|p z'] eqn:E.
  - exfalso. unfold z in Hl.
    rewrite length_combine, length_seq, Nat.min_id in Hl.
    destruct a; [congruence | simpl in Hl; discriminate].
  - rewrite split_maps. eauto.
Qed.

Definition descending (l : list Z) : Prop :=
  StronglySorted (fun x y => (y <= x)%Z) l.

(** C1 (the code departs from it).  [sort_perm] is documented to return [a]
    in descending order.  On [a = [1, 2]] the two keys [x[1] - x[0]] are both
    [-1], the stable sort leaves the pairs where they are, and the result is
    [(1, 2)] with the indexes [(0, 1)]: ascending. *)
Theorem sort_perm_not_descending :
  sort_perm [1; 2]%Z = Ok ([1; 2]%Z, [0; 1]%nat)
  /\ ~ descending [1; 2]%Z.
Proof.
  split.
  - reflexivity.
  - intros H. inversion H as [|x l _ Hall]; subst.
    inversion Hall as [|y l' Hle _]; subst. lia.
Qed.

End SortPerm.

(** ** [zonav]: the bands *)

Section ZonavBands.
Import Step5.

Variable combine :
  list Q -> list Q -> list Q -> weight_arg -> Z -> list Q * list Q * list Z.
Variable anomalize : list Q -> Z * Z -> Z -> list Q.
Variable box_min_overlap : Z.
Variable box_reference_period : Z * Z.

Local Abbreviation band_average :=
  (band_average combine anomalize box_min_overlap box_reference_period).
Local Abbreviation zonav_bands :=
  (zonav_bands combine anomalize box_min_overlap box_reference_period).
Local Abbreviation zone_average :=
  (zone_average combine anomalize box_min_overlap box_reference_period).
Local Abbreviation zonav_zones :=
  (zonav_zones combine anomalize box_min_overlap box_reference_period).
Local Abbreviation zonav :=
  (zonav combine anomalize box_min_overlap box_reference_period).

(** C4 (the code departs from it).  A band of four boxes with 1700, 0, 1
    and 900 valid months: [sort_perm] ranks them [(1700, 900, 0, 1)], the
    loop combines the fourth box, meets the zero at rank 2 and stops, and the
    third box, which has a valid month, is never handed to the combiner: the
    band is made of the first and the fourth box alone, whatever the combiner
    does. *)
Theorem band_average_skips_valid_box (m : meta)
  (s0 w0 s1 w1 s2 w2 s3 w3 : list Q) (b0 b1 b2 b3 : region) :
  sort_perm [1700; 0; 1; 900]%Z
  = Ok ([1700; 900; 0; 1]%Z, [0; 3; 1; 2]%nat)
  /\ band_average m
       [(s0, w0, 1700%Z, b0); (s1, w1, 0%Z, b1); (s2, w2, 1%Z, b2);
        (s3, w3, 900%Z, b3)]
     = let c := combine s0 w0 s3 (WSeries w3) box_min_overlap in
       Ok (anomalize (fst (fst c)) box_reference_period (yrbeg m),
           snd (fst c)).
Proof.
  split; [reflexivity|].
  unfold Step5.band_average. simpl.
  destruct (combine s0 w0 s3 (WSeries w3) box_min_overlap) as [[avg wt] n].
  reflexivity.
Qed.

(** The groups the bands are made of, as the docstring of [zones] has them:
    take the next [k] boxes to make the next band. *)
Fixpoint groups {A : Type} (sizes : list nat) (l : list A) : list (list A) :=
  match sizes with
  | [] => []
  | k :: sizes' => firstn k l :: groups sizes' (skipn k l)
  end.

Lemma next_n_firstn {A : Type} (k : nat) (l : list A) :
  (k <= length l)%nat -> next_n k l = Ok (firstn k l, skipn k l).
Proof.
  revert l. induction k as [|k IH]; intros l H; simpl.
  - reflexivity.
  - destruct l as [|x l]; simpl in *; [lia|].
    rewrite IH by lia. reflexivity.
Qed.

Lemma band_average_ok (m : meta) (boxes : list box_t) :
  boxes <> [] -> exists z, band_average m boxes = Ok z.
Proof.
  intros Hne. unfold Step5.band_average.
  destruct (sumZ _ =? 0)%Z.
  - simpl. eauto.
  - match goal with
    | |- context [sort_perm ?l] => destruct (sort_perm_ok l) as [s [ix Hs]]
    end.
    + destruct boxes; [congruence | discriminate].
    + rewrite Hs. simpl.
      destruct (combine_boxes _ _ _ _ _ _ _ _ _) as [avg wt].
      eauto.
Qed.

Lemma zonav_bands_groups (m : meta) (sizes : list nat) :
  Forall (fun k => (0 < k)%nat) sizes ->
  forall boxed_data : list box_t,
    (list_sum sizes <= length boxed_data)%nat ->
    exists zs,
      zonav_bands m sizes boxed_data
      = (zs, Ok (skipn (list_sum sizes) boxed_data))
      /\ map Ok zs = map (band_average m) (groups sizes boxed_data).
Proof.
  induction 1 as [|k sizes Hk _ IH]; intros boxed_data Hlen; simpl in *.
  - exists []. split; reflexivity.
  - rewrite next_n_firstn by lia. cbv beta iota.
    match goal with
    | |- context [Step5.band_average _ _ _ _ m ?bs] =>
        destruct (band_average_ok m bs) as [z Hz]
    end.
    + intros E. apply (f_equal (@length _)) in E.
      rewrite length_firstn in E. simpl in E. lia.
    + rewrite Hz.
      destruct (IH (skipn k boxed_data)) as [zs [Hzs Hmap]].
      * rewrite length_skipn. lia.
      * rewrite Hzs. exists (z :: zs). split.
        -- rewrite skipn_skipn, (Nat.add_comm (list_sum sizes)). reflexivity.
        -- simpl. rewrite Hmap. f_equal.
Qed.

Lemma groups_concat {A : Type} (sizes : list nat) (l : list A) :
  concat (groups sizes l) = firstn (list_sum sizes) l.
Proof.
  revert l. induction sizes as [|k sizes IH]; intros l; simpl.
  - reflexivity.
  - rewrite IH. rewrite <- (firstn_skipn k l) at 3.
    rewrite firstn_app, length_firstn.
    destruct (Nat.le_gt_cases k (length l)) as [Hk|Hk].
    + rewrite Nat.min_l by lia.
      rewrite (firstn_all2 (n := k + list_sum sizes))
        by (rewrite length_firstn; lia).
      f_equal. f_equal. lia.
    + rewrite (skipn_all2 (n := k)) by lia.
      rewrite !firstn_nil, !app_nil_r.
      rewrite !firstn_all2 by (try rewrite length_firstn; lia).
      reflexivity.
Qed.

Lemma zone_average_ok (m : meta) (avg wt : list (list Q)) (iord : list nat)
  (bands zone : nat) (members : list nat) :
  Permutation iord (seq 0 bands) ->
  (exists b, In b members /\ (b < bands)%nat) ->
  exists z, zone_average m avg wt iord bands zone members = Ok z.
Proof.
  intros Hp [b [Hb Hlt]]. unfold Step5.zone_average.
  destruct (find _ (seq 0 bands)) as [j1|] eqn:E.
  - destruct (for_each _ _ _) as [avgg wtg]. eauto.
  - exfalso.
    assert (Hin : In b iord).
    { eapply Permutation_in; [apply Permutation_sym, Hp|].
      apply in_seq. lia. }
    destruct (In_nth _ _ 0%nat Hin) as [j [Hj Hnth]].
    rewrite (Permutation_length Hp), length_seq in Hj.
    pose proof (find_none _ _ E j) as Hf. simpl in Hf.
    rewrite Hnth in Hf.
    assert (Hm : mem b members = true).
    { unfold mem. apply existsb_exists. exists b. split; [exact Hb|].
      apply Nat.eqb_refl. }
    rewrite Hm in Hf. discriminate Hf. apply in_seq. lia.
Qed.

Lemma zonav_zones_ok (m : meta) (avg wt : list (list Q)) (iord : list nat)
  (bands : nat) (band_in_zone : list (list nat)) :
  Permutation iord (seq 0 bands) ->
  Forall (fun members => exists b, In b members /\ (b < bands)%nat)
         band_in_zone ->
  forall zone, exists cs,
    zonav_zones m avg wt iord bands zone band_in_zone = (cs, None)
    /\ length cs = length band_in_zone.
Proof.
  intros Hp. induction 1 as [|members rest Hm _ IH]; intros zone; simpl.
  - exists []. split; reflexivity.
  - destruct (zone_average_ok m avg wt iord bands zone members Hp Hm)
      as [z Hz].
    rewrite Hz. destruct (IH (S zone)) as [cs [Hcs Hl]].
    rewrite Hcs. exists (z :: cs). split; [reflexivity | simpl; lia].
Qed.

Lemma zones_value :
  zones
  = ([4; 8; 12; 16; 16; 12; 8; 4]%nat,
     [[0; 1; 2]; [3; 4]; [5; 6; 7]; [1; 2]; [5; 6]; [0; 1; 2; 3];
      [4; 5; 6; 7]; [0; 1; 2; 3; 4; 5; 6; 7]]%nat).
Proof. reflexivity. Qed.

Lemma map_Ok_length {A : Type} (zs : list A) (rs : list (result A)) :
  map Ok zs = rs -> length zs = length rs.
Proof. intros <-. now rewrite length_map. Qed.

Lemma groups_length {A : Type} (sizes : list nat) (l : list A) :
  length (groups sizes l) = length sizes.
Proof.
  revert l. induction sizes as [|k sizes IH]; intros l; simpl;
    [reflexivity | now rewrite IH].
Qed.

(** C5.  [zonav] reads the first 80 boxes of the stream in groups of 4, 8,
    12, 16, 16, 12, 8 and 4, one band each, and yields the 8 band series.
    Then, when the stream holds a further box, it stops with the
    [AssertionError] "Too many boxes found", having taken that box; when the
    stream is exhausted it goes on and yields the 8 compound zones. *)
Theorem zonav_partition_check (m : meta) (boxed_data : list box_t) :
  (80 <= length boxed_data)%nat ->
  exists bands_out : list zone_t,
    map Ok bands_out
    = map (band_average m) (groups [4; 8; 12; 16; 16; 12; 8; 4]%nat boxed_data)
    /\ concat (groups [4; 8; 12; 16; 16; 12; 8; 4]%nat boxed_data)
       = firstn 80 boxed_data
    /\ length bands_out = 8%nat
    /\ if (length boxed_data =? 80)%nat
       then exists zones_out,
           length zones_out = 8%nat
           /\ zonav m boxed_data = (Gen (bands_out ++ zones_out) None, [])
       else zonav m boxed_data
            = (Gen bands_out
                 (Some (AssertionError "Too many boxes found"%string)),
               skipn 81 boxed_data).
Proof.
  intros Hlen.
  destruct (zonav_bands_groups m [4; 8; 12; 16; 16; 12; 8; 4]%nat)
    with (boxed_data := boxed_data) as [zs [Hzs Hmap]].
  { repeat constructor. }
  { simpl. exact Hlen. }
  exists zs. split; [exact Hmap|]. split; [apply groups_concat|].
  assert (Hl8 : length zs = 8%nat).
  { rewrite (map_Ok_length _ _ Hmap), length_map, groups_length.
    reflexivity. }
  split; [exact Hl8|].
  unfold Step5.zonav. rewrite zones_value. cbv iota beta.
  rewrite Hzs. change (list_sum [4; 8; 12; 16; 16; 12; 8; 4]%nat) with 80%nat.
  destruct (length boxed_data =? 80)%nat eqn:E.
  - apply Nat.eqb_eq in E.
    rewrite skipn_all2 by lia.
    destruct (sort_perm_ok (map count_valid (map fst zs))) as [s [iord Hs]].
    { destruct zs; [discriminate | discriminate]. }
    rewrite Hs.
    apply sort_perm_spec in Hs. destruct Hs as [Hp0 _].
    assert (Hp : Permutation iord (seq 0 8)).
    { replace 8%nat with (length (map count_valid (map fst zs)));
        [exact Hp0 | rewrite !length_map; exact Hl8]. }
    edestruct (zonav_zones_ok m (map fst zs) (map snd zs) iord 8) as
      [cs [Hcs Hl]]; [exact Hp | | ].
    2:{ change (length [4; 8; 12; 16; 16; 12; 8; 4]%nat) with 8%nat.
        rewrite Hcs. exists cs. split; [exact Hl | reflexivity]. }
    repeat constructor;
      (eexists; split; [left; reflexivity | lia]).
  - apply Nat.eqb_neq in E.
    destruct (skipn 80 boxed_data) as [|b rest] eqn:Es.
    + exfalso. apply (f_equal (@length _)) in Es.
      rewrite length_skipn in Es. simpl in Es. lia.
    + f_equal.
      change 81%nat with (1 + 80)%nat. rewrite <- skipn_skipn, Es.
      reflexivity.
Qed.

End ZonavBands.

(** ** [subbox_to_box]: the partition of the cells *)

Section RegionKeys.
Import Step5.

Definition region_eq (a b : region) : Prop :=
  let '(s1, n1, w1, e1) := a in
  let '(s2, n2, w2, e2) := b in
  s1 == s2 /\ n1 == n2 /\ w1 == w2 /\ e1 == e2.

Lemma region_eqb_spec (a b : region) : region_eqb a b = true <-> region_eq a b.
Proof.
  destruct a as [[[s1 n1] w1] e1], b as [[[s2 n2] w2] e2]. simpl.
  rewrite !andb_true_iff, !Qeq_bool_iff. tauto.
Qed.

Lemma region_eqb_refl (a : region) : region_eqb a a = true.
Proof.
  apply region_eqb_spec. destruct a as [[[s n] w] e]. simpl.
  repeat split; reflexivity.
Qed.

Lemma region_eqb_sym (a b : region) : region_eqb a b = region_eqb b a.
Proof.
  apply eq_true_iff_eq. rewrite !region_eqb_spec.
  destruct a as [[[s1 n1] w1] e1], b as [[[s2 n2] w2] e2]. simpl.
  split; intros (H1 & H2 & H3 & H4); repeat split; symmetry; assumption.
Qed.

Lemma region_eqb_trans (a b c : region) :
  region_eqb a b = true -> region_eqb b c = true -> region_eqb a c = true.
Proof.
  rewrite !region_eqb_spec.
  destruct a as [[[s1 n1] w1] e1], b as [[[s2 n2] w2] e2],
    c as [[[s3 n3] w3] e3]. simpl.
  intros (H1 & H2 & H3 & H4) (K1 & K2 & K3 & K4).
  repeat split; etransitivity; eassumption.
Qed.

(** Two keys that are equal look up the same entries. *)
Lemma region_eqb_left (a b c : region) :
  region_eqb a b = true -> region_eqb a c = region_eqb b c.
Proof.
  intros H. destruct (region_eqb b c) eqn:E.
  - eapply region_eqb_trans; eassumption.
  - destruct (region_eqb a c) eqn:E'; [|reflexivity].
    rewrite region_eqb_sym in H.
    rewrite (region_eqb_trans _ _ _ H E') in E. discriminate.
Qed.

Lemma dict_get_set (d : dict) (k k' : region) (v : list cell) :
  dict_get (dict_set d k v) k'
  = if region_eqb k k' then Ok v else dict_get d k'.
Proof.
  induction d as [|[k1 v1] d IH]; simpl.
  - reflexivity.
  - destruct (region_eqb k1 k) eqn:E1; simpl.
    + rewrite (region_eqb_left _ _ _ E1).
      destruct (region_eqb k k'); reflexivity.
    + rewrite IH.
      destruct (region_eqb k1 k') eqn:E2; [|reflexivity].
      destruct (region_eqb k k') eqn:E3; [|reflexivity].
      rewrite region_eqb_sym in E3.
      rewrite (region_eqb_trans _ _ _ E2 E3) in E1. discriminate.
Qed.

End RegionKeys.

Section SubboxToBox.
Import Step5.

Variable combine :
  list Q -> list Q -> list Q -> weight_arg -> Z -> list Q * list Q * list Z.
Variable anomalize : list Q -> Z * Z -> Z -> list Q.
Variable box_min_overlap : Z.
Variable subbox_min_valid : Z.
Variable subbox_reference_period : Z * Z.
Variable centre : region -> Q * Q.
Variable grid : list region.

Local Abbreviation whichbox := (whichbox centre).
Local Abbreviation box_average :=
  (box_average combine anomalize box_min_overlap subbox_min_valid
     subbox_reference_period).
Local Abbreviation boxes_loop :=
  (boxes_loop combine anomalize box_min_overlap subbox_min_valid
     subbox_reference_period).
Local Abbreviation subbox_to_box :=
  (subbox_to_box combine anomalize box_min_overlap subbox_min_valid
     subbox_reference_period centre grid).

(** The cells whose centre [whichbox] places in [box]. *)
Definition in_box (box : region) (c : cell) : bool :=
  match whichbox grid (cell_box c) with
  | Some b => region_eqb b box
  | None => false
  end.

Definition contributors (cells : list cell) (box : region) : list cell :=
  filter (in_box box) cells.

Definition partitioned (d : dict) (done : list cell) : Prop :=
  forall box, In box grid -> dict_get d box = Ok (contributors done box).

Lemma empty_dict_get (boxes : list region) (d : dict) (box : region) :
  (In box boxes \/ dict_get d box = Ok []) ->
  (forall b, dict_get d b = Ok [] \/ dict_get d b = Raise KeyError) ->
  dict_get (fold_left (fun d box => dict_set d box []) boxes d) box = Ok [].
Proof.
  revert d. induction boxes as [|b boxes IH]; intros d H Hd; simpl.
  - destruct H as [[]|H]. exact H.
  - apply IH.
    + rewrite dict_get_set. destruct H as [[->|H]|H].
      * rewrite region_eqb_refl. now right.
      * now left.
      * right. rewrite H. destruct (region_eqb b box); reflexivity.
    + intros b'. rewrite dict_get_set.
      destruct (region_eqb b b'); [now left | apply Hd].
Qed.

Lemma partitioned_init :
  partitioned (fold_left (fun d box => dict_set d box []) grid []) [].
Proof.
  intros box Hin. unfold contributors. simpl.
  apply empty_dict_get; [now left | intros b; now right].
Qed.

Lemma whichbox_in_grid (c : region) (b : region) :
  whichbox grid c = Some b -> In b grid.
Proof.
  unfold Step5.whichbox. destruct (centre c) as [lat lon].
  intros H. apply find_some in H. apply H.
Qed.

Lemma partitioned_step (d : dict) (done : list cell) (c : cell) (b : region) :
  partitioned d done ->
  whichbox grid (cell_box c) = Some b ->
  partitioned (dict_set d b (contributors done b ++ [c])) (done ++ [c]).
Proof.
  intros Hd Hb box Hin. rewrite dict_get_set.
  unfold contributors. rewrite filter_app. simpl.
  unfold in_box at 3. rewrite Hb.
  destruct (region_eqb b box) eqn:E.
  - f_equal. f_equal. apply filter_ext. intros c'. unfold in_box.
    destruct (whichbox grid (cell_box c')) as [b'|]; [|reflexivity].
    rewrite (region_eqb_sym b' b), (region_eqb_sym b' box).
    apply region_eqb_left. exact E.
  - rewrite app_nil_r. apply Hd, Hin.
Qed.

Lemma partition_cells_ok (cells done : list cell) (d : dict) :
  partitioned d done ->
  (forall c, In c cells -> whichbox grid (cell_box c) <> None) ->
  exists d', partition_cells centre grid cells d = Ok d'
             /\ partitioned d' (done ++ cells).
Proof.
  revert done d. induction cells as [|c cells IH]; intros done d Hd Hall.
  - exists d. rewrite app_nil_r. split; [reflexivity | exact Hd].
  - simpl. destruct (whichbox grid (cell_box c)) as [b|] eqn:Hb.
    + rewrite (Hd b (whichbox_in_grid _ _ Hb)). simpl.
      destruct (IH (done ++ [c]) (dict_set d b (contributors done b ++ [c])))
        as [d' [Hd' Hp]].
      * apply partitioned_step; assumption.
      * intros c' Hc'. apply Hall. now right.
      * exists d'. rewrite <- app_assoc in Hp. split; assumption.
    + exfalso. apply (Hall c); [now left | exact Hb].
Qed.

Lemma partition_cells_keyerror (cells done : list cell) (d : dict) :
  partitioned d done ->
  (exists c, In c cells /\ whichbox grid (cell_box c) = None) ->
  partition_cells centre grid cells d = Raise KeyError.
Proof.
  revert done d. induction cells as [|c cells IH]; intros done d Hd [c0 [Hin Hc0]].
  - destruct Hin.
  - simpl. destruct (whichbox grid (cell_box c)) as [b|] eqn:Hb.
    + rewrite (Hd b (whichbox_in_grid _ _ Hb)). simpl.
      apply (IH (done ++ [c])).
      * apply partitioned_step; assumption.
      * destruct Hin as [->|Hin]; [congruence|]. exists c0. now split.
    + reflexivity.
Qed.

Lemma box_average_empty (m : meta) (d : dict) (cells : list cell)
  (box : region) :
  partitioned d cells -> In box grid ->
  contributors cells box = [] ->
  box_average m d box = Raise IndexError.
Proof.
  intros Hd Hin He. unfold Step5.box_average.
  rewrite (Hd box Hin), He. reflexivity.
Qed.

Lemma box_average_nonempty (m : meta) (d : dict) (cells : list cell)
  (box : region) :
  partitioned d cells -> In box grid ->
  contributors cells box <> [] ->
  exists b, box_average m d box = Ok b.
Proof.
  intros Hd Hin Hne. unfold Step5.box_average.
  rewrite (Hd box Hin). simpl.
  pose proof (sorted_length (fun x => (- cell_good_count x)%Z)
                (contributors cells box)) as Hl.
  unfold sorted_reverse.
  destruct (sorted _ (contributors cells box)) as [|best others].
  - destruct (contributors cells box); [congruence | discriminate].
  - destruct (fold_left _ others _) as [s w]. eauto.
Qed.

Lemma boxes_loop_first_empty (m : meta) (d : dict) (cells : list cell)
  (boxes : list region) :
  partitioned d cells ->
  (forall b, In b boxes -> In b grid) ->
  forall (k : nat) (box : region),
    nth_error boxes k = Some box ->
    contributors cells box = [] ->
    (forall j bj, (j < k)%nat -> nth_error boxes j = Some bj ->
                  contributors cells bj <> []) ->
    exists ys, boxes_loop m d boxes = (ys, Some IndexError)
               /\ length ys = k.
Proof.
  intros Hd. induction boxes as [|b boxes IH]; intros Hsub k box Hk He Hbefore.
  - destruct k; discriminate.
  - simpl. destruct k as [|k]; simpl in Hk.
    + injection Hk as ->.
      rewrite (box_average_empty m d cells box Hd (Hsub _ (or_introl eq_refl)) He).
      exists []. split; reflexivity.
    + destruct (box_average_nonempty m d cells b Hd (Hsub _ (or_introl eq_refl)))
        as [y Hy].
      { apply (Hbefore 0%nat); [lia | reflexivity]. }
      rewrite Hy.
      destruct (IH (fun b' H => Hsub b' (or_intror H)) k box Hk He)
        as [ys [Hys Hl]].
      { intros j bj Hj Hnth. apply (Hbefore (S j)); [lia | exact Hnth]. }
      rewrite Hys. exists (y :: ys). split; [reflexivity | simpl; lia].
Qed.

Lemma boxes_loop_all (m : meta) (d : dict) (cells : list cell)
  (boxes : list region) :
  partitioned d cells ->
  (forall b, In b boxes -> In b grid) ->
  (forall b, In b boxes -> contributors cells b <> []) ->
  exists ys, boxes_loop m d boxes = (ys, None)
             /\ length ys = length boxes.
Proof.
  intros Hd. induction boxes as [|b boxes IH]; intros Hsub Hall; simpl.
  - exists []. split; reflexivity.
  - destruct (box_average_nonempty m d cells b Hd (Hsub _ (or_introl eq_refl)))
      as [y Hy].
    { apply Hall. now left. }
    rewrite Hy.
    destruct IH as [ys [Hys Hl]].
    { intros b' H. apply Hsub. now right. }
    { intros b' H. apply Hall. now right. }
    rewrite Hys. exists (y :: ys). split; [reflexivity | simpl; lia].
Qed.

(** C10.  [subbox_to_box] needs every cell centre to lie in a box and every
    box to receive a cell.  A cell that [whichbox] places in no box stops it
    with [KeyError] before anything is yielded.  Otherwise, at the first box
    with no contributing cell it stops with [IndexError], having yielded the
    boxes before it and nothing for that one; and when every box has a cell
    it yields one result per box. *)
Theorem subbox_to_box_needs_partition (m : meta) (cells : list cell) :
  ((exists c, In c cells /\ whichbox grid (cell_box c) = None) ->
   subbox_to_box m cells = Gen [] (Some KeyError))
  /\ ((forall c, In c cells -> whichbox grid (cell_box c) <> None) ->
      (forall (k : nat) (box : region),
          nth_error grid k = Some box ->
          contributors cells box = [] ->
          (forall j bj, (j < k)%nat -> nth_error grid j = Some bj ->
                        contributors cells bj <> []) ->
          exists ys, subbox_to_box m cells = Gen ys (Some IndexError)
                     /\ length ys = k)
      /\ ((forall box, In box grid -> contributors cells box <> []) ->
          exists ys, subbox_to_box m cells = Gen ys None
                     /\ length ys = length grid)).
Proof.
  unfold Step5.subbox_to_box. split.
  - intros H.
    rewrite (partition_cells_keyerror cells [] _ partitioned_init H).
    reflexivity.
  - intros Hall.
    destruct (partition_cells_ok cells [] _ partitioned_init Hall)
      as [d [Hd Hp]].
    rewrite Hd. simpl in Hp. split.
    + intros k box Hk He Hbefore.
      destruct (boxes_loop_first_empty m d cells grid Hp (fun b H => H)
                  k box Hk He Hbefore) as [ys [Hys Hl]].
      rewrite Hys. exists ys. split; [reflexivity | exact Hl].
    + intros Hfull.
      destruct (boxes_loop_all m d cells grid Hp (fun b H => H) Hfull)
        as [ys [Hys Hl]].
      rewrite Hys. exists ys. split; [reflexivity | exact Hl].
Qed.

End SubboxToBox.

(** ** Loops that assign to the cells of an array *)

Section SetAt.
Context {A : Type}.

Lemma length_set_at (l : list A) (i : nat) (x : A) :
  length (set_at l i x) = length l.
Proof.
  revert i. induction l as [|y l IH]; intros [|i]; simpl; try reflexivity.
  now rewrite IH.
Qed.

Lemma nth_set_at_same (l : list A) (i : nat) (x d : A) :
  (i < length l)%nat -> nth i (set_at l i x) d = x.
Proof.
  revert i. induction l as [|y l IH]; intros [|i] H; simpl in *; try lia.
  - reflexivity.
  - apply IH. lia.
Qed.

Lemma nth_set_at_other (l : list A) (i j : nat) (x d : A) :
  i <> j -> nth j (set_at l i x) d = nth j l d.
Proof.
  revert i j. induction l as [|y l IH]; intros [|i] [|j] H; simpl;
    try reflexivity; try lia.
  apply IH. lia.
Qed.

End SetAt.

Section Set2.
Import Step5.
Context {A : Type}.

Lemma nth_set2_other (a : list (list A)) (z z' i : nat) (x : A) :
  z <> z' -> nth z' (set2 a z i x) [] = nth z' a [].
Proof. intros H. unfold set2. now apply nth_set_at_other. Qed.

Lemma nth_set2_row (a : list (list A)) (z i : nat) (x : A) :
  (z < length a)%nat -> nth z (set2 a z i x) [] = set_at (nth z a []) i x.
Proof. intros H. unfold set2. now apply nth_set_at_same. Qed.

Lemma length_set2 (a : list (list A)) (z i : nat) (x : A) :
  length (set2 a z i x) = length a.
Proof. unfold set2. apply length_set_at. Qed.

End Set2.

Section ForEach.
Context {S A : Type}.

(** [get s i] is the cell the turn [i] assigns to, [same] relates two states
    that agree on every cell the loop reads and does not assign to, and
    [v s i] is the value the turn [i] leaves in its cell. *)
Variable get : S -> nat -> A.
Variable same : S -> S -> Prop.
Variable Inv : S -> Prop.
Variable dom : nat -> Prop.
Variable body : nat -> S -> S.
Variable v : S -> nat -> A.

Hypothesis same_refl : forall s, same s s.
Hypothesis same_trans : forall s1 s2 s3, same s1 s2 -> same s2 s3 -> same s1 s3.
Hypothesis body_inv : forall i s, Inv s -> dom i -> Inv (body i s).
Hypothesis body_same : forall i s, Inv s -> dom i -> same s (body i s).
Hypothesis body_keep :
  forall i j s, Inv s -> dom i -> j <> i -> get (body i s) j = get s j.
Hypothesis body_set : forall i s, Inv s -> dom i -> get (body i s) i = v s i.
Hypothesis v_same :
  forall s s' i, same s s' -> get s i = get s' i -> v s i = v s' i.

Lemma for_each_spec (ns : list nat) :
  NoDup ns ->
  forall s, Inv s -> (forall i, In i ns -> dom i) ->
    Inv (for_each ns body s)
    /\ same s (for_each ns body s)
    /\ (forall i, In i ns -> get (for_each ns body s) i = v s i)
    /\ (forall i, ~ In i ns -> get (for_each ns body s) i = get s i).
Proof.
  induction 1 as [|i ns Hni Hnd IH]; intros s Hinv Hdom.
  - simpl. repeat split; auto. intros i [].
  - assert (Hi : dom i) by (apply Hdom; now left).
    destruct (IH (body i s)) as (I1 & I2 & I3 & I4).
    { now apply body_inv. }
    { intros j Hj. apply Hdom. now right. }
    change (for_each (i :: ns) body s) with (for_each ns body (body i s)).
    split; [exact I1|]. split.
    { apply (same_trans _ (body i s)); [now apply body_same | exact I2]. }
    split.
    + intros j [Heq|Hj].
      * subst j. rewrite I4 by exact Hni. now apply body_set.
      * rewrite I3 by exact Hj. symmetry. apply v_same.
        -- now apply body_same.
        -- symmetry. apply body_keep; try assumption.
           intros ->. contradiction.
    + intros j Hj. rewrite I4.
      * apply body_keep; try assumption. intros ->. apply Hj. now left.
      * intros Hin. apply Hj. now right.
Qed.

End ForEach.

Lemma for_each_invariant {S : Type} (P : S -> Prop) (body : nat -> S -> S)
  (ns : list nat) (s : S) :
  (forall i s, P s -> P (body i s)) -> P s -> P (for_each ns body s).
Proof.
  intros Hb. revert s. induction ns as [|i ns IH]; intros s Hs; simpl.
  - exact Hs.
  - apply IH, Hb, Hs.
Qed.

(** ** [annzon] *)

Section AnnualMeans.
Import Step5.
Local Open Scope Q_scope.

Variable zone_annual_min_months : Z.

Local Abbreviation year_mean := (year_mean zone_annual_min_months).
Local Abbreviation annual_means := (annual_means zone_annual_min_months).

Lemma mapM_ok {A B : Type} (f : A -> result B) (l : list A) :
  (forall x, In x l -> exists y, f x = Ok y) -> exists ys, mapM f l = Ok ys.
Proof.
  induction l as [|x l IH]; intros H; simpl.
  - eauto.
  - destruct (H x (or_introl eq_refl)) as [y Hy]. rewrite Hy. simpl.
    destruct IH as [ys Hys]; [intros x' Hx'; apply H; now right|].
    rewrite Hys. simpl. eauto.
Qed.

Lemma mapM_nth {A B : Type} (f : A -> result B) (l : list A) (ys : list B) :
  mapM f l = Ok ys ->
  length ys = length l
  /\ forall i x, nth_error l i = Some x ->
       exists y, nth_error ys i = Some y /\ f x = Ok y.
Proof.
  revert ys. induction l as [|x l IH]; intros ys H; simpl in H.
  - injection H as <-. split; [reflexivity|]. intros [|i] x'; discriminate.
  - destruct (f x) as [y|e] eqn:Hy; [|discriminate]. simpl in H.
    destruct (mapM f l) as [ys'|e] eqn:Hys; [|discriminate]. simpl in H.
    injection H as <-. destruct (IH ys' eq_refl) as [Hl Hn].
    split; [simpl; now rewrite Hl|].
    intros [|i] x' Hx'; simpl in *.
    + injection Hx' as <-. eauto.
    + apply Hn, Hx'.
Qed.

(** The mean the specification speaks of. *)
Definition Qsum (l : list Q) : Q := fold_right Qplus 0 l.

Definition mean (l : list Q) : Q := Qsum l / inject_Z (Z.of_nat (length l)).

Definition valid_months (yr : list Q) : list Q := filter valid yr.

Lemma year_sum_acc (yr : list Q) (mon : Z) (anniy : Q) :
  let r :=
    fold_left
      (fun '(mon, anniy) v =>
         if Qeq_bool v MISSING then (mon, anniy) else ((mon + 1)%Z, anniy + v))
      yr (mon, anniy) in
  fst r = (mon + Z.of_nat (length (valid_months yr)))%Z
  /\ snd r == anniy + Qsum (valid_months yr).
Proof.
  revert mon anniy. induction yr as [|v yr IH]; intros mon anniy; simpl.
  - split; [lia | ring].
  - unfold valid. destruct (Qeq_bool v MISSING); simpl.
    + apply IH.
    + destruct (IH (mon + 1)%Z (anniy + v)) as [H1 H2]. split.
      * rewrite H1. lia.
      * rewrite H2. ring.
Qed.

Lemma year_sum_spec (yr : list Q) :
  fst (year_sum yr) = Z.of_nat (length (valid_months yr))
  /\ snd (year_sum yr) == Qsum (valid_months yr).
Proof.
  destruct (year_sum_acc yr 0%Z 0) as [H1 H2]. split.
  - exact H1.
  - unfold year_sum. rewrite H2. ring.
Qed.

(** The annual value of a year: the mean of its valid months when there are
    enough of them, and [MISSING] otherwise. *)
Lemma year_mean_spec (yr : list Q) :
  (1 <= zone_annual_min_months)%Z ->
  exists a, year_mean yr = Ok a
    /\ if (zone_annual_min_months <=? Z.of_nat (length (valid_months yr)))%Z
       then a == mean (valid_months yr)
       else a = MISSING.
Proof.
  intros Hmin. unfold Step5.year_mean.
  destruct (year_sum_spec yr) as [H1 H2].
  destruct (year_sum yr) as [mon anniy]. simpl in H1, H2. subst mon.
  destruct (zone_annual_min_months <=? _)%Z eqn:E.
  - apply Z.leb_le in E.
    destruct (Z.of_nat (length (valid_months yr)) =? 0)%Z eqn:E0.
    + apply Z.eqb_eq in E0. lia.
    + eexists. split; [reflexivity|]. unfold mean. now rewrite H2.
  - eexists. split; reflexivity.
Qed.

End AnnualMeans.

Section Set3.
Import Step5.

Lemma nth_set3_other (d : list (list (list Q))) (z z' i m : nat) (x : Q) :
  z <> z' -> nth z' (set3 d z i m x) [] = nth z' d [].
Proof. intros H. unfold set3. now apply nth_set_at_other. Qed.

Lemma nth_set3_row (d : list (list (list Q))) (z i m : nat) (x : Q) :
  (z < length d)%nat ->
  nth z (set3 d z i m x) []
  = set_at (nth z d []) i (set_at (nth i (nth z d []) []) m x).
Proof. intros H. unfold set3, set2. now apply nth_set_at_same. Qed.

Lemma length_set3 (d : list (list (list Q))) (z i m : nat) (x : Q) :
  length (set3 d z i m x) = length d.
Proof. unfold set3. apply length_set_at. Qed.

End Set3.

Section GlobalBlend.
Import Step5.
Local Open Scope Q_scope.

(** The zones that are blended; none of them is the zone written to. *)
Variable zone : list nat.
Hypothesis zone_not_last : Forall (fun z => z <> 15%nat) zone.

(** Two arrays that agree on every zone but the last. *)
Definition same15 {A : Type} (s s' : list (list A)) : Prop :=
  forall z, z <> 15%nat -> nth z s [] = nth z s' [].

Lemma same15_refl {A : Type} (s : list (list A)) : same15 s s.
Proof. intros z _. reflexivity. Qed.

Lemma same15_trans {A : Type} (s1 s2 s3 : list (list A)) :
  same15 s1 s2 -> same15 s2 s3 -> same15 s1 s3.
Proof. intros H1 H2 z Hz. rewrite (H1 z Hz). apply H2, Hz. Qed.

Lemma same15_set2 {A : Type} (s : list (list A)) (i : nat) (x : A) :
  same15 s (set2 s 15 i x).
Proof. intros z Hz. symmetry. apply nth_set2_other. congruence. Qed.

(** The value the blend leaves: [old] when the loop breaks. *)
Definition blend_value (vals : list Q) (old : Q) : Q :=
  match blend_loop (List.combine vals wtsp) 0 with
  | None => old
  | Some glob => 0.1 * glob
  end.

Definition ann_vals (ann : list (list Q)) (iy : nat) : list Q :=
  map (fun z => get2 ann z iy) zone.

Lemma ann_vals_same (s s' : list (list Q)) (iy : nat) :
  same15 s s' -> ann_vals s iy = ann_vals s' iy.
Proof.
  intros H. unfold ann_vals. apply map_ext_in. intros z Hz.
  unfold get2. rewrite (H z); [reflexivity|].
  eapply Forall_forall in zone_not_last; eassumption.
Qed.

Lemma global_ann_turn_eq (iy : nat) (ann : list (list Q)) :
  length ann = 16%nat ->
  global_ann_turn zone iy ann
  = set2 (set2 ann 15 iy MISSING) 15 iy (blend_value (ann_vals ann iy) MISSING)
    \/ (global_ann_turn zone iy ann = set2 ann 15 iy MISSING
        /\ blend_value (ann_vals ann iy) MISSING = MISSING).
Proof.
  intros Hl. unfold global_ann_turn. rewrite Hl.
  change (16 - 1)%nat with 15%nat. cbv zeta.
  change (map (fun z => get2 (set2 ann 15 iy MISSING) z iy) zone)
    with (ann_vals (set2 ann 15 iy MISSING) iy).
  rewrite <- (ann_vals_same ann) by apply same15_set2.
  unfold blend_value.
  destruct (blend_loop _ 0); [left | right]; auto.
Qed.

Lemma global_ann_loop (iyrs : nat) (ann : list (list Q)) :
  length ann = 16%nat ->
  length (nth 15 ann []) = iyrs ->
  same15 ann (for_each (seq 0 iyrs) (global_ann_turn zone) ann)
  /\ forall iy, (iy < iyrs)%nat ->
       get2 (for_each (seq 0 iyrs) (global_ann_turn zone) ann) 15 iy
       = blend_value (ann_vals ann iy) MISSING.
Proof.
  intros Hl Hrow.
  destruct (for_each_spec
              (fun s i => get2 s 15 i) same15
              (fun s => length s = 16%nat /\ length (nth 15 s []) = iyrs)
              (fun i => (i < iyrs)%nat)
              (global_ann_turn zone)
              (fun s i => blend_value (ann_vals s i) MISSING))
    with (ns := seq 0 iyrs) (s := ann) as (_ & Hsame & Hset & _).
  - apply same15_refl.
  - apply same15_trans.
  - intros i s [H16 Hr] Hi.
    destruct (global_ann_turn_eq i s H16) as [-> | [-> _]]; split;
      rewrite ?length_set2; try exact H16;
      rewrite !nth_set2_row by (rewrite ?length_set2; lia);
      rewrite !length_set_at; exact Hr.
  - intros i s [H16 Hr] Hi.
    destruct (global_ann_turn_eq i s H16) as [-> | [-> _]].
    + eapply same15_trans; apply same15_set2.
    + apply same15_set2.
  - intros i j s [H16 Hr] Hi Hj. unfold get2.
    destruct (global_ann_turn_eq i s H16) as [-> | [-> _]];
      rewrite !nth_set2_row by (rewrite ?length_set2; lia);
      rewrite !nth_set_at_other by congruence; reflexivity.
  - intros i s [H16 Hr] Hi. unfold get2.
    destruct (global_ann_turn_eq i s H16) as [-> | [-> ->]];
      rewrite !nth_set2_row by (rewrite ?length_set2; lia);
      rewrite nth_set_at_same by (rewrite ?length_set_at; lia); reflexivity.
  - intros s s' i Hs _. now rewrite (ann_vals_same s s').
  - apply seq_NoDup.
  - split; assumption.
  - intros i Hi. apply in_seq in Hi. lia.
  - split; [exact Hsame|]. intros iy Hiy. apply Hset, in_seq. lia.
Qed.

Definition data_vals (data : list (list (list Q))) (iy m : nat) : list Q :=
  map (fun z => get3 data z iy m) zone.

Lemma data_vals_same (s s' : list (list (list Q))) (iy m : nat) :
  same15 s s' -> data_vals s iy m = data_vals s' iy m.
Proof.
  intros H. unfold data_vals. apply map_ext_in. intros z Hz.
  unfold get3. rewrite (H z); [reflexivity|].
  eapply Forall_forall in zone_not_last; eassumption.
Qed.

Lemma same15_set3 (s : list (list (list Q))) (i m : nat) (x : Q) :
  same15 s (set3 s 15 i m x).
Proof. intros z Hz. symmetry. apply nth_set3_other. congruence. Qed.

Lemma global_month_turn_eq (iy m : nat) (s : list (list (list Q))) :
  global_month_turn zone 15 iy m s
  = set3 s 15 iy m (blend_value (data_vals s iy m) (get3 s 15 iy m))
  \/ (global_month_turn zone 15 iy m s = s
      /\ blend_value (data_vals s iy m) (get3 s 15 iy m) = get3 s 15 iy m).
Proof.
  unfold global_month_turn, blend_value.
  change (map (fun z => get3 s z iy m) zone) with (data_vals s iy m).
  destruct (blend_loop _ 0); [left | right]; auto.
Qed.

(** The loop over the months of one year. *)
Lemma global_month_loop (iy : nat) (s1 : list (list (list Q))) :
  length s1 = 16%nat ->
  (iy < length (nth 15 s1 []))%nat ->
  length (nth iy (nth 15 s1 []) []) = 12%nat ->
  let s' := for_each (seq 0 12) (global_month_turn zone 15 iy) s1 in
  (length s' = 16%nat
   /\ length (nth 15 s' []) = length (nth 15 s1 [])
   /\ length (nth iy (nth 15 s' []) []) = 12%nat
   /\ forall j, j <> iy -> nth j (nth 15 s' []) [] = nth j (nth 15 s1 []) [])
  /\ same15 s1 s'
  /\ forall m, (m < 12)%nat ->
       get3 s' 15 iy m = blend_value (data_vals s1 iy m) (get3 s1 15 iy m).
Proof.
  intros Hl Hiy Hyr.
  destruct (for_each_spec
              (fun s m => get3 s 15 iy m) same15
              (fun s => length s = 16%nat
                        /\ length (nth 15 s []) = length (nth 15 s1 [])
                        /\ length (nth iy (nth 15 s []) []) = 12%nat
                        /\ forall j, j <> iy ->
                             nth j (nth 15 s []) [] = nth j (nth 15 s1 []) [])
              (fun m => (m < 12)%nat)
              (global_month_turn zone 15 iy)
              (fun s m => blend_value (data_vals s iy m) (get3 s 15 iy m)))
    with (ns := seq 0 12) (s := s1) as (Hinv & Hsame & Hset & _).
  - apply same15_refl.
  - apply same15_trans.
  - intros m s (H16 & Hr & Hy & Ho) Hm.
    destruct (global_month_turn_eq iy m s) as [-> | [-> _]]; [|now auto].
    rewrite length_set3, nth_set3_row by lia.
    rewrite length_set_at.
    rewrite nth_set_at_same by lia. rewrite length_set_at.
    repeat split; auto.
    intros j Hj. rewrite nth_set_at_other by congruence. now apply Ho.
  - intros m s (H16 & _) Hm.
    destruct (global_month_turn_eq iy m s) as [-> | [-> _]].
    + apply same15_set3.
    + apply same15_refl.
  - intros m j s (H16 & Hr & Hy & Ho) Hm Hj. unfold get3.
    destruct (global_month_turn_eq iy m s) as [-> | [-> _]]; [|reflexivity].
    rewrite nth_set3_row by lia.
    rewrite nth_set_at_same by lia.
    now rewrite nth_set_at_other by congruence.
  - intros m s (H16 & Hr & Hy & Ho) Hm.
    destruct (global_month_turn_eq iy m s) as [-> | [-> ->]]; [|reflexivity].
    unfold get3 at 1. rewrite nth_set3_row by lia.
    rewrite nth_set_at_same by lia.
    now rewrite nth_set_at_same by lia.
  - intros s s' m Hs Hg. now rewrite (data_vals_same s s'), Hg.
  - apply seq_NoDup.
  - repeat split; auto.
  - intros m Hm. apply in_seq in Hm. lia.
  - split; [exact Hinv|]. split; [exact Hsame|].
    intros m Hm. apply Hset, in_seq. lia.
Qed.

Lemma global_data_loop (iyrs : nat) (data : list (list (list Q))) :
  length data = 16%nat ->
  (iyrs <= length (nth 15 data []))%nat ->
  same15 data (for_each (seq 0 iyrs) (global_data_turn zone) data)
  /\ forall iy m, (iy < iyrs)%nat -> (m < 12)%nat ->
       get3 (for_each (seq 0 iyrs) (global_data_turn zone) data) 15 iy m
       = blend_value (data_vals data iy m) MISSING.
Proof.
  intros Hl Hrow.
  set (L := length (nth 15 data [])) in *.
  assert (Hturn : forall iy s,
             length s = 16%nat -> length (nth 15 s []) = L -> (iy < L)%nat ->
             let s' := global_data_turn zone iy s in
             (length s' = 16%nat /\ length (nth 15 s' []) = L)
             /\ same15 s s'
             /\ (forall j, j <> iy ->
                   nth j (nth 15 s' []) [] = nth j (nth 15 s []) [])
             /\ nth iy (nth 15 s' []) []
                = map (fun m => blend_value (data_vals s iy m) MISSING)
                      (seq 0 12)).
  { intros iy s H16 Hr Hiy. unfold global_data_turn. rewrite H16.
    change (16 - 1)%nat with 15%nat. cbv zeta.
    set (s1 := set2 s 15 iy (repeat MISSING 12)).
    assert (Hrow1 : nth 15 s1 [] = set_at (nth 15 s []) iy (repeat MISSING 12)).
    { unfold s1. apply nth_set2_row. lia. }
    assert (Hyr1 : nth iy (nth 15 s1 []) [] = repeat MISSING 12).
    { rewrite Hrow1. apply nth_set_at_same. lia. }
    destruct (global_month_loop iy s1) as ((I1 & I2 & I3 & I4) & Hs & Hv).
    - unfold s1. now rewrite length_set2.
    - rewrite Hrow1, length_set_at. lia.
    - rewrite Hyr1. apply repeat_length.
    - split; [|split; [|split]].
      + split; [exact I1|]. rewrite I2, Hrow1, length_set_at. exact Hr.
      + eapply same15_trans; [apply same15_set2 | exact Hs].
      + intros j Hj. rewrite (I4 j Hj), Hrow1.
        apply nth_set_at_other. congruence.
      + apply (nth_ext _ _ MISSING (blend_value (data_vals s iy 0) MISSING)).
        * rewrite I3, length_map, length_seq. reflexivity.
        * intros m Hm. rewrite I3 in Hm.
          rewrite (map_nth (fun m => blend_value (data_vals s iy m) MISSING)
                     (seq 0 12) 0%nat m).
          rewrite seq_nth by exact Hm. change (0 + m)%nat with m.
          change (nth m (nth iy (nth 15
                   (for_each (seq 0 12) (global_month_turn zone 15 iy) s1) [])
                   []) MISSING)
            with (get3 (for_each (seq 0 12) (global_month_turn zone 15 iy) s1)
                    15 iy m).
          rewrite (Hv m Hm).
          rewrite <- (data_vals_same s s1) by apply same15_set2.
          unfold get3 at 1. rewrite Hyr1.
          f_equal. apply nth_repeat. }
  destruct (for_each_spec
              (fun s iy => nth iy (nth 15 s []) []) same15
              (fun s => length s = 16%nat /\ length (nth 15 s []) = L)
              (fun iy => (iy < L)%nat)
              (global_data_turn zone)
              (fun s iy => map (fun m => blend_value (data_vals s iy m) MISSING)
                             (seq 0 12)))
    with (ns := seq 0 iyrs) (s := data) as (_ & Hsame & Hset & _).
  - apply same15_refl.
  - apply same15_trans.
  - intros i s [H16 Hr] Hi. apply (Hturn i s H16 Hr Hi).
  - intros i s [H16 Hr] Hi. apply (Hturn i s H16 Hr Hi).
  - intros i j s [H16 Hr] Hi Hj. now apply (Hturn i s H16 Hr Hi).
  - intros i s [H16 Hr] Hi. apply (Hturn i s H16 Hr Hi).
  - intros s s' i Hs _. apply map_ext. intros m.
    now rewrite (data_vals_same s s').
  - apply seq_NoDup.
  - split; [exact Hl | reflexivity].
  - intros i Hi. apply in_seq in Hi. lia.
  - split; [exact Hsame|]. intros iy m Hiy Hm. unfold get3.
    rewrite Hset by (apply in_seq; lia).
    rewrite (nth_indep _ MISSING (blend_value (data_vals data iy 0) MISSING))
      by (rewrite length_map, length_seq; exact Hm).
    rewrite (map_nth (fun m => blend_value (data_vals data iy m) MISSING)
               (seq 0 12) 0%nat m).
    now rewrite seq_nth by exact Hm.
Qed.

End GlobalBlend.

Section HemiFrame.
Import Step5.
Local Open Scope Q_scope.

(** Two arrays that agree on every zone but 11 and 12. *)
Definition same_hemi {A : Type} (s s' : list (list A)) : Prop :=
  forall z, z <> 11%nat -> z <> 12%nat -> nth z s [] = nth z s' [].

Lemma hemi_ann_loop_frame (ihem iyrs : nat) (ann : list (list Q)) (z : nat) :
  z <> (ihem + 11)%nat ->
  nth z (for_each (seq 0 iyrs) (hemi_ann_turn ihem) ann) [] = nth z ann [].
Proof.
  intros Hz.
  apply (for_each_invariant (fun s => nth z s [] = nth z ann [])); [|reflexivity].
  intros iy s Hs. unfold hemi_ann_turn.
  destruct (_ && _); rewrite !nth_set2_other by congruence; exact Hs.
Qed.

Lemma hemi_data_loop_frame (ihem iyrs : nat) (data : list (list (list Q)))
  (z : nat) :
  z <> (ihem + 11)%nat ->
  nth z (for_each (seq 0 iyrs) (hemi_data_turn ihem) data) [] = nth z data [].
Proof.
  intros Hz.
  apply (for_each_invariant (fun s => nth z s [] = nth z data []));
    [|reflexivity].
  intros iy s Hs. unfold hemi_data_turn.
  apply (for_each_invariant (fun s => nth z s [] = nth z data [])).
  - intros m s' Hs'. unfold hemi_month_turn.
    destruct (_ && _); rewrite ?nth_set3_other by congruence; exact Hs'.
  - rewrite nth_set2_other by congruence. exact Hs.
Qed.

Lemma alternate_hemi_frame (hemi : bool) (iyrs : nat)
  (data : list (list (list Q))) (ann : list (list Q)) :
  same_hemi data (fst (alternate_hemi hemi iyrs data ann))
  /\ same_hemi ann (snd (alternate_hemi hemi iyrs data ann)).
Proof.
  unfold alternate_hemi. destruct hemi; simpl.
  - split; intros z H11 H12.
    + rewrite !hemi_data_loop_frame by (simpl; congruence). reflexivity.
    + rewrite !hemi_ann_loop_frame by (simpl; congruence). reflexivity.
  - split; intros z _ _; reflexivity.
Qed.

End HemiFrame.

Section Annzon.
Import Step5.
Local Open Scope Q_scope.

Variable zone_annual_min_months : Z.

Local Abbreviation year_mean := (year_mean zone_annual_min_months).
Local Abbreviation annual_means := (annual_means zone_annual_min_months).
Local Abbreviation annzon := (annzon zone_annual_min_months).

(** The input [annzon] expects: the 16 zones of [zonav], each at least as
    long as the metadata says. *)
Definition well_formed (m : meta) (zs : list zone_t) : Prop :=
  (16 <= length zs)%nat
  /\ forall z, (z < 16)%nat ->
       (monm m <= length (fst (nth z zs ([], []))))%nat.

(** The monthly values of the zones, in blocks of 12. *)
Definition input_data (zs : list zone_t) : list (list (list Q)) :=
  map (fun z : zone_t => group12 (fst z)) (firstn 16 zs).

Lemma group12_length (l : list Q) : length (group12 l) = (length l / 12)%nat.
Proof. unfold group12. now rewrite length_map, length_seq. Qed.

Lemma input_data_length (zs : list zone_t) :
  (16 <= length zs)%nat -> length (input_data zs) = 16%nat.
Proof.
  intros H. unfold input_data. rewrite length_map, length_firstn. lia.
Qed.

Lemma input_data_row (m : meta) (zs : list zone_t) (z : nat) :
  well_formed m zs -> (z < 16)%nat ->
  (monm m / 12 <= length (nth z (input_data zs) []))%nat.
Proof.
  intros [H16 Hlen] Hz. unfold input_data.
  change (@nil (list Q)) with ((fun z : zone_t => group12 (fst z)) ([], [])).
  rewrite map_nth, group12_length.
  apply Nat.Div0.div_le_mono.
  rewrite nth_firstn. destruct (z <? 16)%nat eqn:E.
  - apply Hlen, Hz.
  - apply Nat.ltb_ge in E. lia.
Qed.

Lemma annual_means_spec (iyrs : nat) (data : list (list (list Q))) :
  (1 <= zone_annual_min_months)%Z ->
  (forall z, (z < length data)%nat -> (iyrs <= length (nth z data []))%nat) ->
  exists ann,
    annual_means iyrs data = Ok ann
    /\ length ann = length data
    /\ (forall z, (z < length data)%nat -> length (nth z ann []) = iyrs)
    /\ forall z Y, (z < length data)%nat -> (Y < iyrs)%nat ->
         year_mean (nth Y (nth z data []) []) = Ok (get2 ann z Y).
Proof.
  intros Hmin Hrows.
  assert (Hyear : forall dz iy, (iy < length dz)%nat ->
            exists a, (yr <- getitem dz iy ;; year_mean yr) = Ok a
                      /\ year_mean (nth iy dz []) = Ok a).
  { intros dz iy Hiy. unfold getitem.
    rewrite (nth_error_nth' dz [] Hiy). simpl.
    destruct (year_mean_spec zone_annual_min_months (nth iy dz []) Hmin)
      as [a [Ha _]].
    exists a. split; exact Ha. }
  destruct (mapM_ok
              (fun dz => mapM (fun iy => yr <- getitem dz iy ;; year_mean yr)
                           (seq 0 iyrs)) data) as [ann Hann].
  { intros dz Hdz. apply mapM_ok. intros iy Hiy. apply in_seq in Hiy.
    destruct (In_nth _ _ [] Hdz) as [z [Hz Hnth]].
    destruct (Hyear dz iy) as [a [Ha _]]; [|eauto].
    subst dz. specialize (Hrows z Hz). lia. }
  exists ann. split; [exact Hann|].
  destruct (mapM_nth _ _ _ Hann) as [Hl Hn].
  split; [exact Hl|].
  assert (Hrow : forall z, (z < length data)%nat ->
            mapM (fun iy => yr <- getitem (nth z data []) iy ;; year_mean yr)
              (seq 0 iyrs) = Ok (nth z ann [])).
  { intros z Hz.
    destruct (Hn z (nth z data []) (nth_error_nth' data [] Hz))
      as [row [Hrow Hm]].
    rewrite (nth_error_nth _ _ [] Hrow). exact Hm. }
  split.
  - intros z Hz. destruct (mapM_nth _ _ _ (Hrow z Hz)) as [Hlr _].
    now rewrite Hlr, length_seq.
  - intros z Y Hz HY.
    destruct (mapM_nth _ _ _ (Hrow z Hz)) as [_ Hnr].
    destruct (Hnr Y Y) as [a [Ha Hy]].
    { rewrite nth_error_seq. destruct (Y <? iyrs)%nat eqn:E; [reflexivity|].
      apply Nat.ltb_ge in E. lia. }
    unfold get2. rewrite (nth_error_nth _ _ MISSING Ha).
    destruct (Hyear (nth z data []) Y) as [a' [Ha' Hy']].
    { specialize (Hrows z Hz). lia. }
    rewrite Hy'. congruence.
Qed.

(** [annzon] on a well-formed input, stage by stage. *)
Lemma annzon_stages (m : meta) (zs : list zone_t) (alternate : alternate_t) :
  well_formed m zs ->
  (1 <= zone_annual_min_months)%Z ->
  exists ann,
    annual_means (monm m / 12) (input_data zs) = Ok ann
    /\ length ann = 16%nat
    /\ (forall z, (z < 16)%nat -> length (nth z ann []) = (monm m / 12)%nat)
    /\ (forall z Y, (z < 16)%nat -> (Y < monm m / 12)%nat ->
          year_mean (nth Y (nth z (input_data zs) []) []) = Ok (get2 ann z Y))
    /\ forall data1 ann1,
         alternate_global (alt_global alternate) (monm m / 12)
           (input_data zs) ann = Ok (data1, ann1) ->
         exists r,
           annzon m zs alternate = Ok r
           /\ az_data r
              = fst (alternate_hemi (alt_hemi alternate) (monm m / 12)
                       data1 ann1)
           /\ az_ann r
              = snd (alternate_hemi (alt_hemi alternate) (monm m / 12)
                       data1 ann1).
Proof.
  intros Hwf Hmin. pose proof Hwf as [H16 _].
  pose proof (input_data_length zs H16) as Hl.
  destruct (annual_means_spec (monm m / 12) (input_data zs) Hmin)
    as (ann & Hann & Hla & Hrows & Hvals).
  { intros z Hz. rewrite Hl in Hz. now apply (input_data_row m). }
  rewrite Hl in *.
  exists ann. repeat split; try assumption.
  intros data1 ann1 Hg.
  unfold Step5.annzon. rewrite next_n_firstn by exact H16.
  rewrite bind_Ok. cbv zeta. cbn [fst snd].
  change (map (fun z : zone_t => group12 (fst z)) (firstn 16 zs))
    with (input_data zs).
  rewrite Hann, bind_Ok, Hg, bind_Ok. cbn [fst snd].
  destruct (alternate_hemi _ _ data1 ann1) as [d a].
  eexists. split; [reflexivity|]. split; reflexivity.
Qed.

Lemma blend_value_valid (a b c d old : Q) :
  valid a && valid b && valid c && valid d = true ->
  blend_value [a; b; c; d] old == 0.1 * (3 * a + 2 * b + 2 * c + 3 * d).
Proof.
  unfold valid, blend_value. simpl.
  destruct (Qeq_bool a MISSING); [discriminate|].
  destruct (Qeq_bool b MISSING); [discriminate|].
  destruct (Qeq_bool c MISSING); [discriminate|].
  destruct (Qeq_bool d MISSING); [discriminate|].
  intros _. ring.
Qed.

Lemma blend_value_missing (a b c d old : Q) :
  valid a && valid b && valid c && valid d = false ->
  blend_value [a; b; c; d] old = old.
Proof.
  unfold valid, blend_value. simpl.
  destruct (Qeq_bool a MISSING); [reflexivity|].
  destruct (Qeq_bool b MISSING); [reflexivity|].
  destruct (Qeq_bool c MISSING); [reflexivity|].
  destruct (Qeq_bool d MISSING); [reflexivity|].
  discriminate.
Qed.

(** What the blend of the four values [za], [zb], [zc], [zd] has to be. *)
Definition blended (za zb zc zd out : Q) : Prop :=
  (valid za && valid zb && valid zc && valid zd = true ->
   out == 0.1 * (3 * za + 2 * zb + 2 * zc + 3 * zd))
  /\ (valid za && valid zb && valid zc && valid zd = false -> out = MISSING).

Lemma blended_blend_value (za zb zc zd : Q) :
  blended za zb zc zd (blend_value [za; zb; zc; zd] MISSING).
Proof.
  split; intros H.
  - now apply blend_value_valid.
  - now apply blend_value_missing.
Qed.

(** The blend of the alternate global estimator, on the values that the
    returned arrays hold where they hold them. *)
Lemma global_blend_values (m : meta) (zs : list zone_t)
  (alternate : alternate_t) (a b c d : nat) :
  well_formed m zs ->
  (1 <= zone_annual_min_months)%Z ->
  (alt_global alternate = 1%Z /\ (a, b, c, d) = (8, 9, 9, 10)%nat)
  \/ (alt_global alternate = 2%Z /\ (a, b, c, d) = (8, 3, 4, 10)%nat) ->
  exists r,
    annzon m zs alternate = Ok r
    /\ forall Y, (Y < monm m / 12)%nat ->
         blended (get2 (az_ann r) a Y) (get2 (az_ann r) b Y)
           (get2 (az_ann r) c Y) (get2 (az_ann r) d Y)
           (get2 (az_ann r) 15 Y)
         /\ forall M, (M < 12)%nat ->
              blended (get3 (az_data r) a Y M) (get3 (az_data r) b Y M)
                (get3 (az_data r) c Y M) (get3 (az_data r) d Y M)
                (get3 (az_data r) 15 Y M).
Proof.
  intros Hwf Hmin Hv.
  destruct (annzon_stages m zs alternate Hwf Hmin)
    as (ann & _ & Hla & Hrows & _ & Hrest).
  assert (Hz : Forall (fun z => z <> 15%nat) [a; b; c; d]
               /\ Forall (fun z => z <> 11%nat /\ z <> 12%nat) [a; b; c; d]).
  { destruct Hv as [[_ E] | [_ E]]; injection E as -> -> -> ->;
      split; repeat constructor; lia. }
  destruct Hz as [Hz15 Hzh].
  assert (Hg : alternate_global (alt_global alternate) (monm m / 12)
                 (input_data zs) ann
               = Ok (for_each (seq 0 (monm m / 12))
                       (global_data_turn [a; b; c; d]) (input_data zs),
                     for_each (seq 0 (monm m / 12))
                       (global_ann_turn [a; b; c; d]) ann)).
  { destruct Hv as [[-> E] | [-> E]]; injection E as -> -> -> ->;
      reflexivity. }
  destruct (Hrest _ _ Hg) as (r & Hr & Hd & Ha).
  exists r. split; [exact Hr|].
  pose proof Hwf as [H16 _].
  destruct (global_ann_loop [a; b; c; d] Hz15 (monm m / 12) ann Hla)
    as [Hsa Hva]; [apply Hrows; lia|].
  destruct (global_data_loop [a; b; c; d] Hz15 (monm m / 12) (input_data zs))
    as [Hsd Hvd].
  { now apply input_data_length. }
  { apply (input_data_row m); [exact Hwf | lia]. }
  destruct (alternate_hemi_frame (alt_hemi alternate) (monm m / 12)
              (for_each (seq 0 (monm m / 12))
                 (global_data_turn [a; b; c; d]) (input_data zs))
              (for_each (seq 0 (monm m / 12))
                 (global_ann_turn [a; b; c; d]) ann)) as [Hhd Hha].
  rewrite <- Hd in Hhd. rewrite <- Ha in Hha.
  assert (Hann : forall z Y, z <> 15%nat -> z <> 11%nat /\ z <> 12%nat ->
            get2 (az_ann r) z Y = get2 ann z Y).
  { intros z Y H15 [H11 H12]. unfold get2.
    now rewrite <- (Hha z H11 H12), <- (Hsa z H15). }
  assert (Hdat : forall z Y M, z <> 15%nat -> z <> 11%nat /\ z <> 12%nat ->
            get3 (az_data r) z Y M = get3 (input_data zs) z Y M).
  { intros z Y M H15 [H11 H12]. unfold get3.
    now rewrite <- (Hhd z H11 H12), <- (Hsd z H15). }
  inversion Hz15 as [|? ? Ha15 Hz15b]; subst.
  inversion Hz15b as [|? ? Hb15 Hz15c]; subst.
  inversion Hz15c as [|? ? Hc15 Hz15d]; subst.
  inversion Hz15d as [|? ? Hd15 _]; subst.
  inversion Hzh as [|? ? Hah Hzhb]; subst.
  inversion Hzhb as [|? ? Hbh Hzhc]; subst.
  inversion Hzhc as [|? ? Hch Hzhd]; subst.
  inversion Hzhd as [|? ? Hdh _]; subst.
  intros Y HY. split.
  - rewrite !Hann by assumption.
    replace (get2 (az_ann r) 15 Y)
      with (blend_value (ann_vals [a; b; c; d] ann Y) MISSING).
    + apply blended_blend_value.
    + rewrite <- (Hva Y HY). unfold get2.
      now rewrite <- (Hha 15%nat) by lia.
  - intros M HM. rewrite !Hdat by assumption.
    replace (get3 (az_data r) 15 Y M)
      with (blend_value (data_vals [a; b; c; d] (input_data zs) Y M) MISSING).
    + apply blended_blend_value.
    + rewrite <- (Hvd Y M HY HM). unfold get3.
      now rewrite <- (Hhd 15%nat) by lia.
Qed.

(** C7 (amended).  For every zone whose annual series no enabled alternate
    estimator replaces (every zone but 15 under the alternate global mean,
    and but 11 and 12 under the alternate hemispheric means) and every year,
    the annual value is the arithmetic mean of the year's valid monthly
    values when their count reaches [zone_annual_min_months], and [MISSING]
    when it does not. *)
Theorem annzon_annual_mean (m : meta) (zs : list zone_t)
  (alternate : alternate_t) (z Y : nat) :
  well_formed m zs ->
  (1 <= zone_annual_min_months)%Z ->
  (0 <= alt_global alternate <= 2)%Z ->
  (z < 16)%nat -> (Y < monm m / 12)%nat ->
  (alt_global alternate <> 0%Z -> z <> 15%nat) ->
  (alt_hemi alternate = true -> z <> 11%nat /\ z <> 12%nat) ->
  exists r,
    annzon m zs alternate = Ok r
    /\ let months := valid_months (nth Y (nth z (input_data zs) []) []) in
       if (zone_annual_min_months <=? Z.of_nat (length months))%Z
       then get2 (az_ann r) z Y == mean months
       else get2 (az_ann r) z Y = MISSING.
Proof.
  intros Hwf Hmin Hglb Hz HY Hz15 Hzh.
  destruct (annzon_stages m zs alternate Hwf Hmin)
    as (ann & _ & Hla & Hrows & Hvals & Hrest).
  assert (Hg : exists data1 ann1,
             alternate_global (alt_global alternate) (monm m / 12)
               (input_data zs) ann = Ok (data1, ann1)
             /\ nth z ann1 [] = nth z ann []).
  { assert (Hcases : alt_global alternate = 0%Z \/ alt_global alternate = 1%Z
                     \/ alt_global alternate = 2%Z) by lia.
    destruct Hcases as [E | [E | E]].
    - rewrite E. do 2 eexists. split; reflexivity.
    - rewrite E in *. do 2 eexists. split; [reflexivity|].
      symmetry.
      apply (global_ann_loop [8; 9; 9; 10]%nat); try assumption.
      + repeat constructor; lia.
      + apply Hrows. lia.
      + apply Hz15. discriminate.
    - rewrite E in *. do 2 eexists. split; [reflexivity|].
      symmetry.
      apply (global_ann_loop [8; 3; 4; 10]%nat); try assumption.
      + repeat constructor; lia.
      + apply Hrows. lia.
      + apply Hz15. discriminate. }
  destruct Hg as (data1 & ann1 & Hg & Hrow1).
  destruct (Hrest _ _ Hg) as (r & Hr & _ & Ha).
  exists r. split; [exact Hr|].
  assert (Hrow : nth z (az_ann r) [] = nth z ann []).
  { rewrite Ha, <- Hrow1. destruct (alt_hemi alternate) eqn:E.
    - symmetry.
      apply (alternate_hemi_frame true (monm m / 12) data1 ann1);
        now apply Hzh.
    - reflexivity. }
  unfold get2. rewrite Hrow.
  destruct (year_mean_spec zone_annual_min_months
              (nth Y (nth z (input_data zs) []) []) Hmin) as [v [Hv Hspec]].
  rewrite (Hvals z Y Hz HY) in Hv. injection Hv as Hv.
  unfold get2 in Hv. rewrite Hv. exact Hspec.
Qed.

End Annzon.

(** ** [incircle] *)

Section Geometry.
Import Step3.
Local Open Scope R_scope.

(** The great-circle distance, in radians, between the point at
    [(lat, lon)] and the point at [(s_lat, s_lon)], both in degrees: the
    spherical law of cosines. *)
Definition angular_distance (lat lon s_lat s_lon : R) : R :=
  acos (sin (s_lat * PI / 180) * sin (lat * PI / 180)
        + cos (s_lat * PI / 180) * cos (lat * PI / 180)
          * cos (s_lon * PI / 180 - lon * PI / 180)).

(** The stations of [iterable] that lie within [arc] of the point. *)
Definition within (arc lat lon : R) (r : record_t) : bool :=
  if Rlt_dec
       (angular_distance lat lon (Step3.lat (station r)) (Step3.lon (station r)))
       arc
  then true else false.

(** The weight of a station at the angular distance [theta]. *)
Definition weight_at (arc theta : R) : R := weight arc (cos theta).

Lemma unit_dot_bound (s1 c1 s2 c2 k : R) :
  s1 * s1 + c1 * c1 = 1 -> s2 * s2 + c2 * c2 = 1 -> -1 <= k <= 1 ->
  -1 <= s1 * s2 + c1 * c2 * k <= 1.
Proof.
  intros H1 H2 Hk.
  assert (Hk2 : 0 <= c2 * c2 * (1 - k * k)).
  { apply Rmult_le_pos; nra. }
  pose proof (Rle_0_sqr (s1 - s2)) as A1.
  pose proof (Rle_0_sqr (c1 - c2 * k)) as A2.
  pose proof (Rle_0_sqr (s1 + s2)) as A3.
  pose proof (Rle_0_sqr (c1 + c2 * k)) as A4.
  unfold Rsqr in *.
  assert (Eup : 2 * (1 - (s1 * s2 + c1 * c2 * k))
                = (s1 - s2) * (s1 - s2) + (c1 - c2 * k) * (c1 - c2 * k)
                  + c2 * c2 * (1 - k * k)).
  { transitivity ((s1 * s1 + c1 * c1) + (s2 * s2 + c2 * c2)
                  - 2 * (s1 * s2 + c1 * c2 * k)); [rewrite H1, H2|]; ring. }
  assert (Elo : 2 * (1 + (s1 * s2 + c1 * c2 * k))
                = (s1 + s2) * (s1 + s2) + (c1 + c2 * k) * (c1 + c2 * k)
                  + c2 * c2 * (1 - k * k)).
  { transitivity ((s1 * s1 + c1 * c1) + (s2 * s2 + c2 * c2)
                  + 2 * (s1 * s2 + c1 * c2 * k)); [rewrite H1, H2|]; ring. }
  split; lra.
Qed.

Lemma sin_cos_unit (x : R) : sin x * sin x + cos x * cos x = 1.
Proof. pose proof (sin2_cos2 x) as H. unfold Rsqr in H. exact H. Qed.

Lemma cosd_angular_distance (lat lon s_lat s_lon : R) :
  cosd lat lon s_lat s_lon = cos (angular_distance lat lon s_lat s_lon).
Proof.
  unfold angular_distance. rewrite cos_acos.
  - unfold cosd. rewrite cos_minus. reflexivity.
  - apply unit_dot_bound; try apply sin_cos_unit. apply COS_bound.
Qed.

Lemma angular_distance_bound (lat lon s_lat s_lon : R) :
  0 <= angular_distance lat lon s_lat s_lon <= PI.
Proof. apply acos_bound. Qed.

(** The test [cosd > cosarc] is the test on the distance, for an arc of at
    most half a turn. *)
Lemma cosd_test (arc lat lon s_lat s_lon : R) :
  0 < arc <= PI ->
  cos arc < cosd lat lon s_lat s_lon
  <-> angular_distance lat lon s_lat s_lon < arc.
Proof.
  intros Harc. rewrite cosd_angular_distance.
  pose proof (angular_distance_bound lat lon s_lat s_lon) as Hd.
  split; intros H.
  - apply cos_decreasing_0; lra.
  - apply cos_decreasing_1; lra.
Qed.

Lemma incircle_fst (l : list record_t) (arc lat lon : R) :
  map fst (incircle l arc lat lon)
  = filter (fun r =>
              if Rlt_dec (cos arc)
                   (cosd lat lon (Step3.lat (station r))
                      (Step3.lon (station r)))
              then true else false) l.
Proof.
  induction l as [|r l IH]; simpl.
  - reflexivity.
  - destruct (Rlt_dec _ _); simpl; now rewrite IH.
Qed.

Lemma incircle_weight (l : list record_t) (arc lat lon : R) (r : record_t)
  (w : R) :
  In (r, w) (incircle l arc lat lon) ->
  In r l
  /\ w = weight_at arc
           (angular_distance lat lon (Step3.lat (station r))
              (Step3.lon (station r))).
Proof.
  induction l as [|r' l IH]; simpl.
  - intros [].
  - destruct (Rlt_dec _ _).
    + intros [E | H].
      * injection E as -> <-. split; [now left|].
        unfold weight_at. now rewrite <- cosd_angular_distance.
      * destruct (IH H). split; [now right | assumption].
    + intros H. destruct (IH H). split; [now right | assumption].
Qed.

(** In exact arithmetic and for an arc of at most half a turn, [incircle]
    yields the records whose great-circle angular distance to the point is
    strictly less than [arc], in the order of the input. *)
Lemma incircle_within (l : list record_t) (arc lat lon : R) :
  0 < arc <= PI ->
  map fst (incircle l arc lat lon) = filter (within arc lat lon) l.
Proof.
  intros Harc. rewrite incircle_fst. apply filter_ext. intros r.
  unfold within.
  destruct (Rlt_dec (cos arc) _) as [H | H];
    destruct (Rlt_dec (angular_distance _ _ _ _) arc) as [H' | H'];
    try reflexivity; exfalso.
  - apply H'. now apply cosd_test.
  - apply H. now apply cosd_test.
Qed.

Lemma weight_at_zero (arc : R) : weight_at arc 0 = 1.
Proof.
  unfold weight_at, weight. rewrite cos_0.
  replace (2 * (1 - 1)) with 0 by ring. rewrite sqrt_0.
  unfold Rdiv. ring.
Qed.

(** The chord of an angle: [sqrt (2 (1 - cos theta)) = 2 sin (theta / 2)]. *)
Lemma chord_half_angle (theta : R) :
  0 <= theta <= 2 * PI ->
  sqrt (2 * (1 - cos theta)) = 2 * sin (theta / 2).
Proof.
  intros H.
  assert (Hs : 0 <= sin (theta / 2)) by (apply sin_ge_0; lra).
  replace theta with (2 * (theta / 2)) at 1 by field.
  rewrite cos_2a_sin.
  replace (2 * (1 - (1 - 2 * sin (theta / 2) * sin (theta / 2))))
    with ((2 * sin (theta / 2)) * (2 * sin (theta / 2))) by ring.
  apply sqrt_square. lra.
Qed.

Lemma weight_at_half_angle (arc theta : R) :
  0 <= theta <= 2 * PI ->
  weight_at arc theta = 1 - 2 * sin (theta / 2) / arc.
Proof.
  intros H. unfold weight_at, weight. now rewrite chord_half_angle.
Qed.

Lemma weight_at_decreasing (arc theta1 theta2 : R) :
  0 < arc -> 0 <= theta1 -> theta1 < theta2 -> theta2 <= PI ->
  weight_at arc theta2 < weight_at arc theta1.
Proof.
  intros Harc H1 H12 H2. unfold weight_at, weight.
  assert (Hc : cos theta2 < cos theta1) by (apply cos_decreasing_1; lra).
  pose proof (COS_bound theta1) as B1.
  pose proof (COS_bound theta2) as B2.
  assert (Hs : sqrt (2 * (1 - cos theta1)) < sqrt (2 * (1 - cos theta2))).
  { apply sqrt_lt_1; lra. }
  assert (Hd : sqrt (2 * (1 - cos theta1)) / arc
               < sqrt (2 * (1 - cos theta2)) / arc).
  { unfold Rdiv. apply Rmult_lt_compat_r; [now apply Rinv_0_lt_compat|].
    exact Hs. }
  lra.
Qed.

(** What the weight tends to at the rim of the circle; it is not 0. *)
Definition rim_weight (arc : R) : R := 1 - 2 * sin (arc / 2) / arc.

Lemma rim_weight_pos (arc : R) : 0 < arc -> 0 < rim_weight arc.
Proof.
  intros Harc. unfold rim_weight.
  assert (Hs : sin (arc / 2) < arc / 2) by (apply sin_lt_x; lra).
  assert (Hd : 2 * sin (arc / 2) / arc < 1).
  { apply (Rmult_lt_reg_r arc); [exact Harc|].
    unfold Rdiv. rewrite Rmult_assoc, Rinv_l by lra. lra. }
  lra.
Qed.

(** The chord of any angle: [sqrt (2 (1 - cos theta)) = 2 |sin (theta / 2)|]. *)
Lemma chord_abs (theta : R) :
  sqrt (2 * (1 - cos theta)) = 2 * Rabs (sin (theta / 2)).
Proof.
  replace theta with (2 * (theta / 2)) at 1 by field.
  rewrite cos_2a_sin.
  replace (2 * (1 - (1 - 2 * sin (theta / 2) * sin (theta / 2))))
    with (Rsqr (2 * sin (theta / 2))) by (unfold Rsqr; ring).
  rewrite sqrt_Rsqr_abs, Rabs_mult, (Rabs_pos_eq 2) by lra.
  reflexivity.
Qed.

Lemma abs_sin_lt (x : R) : 0 < x -> Rabs (sin x) < x.
Proof.
  intros Hx. apply Rabs_def1.
  - now apply sin_lt_x.
  - destruct (Rle_dec x 1) as [H1 | H1].
    + assert (0 < sin x).
      { apply sin_gt_0; [exact Hx|]. pose proof PI2_1. pose proof PI_RGT_0. lra. }
      lra.
    + pose proof (SIN_bound x). lra.
Qed.

Lemma weight_at_abs (arc theta : R) :
  weight_at arc theta = 1 - 2 * Rabs (sin (theta / 2)) / arc.
Proof. unfold weight_at, weight. now rewrite chord_abs. Qed.

Lemma weight_at_arc_pos (arc : R) : 0 < arc -> 0 < weight_at arc arc.
Proof.
  intros Harc. rewrite weight_at_abs.
  assert (Hs : Rabs (sin (arc / 2)) < arc / 2) by (apply abs_sin_lt; lra).
  assert (Hd : 2 * Rabs (sin (arc / 2)) / arc < 1).
  { apply (Rmult_lt_reg_r arc); [exact Harc|].
    unfold Rdiv. rewrite Rmult_assoc, Rinv_l by lra. lra. }
  lra.
Qed.

Lemma weight_at_continuous (arc : R) :
  0 < arc ->
  forall eps, 0 < eps ->
    exists delta, 0 < delta
      /\ forall theta, Rabs (theta - arc) < delta ->
           Rabs (weight_at arc theta - weight_at arc arc) < eps.
Proof.
  intros Harc eps Heps.
  pose proof (continuity_sin (arc / 2)) as Hc.
  unfold continuity_pt, continue_in, limit1_in, limit_in in Hc.
  simpl in Hc. unfold R_dist in Hc.
  destruct (Hc (eps * arc / 2)) as [alp [Halp Hsin]].
  { apply Rlt_gt. unfold Rdiv. repeat apply Rmult_lt_0_compat; lra. }
  exists alp. split; [lra|].
  intros theta Hd.
  rewrite !weight_at_abs.
  replace (1 - 2 * Rabs (sin (theta / 2)) / arc
           - (1 - 2 * Rabs (sin (arc / 2)) / arc))
    with (- ((Rabs (sin (theta / 2)) - Rabs (sin (arc / 2))) * (2 / arc)))
    by (field; lra).
  rewrite Rabs_Ropp, Rabs_mult.
  assert (Hpos : 0 < 2 / arc).
  { unfold Rdiv. apply Rmult_lt_0_compat; [lra|]. apply Rinv_0_lt_compat. lra. }
  rewrite (Rabs_pos_eq (2 / arc)) by lra.
  assert (Hs : Rabs (sin (theta / 2) - sin (arc / 2)) < eps * arc / 2).
  { destruct (Req_dec (arc / 2) (theta / 2)) as [E | E].
    - rewrite <- E. replace (sin (arc / 2) - sin (arc / 2)) with 0 by ring.
      rewrite Rabs_R0. unfold Rdiv. repeat apply Rmult_lt_0_compat; lra.
    - apply Hsin. split.
      + unfold D_x, no_cond. split; [exact I | exact E].
      + replace (theta / 2 - arc / 2) with ((theta - arc) * / 2) by field.
        rewrite Rabs_mult, (Rabs_pos_eq (/ 2)) by lra.
        lra. }
  pose proof (Rabs_triang_inv2 (sin (theta / 2)) (sin (arc / 2))) as Ht.
  apply Rle_lt_trans
    with (Rabs (sin (theta / 2) - sin (arc / 2)) * (2 / arc)).
  - apply Rmult_le_compat_r; lra.
  - apply Rlt_le_trans with (eps * arc / 2 * (2 / arc)).
    + apply Rmult_lt_compat_r; assumption.
    + right. field. lra.
Qed.

Lemma cosd_le_1 (lat lon s_lat s_lon : R) : cosd lat lon s_lat s_lon <= 1.
Proof. rewrite cosd_angular_distance. apply COS_bound. Qed.

(** With an arc of a full turn no station passes the test. *)
Lemma incircle_full_turn (l : list record_t) (lat lon : R) :
  incircle l (2 * PI) lat lon = [].
Proof.
  induction l as [|r l IH]; simpl; [reflexivity|].
  rewrite cos_2PI.
  destruct (Rlt_dec 1 _) as [H | H].
  - pose proof (cosd_le_1 lat lon (Step3.lat (station r)) (Step3.lon (station r))).
    lra.
  - exact IH.
Qed.

Lemma within_full_turn (lat lon : R) (r : record_t) :
  within (2 * PI) lat lon r = true.
Proof.
  unfold within.
  destruct (Rlt_dec _ _) as [H | H]; [reflexivity|].
  exfalso. apply H.
  pose proof (angular_distance_bound lat lon (Step3.lat (station r))
                (Step3.lon (station r))).
  pose proof PI_RGT_0. lra.
Qed.

(** C2 (amended).  With the floating-point operations read as exact real
    arithmetic, for every target point and every positive arc radius, the
    weight that [incircle] attaches to a yielded station is a function of the
    station's angular distance to the target that is exactly 1 at the
    distance 0 and strictly decreasing in the distance; as the distance
    approaches [arc] the weight approaches
    [1 - sqrt (2 (1 - cos arc)) / arc], which is strictly positive, and which
    is [1 - 2 sin (arc / 2) / arc] for an arc of at most a full turn. *)
Theorem incircle_weight_profile (l : list record_t) (arc lat lon : R) :
  0 < arc ->
  (forall r w, In (r, w) (incircle l arc lat lon) ->
     w = weight_at arc
           (angular_distance lat lon (Step3.lat (station r))
              (Step3.lon (station r))))
  /\ weight_at arc 0 = 1
  /\ (forall theta1 theta2,
        0 <= theta1 -> theta1 < theta2 -> theta2 <= PI ->
        weight_at arc theta2 < weight_at arc theta1)
  /\ (forall eps, 0 < eps ->
        exists delta, 0 < delta
          /\ forall theta, Rabs (theta - arc) < delta ->
               Rabs (weight_at arc theta - weight_at arc arc) < eps)
  /\ weight_at arc arc = 1 - sqrt (2 * (1 - cos arc)) / arc
  /\ 0 < weight_at arc arc
  /\ (arc <= 2 * PI -> weight_at arc arc = 1 - 2 * sin (arc / 2) / arc).
Proof.
  intros Harc. repeat split.
  - intros r w H. now apply (incircle_weight l arc lat lon r w).
  - apply weight_at_zero.
  - intros theta1 theta2 H1 H12 H2. apply weight_at_decreasing; lra.
  - now apply weight_at_continuous.
  - now apply weight_at_arc_pos.
  - intros H. apply weight_at_half_angle. lra.
Qed.

End Geometry.

(** ** [iter_subbox_grid] *)

Section SubboxGrid.
Import Step3.
Local Open Scope R_scope.

Variable combine :
  list R -> list R -> list R -> R -> Z -> list R * list R * list Z.
Variable anomalize : list R -> Z * Z -> Z -> list R.
Variable gridding_min_overlap : Z.
Variable gridding_reference_period : Z * Z.
Variable earth_radius : R.
Variable gridsub : list (region * list region).
Variable eqarea_centre : region -> R * R.

Local Abbreviation add_station := (add_station combine gridding_min_overlap).
Local Abbreviation subbox_average :=
  (subbox_average combine anomalize gridding_min_overlap
     gridding_reference_period).
Local Abbreviation iter_subbox_grid :=
  (iter_subbox_grid combine anomalize gridding_min_overlap
     gridding_reference_period earth_radius gridsub eqarea_centre).

(** The cells of the grid, in the order they are visited. *)
Definition grid_cells : list region := flat_map snd gridsub.

(** The stations [incircle] returns for a cell. *)
Definition cell_contributors (station_records : list record_t) (radius : R)
  (subbox : region) : list (record_t * R) :=
  let centre := pole_snap (eqarea_centre subbox) in
  incircle (sorted_reverse good_count station_records)
    (radius / earth_radius) (fst centre) (snd centre).

Lemma iter_subbox_grid_map (station_records : list record_t)
  (max_months : nat) (first_year : Z) (radius : R) :
  iter_subbox_grid station_records max_months first_year radius
  = map (fun subbox =>
           subbox_average max_months first_year radius subbox
             (cell_contributors station_records radius subbox))
        grid_cells.
Proof.
  unfold Step3.iter_subbox_grid, grid_cells, cell_contributors.
  induction gridsub as [|[box subboxes] g IH]; simpl.
  - reflexivity.
  - rewrite map_app, IH. reflexivity.
Qed.

(** C9.  A cell for which [incircle] selects no station comes out as a
    [Series] of [max_months] [MISSING] values, with no station, no station
    month and the quality score [MISSING]; the generator yields one cell per
    subbox and raises nothing. *)
Theorem iter_subbox_grid_empty_cell (station_records : list record_t)
  (max_months : nat) (first_year : Z) (radius : R) (i : nat)
  (subbox : region) :
  nth_error grid_cells i = Some subbox ->
  cell_contributors station_records radius subbox = [] ->
  length (iter_subbox_grid station_records max_months first_year radius)
  = length grid_cells
  /\ nth_error (iter_subbox_grid station_records max_months first_year radius)
       i
     = Some (MkSeries (repeat MISSING max_months) None subbox 0 0 MISSING)
  /\ length (repeat MISSING max_months) = max_months.
Proof.
  intros Hi He. rewrite iter_subbox_grid_map. split; [apply length_map|].
  split; [|apply repeat_length].
  rewrite nth_error_map, Hi. simpl. rewrite He. reflexivity.
Qed.

(** The months a station adds when it is merged into [st]. *)
Definition months_added (max_months : nat) (st : acc_t) (c : record_t * R)
  : Z :=
  let new :=
    slice_assign (repeat MISSING max_months) (rel_first_month (fst c) - 1)
      (rel_last_month (fst c)) (series (fst c)) in
  sumZ (snd (combine (subbox_series st) (acc_weight st) new (snd c)
               gridding_min_overlap)).

(** The weights of the stations of [rest] that add a month when their turn
    comes. *)
Fixpoint counted_weights (max_months : nat) (st : acc_t)
  (rest : list (record_t * R)) : list R :=
  match rest with
  | [] => []
  | c :: rest' =>
      (if (months_added max_months st c =? 0)%Z then [] else [snd c])
      ++ counted_weights max_months (add_station max_months st c) rest'
  end.

(** The first values of the variables of the loop. *)
Definition first_station (max_months : nat) (record : record_t) (wt : R)
  : acc_t :=
  let offset := (rel_first_month record - 1)%Z in
  let seeded :=
    slice_assign (repeat MISSING max_months) offset
      (offset + Z.of_nat (length (series record))) (series record) in
  Acc seeded (map (fun v => wt * (if valid v then 1 else 0)) seeded)
    (good_count record) 1 wt.

Lemma add_station_max_weight (max_months : nat) (st : acc_t)
  (c : record_t * R) :
  max_weight (add_station max_months st c)
  = if (months_added max_months st c =? 0)%Z
    then max_weight st
    else Rmax (max_weight st) (snd c).
Proof.
  unfold Step3.add_station, months_added. destruct c as [record wt].
  simpl fst. simpl snd.
  destruct (combine _ _ _ _ _) as [[s' w'] station_months]. simpl snd.
  destruct (sumZ station_months =? 0)%Z; simpl.
  - reflexivity.
  - unfold Rmax. destruct (Rlt_dec (max_weight st) wt) as [H | H];
      destruct (Rle_dec (max_weight st) wt) as [H' | H'];
      try reflexivity; lra.
Qed.

Lemma fold_add_station_max_weight (max_months : nat)
  (rest : list (record_t * R)) (st : acc_t) :
  max_weight (fold_left (add_station max_months) rest st)
  = fold_left Rmax (counted_weights max_months st rest) (max_weight st).
Proof.
  revert st. induction rest as [|c rest IH]; intros st; simpl.
  - reflexivity.
  - rewrite IH, add_station_max_weight, fold_left_app.
    destruct (months_added max_months st c =? 0)%Z; reflexivity.
Qed.

Lemma subbox_average_quality (max_months : nat) (first_year : Z)
  (radius : R) (subbox : region) (record : record_t) (wt : R)
  (rest : list (record_t * R)) :
  s_d (subbox_average max_months first_year radius subbox
         ((record, wt) :: rest))
  = radius
    * (1 - fold_left Rmax
             (counted_weights max_months
                (first_station max_months record wt) rest) wt).
Proof.
  unfold Step3.subbox_average. simpl s_d.
  change (Acc _ _ (good_count record) 1 wt)
    with (first_station max_months record wt).
  rewrite fold_add_station_max_weight. reflexivity.
Qed.

(** The quality score of a cell, from its contributors: [MISSING] without
    any, and otherwise [radius * (1 - max_weight)] with the largest weight
    among the first contributor and the counted later ones. *)
Definition quality (max_months : nat) (radius : R)
  (contributors : list (record_t * R)) : R :=
  match contributors with
  | [] => MISSING
  | (record, wt) :: rest =>
      radius
      * (1 - fold_left Rmax
               (counted_weights max_months
                  (first_station max_months record wt) rest) wt)
  end.

(** C3 (amended).  The quality score [d] of every cell that
    [iter_subbox_grid] yields for a non-empty contributor list is
    [radius * (1 - max_weight)], where [max_weight] is the largest weight
    among the first contributor and the later contributors whose merge added
    at least one valid month. *)
Theorem iter_subbox_grid_quality (station_records : list record_t)
  (max_months : nat) (first_year : Z) (radius : R) :
  map s_d (iter_subbox_grid station_records max_months first_year radius)
  = map (fun subbox =>
           quality max_months radius
             (cell_contributors station_records radius subbox))
        grid_cells.
Proof.
  rewrite iter_subbox_grid_map, map_map. apply map_ext. intros subbox.
  destruct (cell_contributors station_records radius subbox)
    as [|[record wt] rest].
  - reflexivity.
  - apply subbox_average_quality.
Qed.

End SubboxGrid.

(** * Instances *)

(** ** Step 3 *)

Section Step3Instances.
Import Step3.
Local Open Scope R_scope.

(** A station at [(lat, lon)] with [n] valid months, January first. *)
Definition station_at (lat lon : R) (n : nat) : record_t :=
  Record_ (Station lat lon) (repeat 1 n) (Z.of_nat n) 1 (Z.of_nat n)
    EmptyString.

(** A combiner on the branch it takes when the overlap is too short: the
    incoming series is ignored, and no calendar month gains a value. *)
Definition combine_reject (composite wt new : list R) (new_wt : R)
  (min_overlap : Z) : list R * list R * list Z :=
  (composite, wt, repeat 0%Z 12).

Definition anomalize_keep (data : list R) (period : Z * Z) (base_year : Z)
  : list R := data.

Lemma one_le_PI : 0 < 1 <= PI.
Proof. pose proof PI2_1. lra. Qed.

Lemma cosd_origin : cosd 0 0 0 0 = 1.
Proof.
  unfold cosd. replace (0 * PI / 180) with 0 by field.
  rewrite sin_0, cos_0. ring.
Qed.

Lemma cosd_sixty : cosd 0 0 0 60 = 1 / 2.
Proof.
  unfold cosd. replace (0 * PI / 180) with 0 by field.
  replace (60 * PI / 180) with (PI / 3) by field.
  rewrite sin_0, cos_0, cos_PI3. ring.
Qed.

(** C8 (the code departs from it).  The docstring of [incircle] has a
    station returned when the great-circle arc between it and the point of
    interest is less than [arc] radians.  With [arc = 2 * PI] a station at
    the point itself is at the distance 0, which is less than [arc], and
    [incircle] does not yield it: [cosd] is 1 and so is [cos arc], and the
    test [cosd > cosarc] fails.  At that arc every station is within [arc] of
    every point, and none is yielded. *)
Theorem incircle_misses_station_within :
  angular_distance 0 0 0 0 = 0
  /\ within (2 * PI) 0 0 (station_at 0 0 12) = true
  /\ incircle [station_at 0 0 12] (2 * PI) 0 0 = []
  /\ forall l lat lon,
       filter (within (2 * PI) lat lon) l = l
       /\ incircle l (2 * PI) lat lon = [].
Proof.
  split; [|split; [|split]].
  - unfold angular_distance.
    replace (0 * PI / 180) with 0 by field.
    replace (0 - 0) with 0 by ring.
    rewrite sin_0, cos_0.
    replace (0 * 0 + 1 * 1 * 1) with 1 by ring. apply acos_1.
  - apply within_full_turn.
  - apply incircle_full_turn.
  - intros l lat lon. split; [|apply incircle_full_turn].
    induction l as [|r l IH]; simpl; [reflexivity|].
    now rewrite within_full_turn, IH.
Qed.

(** C2, an instance: one station at the target, an arc of one radian. *)
Lemma incircle_weight_profile_witness :
  0 < 1
  /\ weight_at 1 0 = 1
  /\ 0 < weight_at 1 1.
Proof.
  split; [exact Rlt_0_1|].
  destruct (incircle_weight_profile [station_at 0 0 12] 1 0 0 Rlt_0_1)
    as (_ & H0 & _ & _ & _ & Hrim & _).
  split; assumption.
Defined.

(** C2 as stated fails at the rim.  With [arc = 1] the weight of a station
    closer than [arc] stays above [1 - 2 sin (1 / 2)], which is positive: it
    does not approach 0. *)
Lemma incircle_weight_rim_counterexample :
  ~ (forall eps, 0 < eps ->
       exists delta, 0 < delta
         /\ forall theta, 0 <= theta < 1 -> 1 - theta < delta ->
              Rabs (weight_at 1 theta) < eps).
Proof.
  intros H.
  pose proof one_le_PI as HPI.
  pose proof (rim_weight_pos 1 ltac:(lra)) as Hrim.
  destruct (H (rim_weight 1) Hrim) as [delta [Hdelta Hclose]].
  set (theta := Rmax 0 (1 - delta / 2)).
  assert (Ht : 0 <= theta < 1 /\ 1 - theta < delta).
  { unfold theta, Rmax. destruct (Rle_dec 0 (1 - delta / 2)); lra. }
  destruct Ht as [Ht Hd].
  specialize (Hclose theta Ht Hd).
  assert (Hlt : weight_at 1 1 < weight_at 1 theta).
  { apply weight_at_decreasing; lra. }
  rewrite (weight_at_half_angle 1 1) in Hlt by lra.
  fold (rim_weight 1) in Hlt.
  rewrite Rabs_pos_eq in Hclose; lra.
Qed.

End Step3Instances.

Section GridInstances.
Import Step3.
Local Open Scope R_scope.

Lemma Int_part_0 : Int_part 0 = 0%Z.
Proof.
  unfold Int_part. rewrite <- (up_tech 0 0); simpl; try lra. reflexivity.
Qed.

Lemma py_round_0 : py_round 0 = 0%Z.
Proof.
  unfold py_round. rewrite Int_part_0.
  destruct (Rlt_dec (0 - IZR 0) (1 / 2)) as [H | H]; [reflexivity|].
  exfalso. apply H. simpl. lra.
Qed.

Lemma pole_snap_origin : pole_snap (0, 0) = (0, 0).
Proof.
  unfold pole_snap. simpl fst. rewrite py_round_0.
  change (84 <=? 0)%Z with false. cbv iota. simpl fst.
  rewrite py_round_0. reflexivity.
Qed.

(** A grid of one region with one cell, centred at the origin. *)
Definition sample_cell : region := (-1, 1, -1, 1).

Definition sample_grid : list (region * list region) :=
  [(sample_cell, [sample_cell])].

Definition sample_centre (subbox : region) : R * R := (0, 0).

(** C9, an instance: no station at all. *)
Lemma iter_subbox_grid_empty_cell_witness :
  nth_error (grid_cells sample_grid) 0 = Some sample_cell
  /\ cell_contributors 6371 sample_centre [] 1200 sample_cell = []
  /\ nth_error
       (iter_subbox_grid combine_reject anomalize_keep 20 (1951, 1980)%Z 6371
          sample_grid sample_centre [] 24 1880 1200) 0
     = Some (MkSeries (repeat MISSING 24) None sample_cell 0 0 MISSING).
Proof.
  assert (H1 : nth_error (grid_cells sample_grid) 0 = Some sample_cell)
    by reflexivity.
  assert (H2 : cell_contributors 6371 sample_centre [] 1200 sample_cell = [])
    by reflexivity.
  split; [exact H1|]. split; [exact H2|].
  apply (iter_subbox_grid_empty_cell combine_reject anomalize_keep 20
           (1951, 1980)%Z 6371 sample_grid sample_centre [] 24 1880 1200 0
           sample_cell H1 H2).
Defined.

(** The largest weight among all the contributors of a cell. *)
Definition largest_weight (contributors : list (record_t * R)) : R :=
  match contributors with
  | [] => 0
  | (_, wt) :: rest => fold_left Rmax (map snd rest) wt
  end.

(** Two stations on the equator: one 60 degrees east of the cell centre with
    12 valid months, one at the centre with 6; the arc is a quarter turn. *)
Definition far_station : record_t := station_at 0 60 12.
Definition near_station : record_t := station_at 0 0 6.

Lemma sample_contributors :
  cell_contributors 1 sample_centre [near_station; far_station] (PI / 2)
    sample_cell
  = [(far_station, weight (PI / 2 / 1) (1 / 2));
     (near_station, weight (PI / 2 / 1) 1)].
Proof.
  unfold cell_contributors. unfold sample_centre at 1 2.
  rewrite pole_snap_origin. simpl fst. simpl snd.
  change (sorted_reverse good_count [near_station; far_station])
    with [far_station; near_station].
  assert (Hc : cos (PI / 2 / 1) = 0).
  { replace (PI / 2 / 1) with (PI / 2) by field. apply cos_PI2. }
  simpl. rewrite cosd_sixty, cosd_origin, Hc.
  destruct (Rlt_dec 0 (1 / 2)) as [H | H]; [|exfalso; lra].
  destruct (Rlt_dec 0 1) as [H' | H']; [|exfalso; lra].
  reflexivity.
Qed.

(** C3 as stated fails when a contributor is not counted.  The station at
    the cell centre has the weight 1, the far one less; the far one has the
    longer record and seeds the cell, and the merge of the near one adds no
    month.  The score is [radius * (1 - w)] with the weight [w] of the far
    station, not [radius * (1 - 1)]. *)
Lemma iter_subbox_grid_quality_counterexample :
  cell_contributors 1 sample_centre [near_station; far_station] (PI / 2)
    sample_cell <> []
  /\ map s_d
       (iter_subbox_grid combine_reject anomalize_keep 20 (1951, 1980)%Z 1
          sample_grid sample_centre [near_station; far_station] 24 1880
          (PI / 2))
     <> [PI / 2
         * (1 - largest_weight
                  (cell_contributors 1 sample_centre
                     [near_station; far_station] (PI / 2) sample_cell))].
Proof.
  rewrite iter_subbox_grid_map, sample_contributors.
  split; [discriminate|].
  unfold grid_cells, sample_grid. cbn [flat_map snd app map].
  rewrite sample_contributors, subbox_average_quality.
  unfold largest_weight. cbn [map snd fold_left].
  change (counted_weights combine_reject 20 24 _ _) with (@nil R).
  cbn [fold_left].
  pose proof PI_RGT_0 as HPI.
  assert (HA : weight (PI / 2 / 1) (1 / 2) = 1 - 2 / PI).
  { unfold weight. replace (2 * (1 - 1 / 2)) with 1 by field.
    rewrite sqrt_1. field. lra. }
  assert (HB : weight (PI / 2 / 1) 1 = 1).
  { unfold weight. replace (2 * (1 - 1)) with 0 by ring.
    rewrite sqrt_0. field. lra. }
  assert (Hpos : 0 < 2 / PI).
  { unfold Rdiv. apply Rmult_lt_0_compat; [lra|].
    now apply Rinv_0_lt_compat. }
  rewrite HA, HB, Rmax_right by lra.
  intros E. injection E as E.
  assert (H1 : PI / 2 * (1 - (1 - 2 / PI)) = 1) by (field; lra).
  lra.
Qed.

End GridInstances.

(** ** Step 5 *)

Section Step5Instances.
Import Step5.
Local Open Scope Q_scope.

(** A combiner on the branch it takes when the overlap is too short. *)
Definition combine_decline (composite wt new : list Q) (new_wt : weight_arg)
  (min_overlap : Z) : list Q * list Q * list Z :=
  (composite, wt, repeat 0%Z 12).

Definition anomalize_same (data : list Q) (period : Z * Z) (base_year : Z)
  : list Q := data.

(** One year of data. *)
Definition one_year : meta := Meta 1880 12.

(** A box with a full year of the value 1. *)
Definition full_box : box_t :=
  (repeat 1 12, repeat 1 12, 12%Z, (0, 1, 0, 1)).

(** C5, an instance: a stream of exactly 80 boxes. *)
Lemma zonav_partition_check_witness :
  (80 <= length (repeat full_box 80))%nat
  /\ exists bands_out zones_out,
       length bands_out = 8%nat /\ length zones_out = 8%nat
       /\ zonav combine_decline anomalize_same 20 (1951, 1980)%Z one_year
            (repeat full_box 80)
          = (Gen (bands_out ++ zones_out) None, []).
Proof.
  assert (H : (80 <= length (repeat full_box 80))%nat)
    by (rewrite repeat_length; apply le_n).
  split; [exact H|].
  destruct (zonav_partition_check combine_decline anomalize_same 20
              (1951, 1980)%Z one_year (repeat full_box 80) H)
    as (bands_out & _ & _ & Hl & Hz).
  rewrite repeat_length in Hz. simpl Nat.eqb in Hz.
  destruct Hz as (zones_out & Hlz & Hz).
  exists bands_out, zones_out. repeat split; assumption.
Defined.

(** A zone with a full year of the value [v]. *)
Definition flat_zone (v : Q) : zone_t := (repeat v 12, repeat 1 12).

Definition sample_zones : list zone_t := repeat (flat_zone 1) 16.

Lemma sample_zones_well_formed : well_formed one_year sample_zones.
Proof.
  split; [apply le_n|].
  intros z Hz. do 16 (destruct z as [|z]; [apply le_n|]). lia.
Qed.

(** C7, an instance: zone 0, which no alternate estimator replaces. *)
Lemma annzon_annual_mean_witness :
  well_formed one_year sample_zones
  /\ (1 <= 6)%Z
  /\ exists r,
       annzon 6 one_year sample_zones default_alternate = Ok r
       /\ get2 (az_ann r) 0 0
          == mean (valid_months (nth 0 (nth 0 (input_data sample_zones) []) [])).
Proof.
  assert (Hmin : (1 <= 6)%Z) by lia.
  split; [exact sample_zones_well_formed|]. split; [exact Hmin|].
  destruct (annzon_annual_mean 6 one_year sample_zones default_alternate 0 0
              sample_zones_well_formed Hmin)
    as (r & Hr & Hm).
  - simpl. lia.
  - lia.
  - simpl. lia.
  - intros _. discriminate.
  - intros _. split; discriminate.
  - exists r. split; [exact Hr | exact Hm].
Defined.

(** Zone 8 has no data, the other zones a full year of the value 1. *)
Definition gap_zones : list zone_t :=
  repeat (flat_zone 1) 8 ++ [flat_zone MISSING] ++ repeat (flat_zone 1) 7.

(** C7 as stated fails for a zone that an alternate estimator replaces.
    With the default [alternate], the global zone 15 has 12 valid months of
    the value 1 in the year, and its annual value is [MISSING], because zone
    8 has none. *)
Lemma annzon_annual_mean_counterexample :
  exists r,
    annzon 6 one_year gap_zones default_alternate = Ok r
    /\ (6 <=? Z.of_nat
                (length (valid_months
                           (nth 0 (nth 15 (input_data gap_zones) []) []))))%Z
       = true
    /\ get2 (az_ann r) 15 0 = MISSING
    /\ ~ get2 (az_ann r) 15 0
         == mean (valid_months (nth 0 (nth 15 (input_data gap_zones) []) [])).
Proof.
  eexists. split; [vm_compute; reflexivity|].
  split; [reflexivity|]. split; [reflexivity|].
  intros H. vm_compute in H. discriminate H.
Qed.

(** Two boxes side by side, and the centre of a region. *)
Definition west_box : region := (0, 1, 0, 1).
Definition east_box : region := (0, 1, 1, 2).
Definition two_boxes : list region := [west_box; east_box].

Definition mid (r : region) : Q * Q :=
  let '(s, n, w, e) := r in ((s + n) / 2, (w + e) / 2).

Definition cell_in (r : region) : cell := Cell (repeat 1 12) r 12 1880 "".

(** C10, an instance: the only cell lies in the west box, so the east box
    has none; and a cell that lies in neither. *)
Lemma subbox_to_box_needs_partition_witness :
  (exists ys,
      subbox_to_box combine_decline anomalize_same 20 240 (1961, 1990)%Z mid
        two_boxes one_year [cell_in west_box]
      = Gen ys (Some IndexError)
      /\ length ys = 1%nat)
  /\ subbox_to_box combine_decline anomalize_same 20 240 (1961, 1990)%Z mid
       two_boxes one_year [cell_in (5, 6, 0, 1)]
     = Gen [] (Some KeyError).
Proof.
  split.
  - destruct (subbox_to_box_needs_partition combine_decline anomalize_same 20
                240 (1961, 1990)%Z mid two_boxes one_year [cell_in west_box])
      as [_ H].
    destruct H as [H _].
    + intros c [<- | []]. discriminate.
    + apply (H 1%nat east_box).
      * reflexivity.
      * reflexivity.
      * intros j bj Hj Hn. destruct j as [|j]; [|lia].
        injection Hn as <-. discriminate.
  - destruct (subbox_to_box_needs_partition combine_decline anomalize_same 20
                240 (1961, 1990)%Z mid two_boxes one_year
                [cell_in (5, 6, 0, 1)])
      as [H _].
    apply H. exists (cell_in (5, 6, 0, 1)). split; [now left | reflexivity].
Defined.

End Step5Instances.

(** * Further properties *)

(** ** [incircle] *)

Section IncircleMore.
Import Step3.
Local Open Scope R_scope.

Lemma incircle_in (l : list record_t) (arc lat lon : R) (r : record_t)
  (w : R) :
  In (r, w) (incircle l arc lat lon) ->
  In r l
  /\ cos arc < cosd lat lon (Step3.lat (station r)) (Step3.lon (station r))
  /\ w = weight arc
           (cosd lat lon (Step3.lat (station r)) (Step3.lon (station r))).
Proof.
  induction l as [|r' l IH]; simpl.
  - intros [].
  - destruct (Rlt_dec _ _) as [Hlt | Hge].
    + intros [E | H].
      * injection E as -> <-. repeat split; [now left | exact Hlt].
      * destruct (IH H) as (H1 & H2 & H3). repeat split; auto.
    + intros H. destruct (IH H) as (H1 & H2 & H3). repeat split; auto.
Qed.

Lemma weight_bounds (arc lat lon s_lat s_lon : R) :
  0 < arc <= PI ->
  cos arc < cosd lat lon s_lat s_lon ->
  0 < weight arc (cosd lat lon s_lat s_lon) <= 1.
Proof.
  intros Harc Hlt.
  pose proof (angular_distance_bound lat lon s_lat s_lon) as Hb.
  assert (Hd : angular_distance lat lon s_lat s_lon < arc)
    by (now apply cosd_test).
  rewrite cosd_angular_distance.
  change (weight arc (cos (angular_distance lat lon s_lat s_lon)))
    with (weight_at arc (angular_distance lat lon s_lat s_lon)).
  split.
  - apply Rlt_trans with (weight_at arc arc).
    + rewrite (weight_at_half_angle arc arc) by lra.
      apply rim_weight_pos. lra.
    + apply weight_at_decreasing; lra.
  - destruct (Req_dec (angular_distance lat lon s_lat s_lon) 0) as [E | E].
    + rewrite E, weight_at_zero. lra.
    + rewrite <- (weight_at_zero arc). left.
      apply weight_at_decreasing; lra.
Qed.

(** X1.  For an arc of at most half a turn, every weight that [incircle]
    yields lies in the interval from 0 (excluded) to 1 (included). *)
Theorem incircle_weight_range (l : list record_t) (arc lat lon : R)
  (r : record_t) (w : R) :
  0 < arc <= PI ->
  In (r, w) (incircle l arc lat lon) ->
  0 < w <= 1.
Proof.
  intros Harc Hin.
  destruct (incircle_in l arc lat lon r w Hin) as (_ & Hlt & ->).
  apply weight_bounds; assumption.
Qed.

(** X2.  [incircle] filters record by record: on a concatenated input it
    yields what it yields for the first part, then what it yields for the
    second. *)
Theorem incircle_app (l1 l2 : list record_t) (arc lat lon : R) :
  incircle (l1 ++ l2) arc lat lon
  = incircle l1 arc lat lon ++ incircle l2 arc lat lon.
Proof.
  induction l1 as [|r l1 IH]; simpl.
  - reflexivity.
  - destruct (Rlt_dec _ _); simpl; now rewrite IH.
Qed.

(** X3.  Widening the arc, up to half a turn, loses no station and lowers no
    weight: a record yielded for [arc1] is yielded for every [arc2] from
    [arc1] to [PI], with a weight at least as large. *)
Theorem incircle_arc_monotone (l : list record_t) (arc1 arc2 lat lon : R)
  (r : record_t) (w1 : R) :
  0 < arc1 -> arc1 <= arc2 -> arc2 <= PI ->
  In (r, w1) (incircle l arc1 lat lon) ->
  exists w2, In (r, w2) (incircle l arc2 lat lon) /\ w1 <= w2.
Proof.
  intros H1 H12 H2 Hin.
  destruct (incircle_in l arc1 lat lon r w1 Hin) as (Hl & Hlt & ->).
  set (c := cosd lat lon (Step3.lat (station r)) (Step3.lon (station r))) in *.
  assert (Hc : cos arc2 < c).
  { destruct (Req_dec arc1 arc2) as [<- | Hne]; [exact Hlt|].
    apply Rlt_trans with (cos arc1); [|exact Hlt].
    apply cos_decreasing_1; lra. }
  exists (weight arc2 c). split.
  - clear Hin Hlt. induction l as [|r' l IH]; [destruct Hl|]. simpl.
    destruct Hl as [-> | Hl].
    + fold c. destruct (Rlt_dec (cos arc2) c) as [_ | Hn]; [now left | lra].
    + destruct (Rlt_dec _ _); [right|]; now apply IH.
  - unfold weight.
    assert (Hs : 0 <= sqrt (2 * (1 - c))) by apply sqrt_pos.
    assert (Hi : / arc2 <= / arc1) by (apply Rinv_le_contravar; lra).
    unfold Rdiv.
    assert (Hm : sqrt (2 * (1 - c)) * / arc2 <= sqrt (2 * (1 - c)) * / arc1)
      by (apply Rmult_le_compat_l; assumption).
    lra.
Qed.

End IncircleMore.

(** ** [iter_subbox_grid]: the pole and the cells *)

Section PoleSnap.
Import Step3.
Local Open Scope R_scope.

Lemma Int_part_bounds (x : R) : IZR (Int_part x) <= x < IZR (Int_part x) + 1.
Proof. destruct (base_Int_part x) as [H1 H2]. lra. Qed.

Lemma py_round_ge_84 (x : R) : (84 <= py_round x)%Z <-> 83.5 <= x.
Proof.
  unfold py_round. pose proof (Int_part_bounds x) as Hn.
  set (n := Int_part x) in *.
  destruct (Rlt_dec (x - IZR n) (1 / 2)) as [Hlo | Hlo].
  - split; intros H.
    + apply IZR_le in H. lra.
    + assert (Hz : (83 < n)%Z) by (apply lt_IZR; lra). lia.
  - destruct (Rlt_dec (1 / 2) (x - IZR n)) as [Hhi | Hhi].
    + split; intros H.
      * assert (Hz : IZR 83 <= IZR n) by (apply IZR_le; lia). lra.
      * assert (Hz : (82 < n)%Z) by (apply lt_IZR; lra). lia.
    + assert (Hx : x = IZR n + 1 / 2) by lra.
      destruct (Z.even n) eqn:E; split; intros H.
      * apply IZR_le in H. lra.
      * assert (Hz : (82 < n)%Z) by (apply lt_IZR; lra).
        assert (n <> 83%Z) by (intros ->; discriminate). lia.
      * assert (Hz : IZR 83 <= IZR n) by (apply IZR_le; lia). lra.
      * assert (Hz : (82 < n)%Z) by (apply lt_IZR; lra). lia.
Qed.

Lemma py_round_le_m84 (x : R) : (py_round x <= -84)%Z <-> x <= -83.5.
Proof.
  unfold py_round. pose proof (Int_part_bounds x) as Hn.
  set (n := Int_part x) in *.
  destruct (Rlt_dec (x - IZR n) (1 / 2)) as [Hlo | Hlo].
  - split; intros H.
    + apply IZR_le in H. lra.
    + assert (Hz : (n < -83)%Z) by (apply lt_IZR; lra). lia.
  - destruct (Rlt_dec (1 / 2) (x - IZR n)) as [Hhi | Hhi].
    + split; intros H.
      * assert (Hz : IZR n <= IZR (-85)) by (apply IZR_le; lia). lra.
      * assert (Hz : (n < -84)%Z) by (apply lt_IZR; lra). lia.
    + assert (Hx : x = IZR n + 1 / 2) by lra.
      destruct (Z.even n) eqn:E; split; intros H.
      * apply IZR_le in H. lra.
      * assert (Hz : (n < -83)%Z) by (apply lt_IZR; lra). lia.
      * assert (Hz : IZR n <= IZR (-85)) by (apply IZR_le; lia). lra.
      * assert (Hz : (n < -83)%Z) by (apply lt_IZR; lra).
        assert (n <> (-84)%Z) by (intros ->; discriminate). lia.
Qed.

(** X4.  A cell centre is moved to the north pole when its latitude is at
    least 83.5 degrees, to the south pole when it is at most -83.5 degrees,
    and is left alone in between. *)
Theorem pole_snap_thresholds (lat lon : R) :
  (83.5 <= lat -> pole_snap (lat, lon) = (90, 0))
  /\ (lat <= -83.5 -> pole_snap (lat, lon) = (-90, 0))
  /\ (-83.5 < lat < 83.5 -> pole_snap (lat, lon) = (lat, lon)).
Proof.
  unfold pole_snap. simpl fst.
  assert (H90 : (py_round 90 <=? -84)%Z = false).
  { apply Z.leb_gt. destruct (Z_lt_le_dec (-84) (py_round 90)) as [H | H];
      [exact H|]. apply py_round_le_m84 in H. lra. }
  repeat split; intros H.
  - assert (E : (84 <=? py_round lat)%Z = true)
      by (apply Z.leb_le, py_round_ge_84, H).
    rewrite E. simpl fst. rewrite H90. reflexivity.
  - assert (E : (84 <=? py_round lat)%Z = false).
    { apply Z.leb_gt. destruct (Z_lt_le_dec (py_round lat) 84) as [H' | H'];
        [exact H'|]. apply py_round_ge_84 in H'. lra. }
    rewrite E. simpl fst.
    assert (E' : (py_round lat <=? -84)%Z = true)
      by (apply Z.leb_le, py_round_le_m84, H).
    rewrite E'. reflexivity.
  - assert (E : (84 <=? py_round lat)%Z = false).
    { apply Z.leb_gt. destruct (Z_lt_le_dec (py_round lat) 84) as [H' | H'];
        [exact H'|]. apply py_round_ge_84 in H'. lra. }
    rewrite E. simpl fst.
    assert (E' : (py_round lat <=? -84)%Z = false).
    { apply Z.leb_gt. destruct (Z_lt_le_dec (-84) (py_round lat)) as [H' | H'];
        [exact H'|]. apply py_round_le_m84 in H'. lra. }
    rewrite E'. reflexivity.
Qed.

End PoleSnap.

Section SubboxGridMore.
Import Step3.
Local Open Scope R_scope.

Variable combine :
  list R -> list R -> list R -> R -> Z -> list R * list R * list Z.
Variable anomalize : list R -> Z * Z -> Z -> list R.
Variable gridding_min_overlap : Z.
Variable gridding_reference_period : Z * Z.
Variable earth_radius : R.
Variable gridsub : list (region * list region).
Variable eqarea_centre : region -> R * R.

Local Abbreviation add_station := (add_station combine gridding_min_overlap).
Local Abbreviation subbox_average :=
  (subbox_average combine anomalize gridding_min_overlap
     gridding_reference_period).
Local Abbreviation iter_subbox_grid :=
  (iter_subbox_grid combine anomalize gridding_min_overlap
     gridding_reference_period earth_radius gridsub eqarea_centre).
Local Abbreviation counted_weights :=
  (counted_weights combine gridding_min_overlap).
Local Abbreviation cell_contributors_def := cell_contributors.
Local Abbreviation cell_contributors :=
  (cell_contributors earth_radius eqarea_centre).

(** X5.  [iter_subbox_grid] yields one cell per subbox, in the order of the
    grid, and each cell carries the bounds of its subbox. *)
Theorem iter_subbox_grid_boxes (station_records : list record_t)
  (max_months : nat) (first_year : Z) (radius : R) :
  map s_box (iter_subbox_grid station_records max_months first_year radius)
  = grid_cells gridsub.
Proof.
  rewrite iter_subbox_grid_map, map_map.
  rewrite <- (map_id (grid_cells gridsub)) at 2.
  apply map_ext. intros subbox. unfold Step3.subbox_average.
  destruct (cell_contributors_def _ _ _ _ _) as [|[record wt] rest];
    reflexivity.
Qed.

Lemma counted_weights_length (max_months : nat)
  (rest : list (record_t * R)) (st : acc_t) :
  (length (counted_weights max_months st rest) <= length rest)%nat.
Proof.
  revert st. induction rest as [|c rest IH]; intros st; simpl.
  - apply le_n.
  - rewrite length_app. specialize (IH (add_station max_months st c)).
    destruct (_ =? 0)%Z; simpl; lia.
Qed.

Lemma counted_weights_in (max_months : nat) (rest : list (record_t * R))
  (st : acc_t) (w : R) :
  In w (counted_weights max_months st rest) -> In w (map snd rest).
Proof.
  revert st. induction rest as [|c rest IH]; intros st; simpl.
  - intros [].
  - intros H. apply in_app_or in H. destruct H as [H | H].
    + destruct (_ =? 0)%Z; [destruct H|].
      destruct H as [<- | []]. now left.
    + right. eapply IH, H.
Qed.

Lemma fold_add_station_stations (max_months : nat)
  (rest : list (record_t * R)) (st : acc_t) :
  total_stations (fold_left (add_station max_months) rest st)
  = (total_stations st
     + Z.of_nat (length (counted_weights max_months st rest)))%Z.
Proof.
  revert st. induction rest as [|c rest IH]; intros st; simpl.
  - lia.
  - rewrite IH, length_app.
    assert (E : total_stations (add_station max_months st c)
                = if (months_added combine gridding_min_overlap max_months
                        st c =? 0)%Z
                  then total_stations st else (total_stations st + 1)%Z).
    { unfold Step3.add_station, months_added. destruct c as [record wt].
      simpl fst. simpl snd.
      destruct (combine _ _ _ _ _) as [[s' w'] station_months]. simpl snd.
      destruct (sumZ station_months =? 0)%Z; reflexivity. }
    rewrite E. destruct (_ =? 0)%Z; simpl; lia.
Qed.

(** X6.  The station count of a cell is 0 when [incircle] selects no
    station, and otherwise at least 1 and at most the number of stations
    selected. *)
Theorem iter_subbox_grid_stations (station_records : list record_t)
  (max_months : nat) (first_year : Z) (radius : R) :
  Forall2
    (fun s subbox =>
       let n :=
         Z.of_nat (length (cell_contributors station_records radius subbox))
       in
       (n = 0%Z -> s_stations s = 0%Z)
       /\ ((0 < n)%Z -> (1 <= s_stations s <= n)%Z))
    (iter_subbox_grid station_records max_months first_year radius)
    (grid_cells gridsub).
Proof.
  rewrite iter_subbox_grid_map.
  induction (grid_cells gridsub) as [|subbox cells IH]; simpl.
  - constructor.
  - constructor; [|exact IH].
    unfold Step3.subbox_average.
    destruct (cell_contributors_def _ _ _ _ _) as [|[record wt] rest].
    + simpl. split; [reflexivity | lia].
    + cbn [s_stations length].
      change (Acc _ _ (good_count record) 1 wt)
        with (first_station max_months record wt).
      rewrite fold_add_station_stations.
      pose proof (counted_weights_length max_months rest
                    (first_station max_months record wt)) as Hl.
      cbn [first_station total_stations].
      split; [lia|]. intros _. lia.
Qed.

Lemma fold_Rmax_range (l : list R) (w lo hi : R) :
  lo < w <= hi -> Forall (fun x => lo < x <= hi) l ->
  lo < fold_left Rmax l w <= hi.
Proof.
  revert w. induction l as [|x l IH]; intros w Hw Hl; simpl.
  - exact Hw.
  - inversion Hl as [|? ? Hx Hl']; subst. apply IH; [|exact Hl'].
    unfold Rmax. destruct (Rle_dec w x); assumption.
Qed.

(** X7.  With a positive radius that spans at most half a turn, the quality
    score of every cell with a contributor is at least 0 and less than the
    radius. *)
Theorem iter_subbox_grid_quality_range (station_records : list record_t)
  (max_months : nat) (first_year : Z) (radius : R) :
  0 < radius -> 0 < radius / earth_radius <= PI ->
  Forall2
    (fun s subbox =>
       cell_contributors station_records radius subbox <> [] ->
       0 <= s_d s < radius)
    (iter_subbox_grid station_records max_months first_year radius)
    (grid_cells gridsub).
Proof.
  intros Hr Harc. rewrite iter_subbox_grid_map.
  induction (grid_cells gridsub) as [|subbox cells IH]; simpl.
  - constructor.
  - constructor; [|exact IH].
    intros Hne.
    assert (Hw : forall r w,
               In (r, w) (cell_contributors station_records radius subbox) ->
               0 < w <= 1).
    { intros r w Hin. unfold cell_contributors_def in Hin.
      destruct (incircle_in _ _ _ _ _ _ Hin) as (_ & Hlt & ->).
      apply weight_bounds; assumption. }
    destruct (cell_contributors_def _ _ _ _ _) as [|[record wt] rest];
      [congruence|].
    rewrite subbox_average_quality.
    assert (Hm : 0 < fold_left Rmax
                       (counted_weights max_months
                          (first_station max_months record wt) rest) wt
                 <= 1).
    { apply fold_Rmax_range.
      - apply (Hw record). now left.
      - apply Forall_forall. intros x Hx.
        apply counted_weights_in, in_map_iff in Hx.
        destruct Hx as [[r w] [<- Hin]]. apply (Hw r). now right. }
    split; nra.
Qed.

End SubboxGridMore.

(** ** [whichbox] and [subbox_to_box] *)

Section WhichboxMore.
Import Step5.
Local Open Scope Q_scope.

Variable combine :
  list Q -> list Q -> list Q -> weight_arg -> Z -> list Q * list Q * list Z.
Variable anomalize : list Q -> Z * Z -> Z -> list Q.
Variable box_min_overlap : Z.
Variable subbox_min_valid : Z.
Variable subbox_reference_period : Z * Z.
Variable centre : region -> Q * Q.
Variable grid : list region.

Local Abbreviation whichbox := (whichbox centre).
Local Abbreviation partition_cells := (partition_cells centre).
Local Abbreviation contributors_def := contributors.
Local Abbreviation contributors := (contributors centre grid).
Local Abbreviation box_average :=
  (box_average combine anomalize box_min_overlap subbox_min_valid
     subbox_reference_period).
Local Abbreviation boxes_loop :=
  (boxes_loop combine anomalize box_min_overlap subbox_min_valid
     subbox_reference_period).
Local Abbreviation subbox_to_box :=
  (subbox_to_box combine anomalize box_min_overlap subbox_min_valid
     subbox_reference_period centre grid).

(** The test of [whichbox]: the point lies in [[s, n) x [w, e)]. *)
Definition contains (box : region) (p : Q * Q) : bool :=
  let '(s, n, w, e) := box in
  (Qle_bool s (fst p) && Qlt_bool (fst p) n)
  && (Qle_bool w (snd p) && Qlt_bool (snd p) e).

Lemma find_first {A : Type} (f : A -> bool) (l : list A) :
  match find f l with
  | Some x =>
      exists before after,
        l = before ++ x :: after /\ f x = true
        /\ Forall (fun y => f y = false) before
  | None => Forall (fun y => f y = false) l
  end.
Proof.
  induction l as [|y l IH]; simpl.
  - constructor.
  - destruct (f y) eqn:E.
    + exists [], l. repeat split; [exact E | constructor].
    + destruct (find f l) as [x|].
      * destruct IH as (before & after & -> & Hx & Hb).
        exists (y :: before), after. repeat split; [exact Hx|].
        now constructor.
      * now constructor.
Qed.

Lemma whichbox_find (boxes : list region) (c : region) :
  whichbox boxes c = find (fun box => contains box (centre c)) boxes.
Proof.
  unfold Step5.whichbox, contains. destruct (centre c) as [lat lon].
  induction boxes as [|[[[s n] w] e] boxes IH]; simpl.
  - reflexivity.
  - rewrite IH. reflexivity.
Qed.

(** X8.  [whichbox] returns the first box of the list that contains the
    centre of the cell, and [None] exactly when no box contains it. *)
Theorem whichbox_first_match (boxes : list region) (c : region) :
  match whichbox boxes c with
  | Some box =>
      exists before after,
        boxes = before ++ box :: after
        /\ contains box (centre c) = true
        /\ Forall (fun b => contains b (centre c) = false) before
  | None => Forall (fun b => contains b (centre c) = false) boxes
  end.
Proof. rewrite whichbox_find. apply find_first. Qed.

(** X9.  After the cells have been partitioned, the dict holds under every
    box of the grid the cells that [whichbox] places in it, in the order of
    the input. *)
Theorem partition_cells_lookup (cells : list cell) :
  (forall c, In c cells -> whichbox grid (cell_box c) <> None) ->
  exists d,
    partition_cells grid cells
      (fold_left (fun d box => dict_set d box []) grid [])
    = Ok d
    /\ forall box, In box grid -> dict_get d box = Ok (contributors cells box).
Proof.
  intros H.
  destruct (partition_cells_ok centre grid cells [] _
              (partitioned_init centre grid) H) as [d [Hd Hp]].
  exists d. split; [exact Hd | exact Hp].
Qed.

(** No two boxes of the list have the same bounds. *)
Definition distinct_boxes (boxes : list region) : Prop :=
  ForallOrdPairs (fun a b => region_eqb a b = false) boxes.

Lemma no_box_matches (boxes : list region) (b : region) :
  Forall (fun x => region_eqb b x = false) boxes ->
  filter (region_eqb b) boxes = [].
Proof.
  induction 1 as [|x boxes Hx _ IH]; simpl.
  - reflexivity.
  - rewrite Hx. exact IH.
Qed.

Lemma one_box_matches (boxes : list region) (b : region) :
  distinct_boxes boxes -> In b boxes ->
  length (filter (region_eqb b) boxes) = 1%nat.
Proof.
  induction 1 as [|a boxes Ha Hd IH]; intros Hin; [destruct Hin|].
  simpl. destruct Hin as [-> | Hin].
  - rewrite region_eqb_refl, (no_box_matches boxes b Ha). reflexivity.
  - assert (E : region_eqb b a = false).
    { rewrite region_eqb_sym. eapply Forall_forall in Ha; eassumption. }
    rewrite E. now apply IH.
Qed.

(** X10.  When the boxes of the grid are distinct and every cell lies in a
    box, the contributor lists partition the cells: their sizes add up to
    the number of cells. *)
Theorem contributors_partition (cells : list cell) :
  distinct_boxes grid ->
  (forall c, In c cells -> whichbox grid (cell_box c) <> None) ->
  list_sum (map (fun box => length (contributors cells box)) grid)
  = length cells.
Proof.
  intros Hd. induction cells as [|c cells IH]; intros Hall.
  - unfold contributors_def. simpl. clear Hd Hall.
    induction grid as [|b g IHg]; [reflexivity | simpl; apply IHg].
  - assert (Hsplit : forall boxes,
               list_sum (map (fun box => length (contributors (c :: cells) box))
                           boxes)
               = (length (filter (fun box => in_box centre grid box c) boxes)
                  + list_sum (map (fun box => length (contributors cells box))
                                boxes))%nat).
    { assert (Hcons : forall a l, list_sum (a :: l) = (a + list_sum l)%nat)
        by reflexivity.
      induction boxes as [|b boxes IHb]; [reflexivity|].
      rewrite !map_cons, !Hcons, IHb. cbn [filter].
      assert (E : length (contributors (c :: cells) b)
                  = ((if in_box centre grid b c then 1 else 0)
                     + length (contributors cells b))%nat).
      { unfold contributors_def. cbn [filter].
        destruct (in_box centre grid b c); reflexivity. }
      rewrite E. destruct (in_box centre grid b c); cbn [length]; lia. }
    rewrite Hsplit, IH by (intros c' Hc'; apply Hall; now right).
    destruct (whichbox grid (cell_box c)) as [b|] eqn:Hb.
    + rewrite (filter_ext (fun box => in_box centre grid box c)
                 (region_eqb b)).
      * rewrite one_box_matches; [reflexivity | exact Hd |].
        eapply whichbox_in_grid; exact Hb.
      * intros box. unfold in_box. now rewrite Hb.
    + exfalso. apply (Hall c); [now left | exact Hb].
Qed.

End WhichboxMore.

Section SubboxToBoxMore.
Import Step5.
Local Open Scope Q_scope.

Variable combine :
  list Q -> list Q -> list Q -> weight_arg -> Z -> list Q * list Q * list Z.
Variable anomalize : list Q -> Z * Z -> Z -> list Q.
Variable box_min_overlap : Z.
Variable subbox_min_valid : Z.
Variable subbox_reference_period : Z * Z.
Variable centre : region -> Q * Q.
Variable grid : list region.

Local Abbreviation box_average :=
  (box_average combine anomalize box_min_overlap subbox_min_valid
     subbox_reference_period).
Local Abbreviation boxes_loop :=
  (boxes_loop combine anomalize box_min_overlap subbox_min_valid
     subbox_reference_period).
Local Abbreviation subbox_to_box :=
  (subbox_to_box combine anomalize box_min_overlap subbox_min_valid
     subbox_reference_period centre grid).

(** What a yielded quadruple has to satisfy for the box [box]. *)
Definition box_result (box : region) (y : box_t) : Prop :=
  snd y = box /\ snd (fst y) = count_valid (fst (fst (fst y))).

Lemma box_average_result (m : meta) (d : dict) (box : region) (y : box_t) :
  box_average m d box = Ok y -> box_result box y.
Proof.
  unfold Step5.box_average. destruct (dict_get d box) as [l|e]; [|discriminate].
  rewrite bind_Ok.
  destruct (sorted_reverse cell_good_count l) as [|best others];
    [discriminate|].
  destruct (fold_left _ others _) as [s w].
  intros H. injection H as <-. split; reflexivity.
Qed.

Lemma boxes_loop_results (m : meta) (d : dict) (boxes : list region) :
  Forall2 box_result (firstn (length (fst (boxes_loop m d boxes))) boxes)
    (fst (boxes_loop m d boxes)).
Proof.
  induction boxes as [|box boxes IH]; simpl.
  - constructor.
  - destruct (box_average m d box) as [y|e] eqn:E; simpl.
    + destruct (boxes_loop m d boxes) as [ys e']. simpl in *.
      constructor; [|exact IH].
      eapply box_average_result; exact E.
    + constructor.
Qed.

(** X11.  [subbox_to_box] yields its results in the order of the grid: the
    item number [i] is for the box number [i], carries the bounds of that
    box, and its count is the number of valid months of its series.  This
    holds for what was yielded before an exception as well. *)
Theorem subbox_to_box_order (m : meta) (cells : list cell) :
  Forall2 box_result
    (firstn (length (yielded (subbox_to_box m cells))) grid)
    (yielded (subbox_to_box m cells)).
Proof.
  unfold Step5.subbox_to_box.
  destruct (partition_cells centre grid cells _) as [d|e]; simpl.
  - pose proof (boxes_loop_results m d grid) as H.
    destruct (boxes_loop m d grid) as [ys e]. exact H.
  - constructor.
Qed.

Lemma slice_assign_inside {A : Type} (s a : list A) (start : nat) :
  (start + length a <= length s)%nat ->
  slice_assign s (Z.of_nat start) (Z.of_nat start + Z.of_nat (length a)) a
  = firstn start s ++ a ++ skipn (start + length a) s.
Proof.
  intros H. unfold slice_assign, slice_bound.
  destruct (Z.of_nat start <? 0)%Z eqn:E1; [apply Z.ltb_lt in E1; lia|].
  rewrite E1.
  destruct (Z.of_nat start + Z.of_nat (length a) <? 0)%Z eqn:E2;
    [apply Z.ltb_lt in E2; lia|].
  rewrite E2.
  replace (Z.of_nat start + Z.of_nat (length a))%Z
    with (Z.of_nat (start + length a)) by lia.
  rewrite !Nat2Z.id.
  rewrite (Nat.min_l start) by lia.
  rewrite (Nat.min_l (start + length a)) by lia.
  rewrite Nat.max_r by lia. reflexivity.
Qed.

Lemma nth_all_same {A : Type} (x : A) (l : list A) (i : nat) :
  (forall y, In y l -> y = x) -> nth i l x = x.
Proof.
  revert i. induction l as [|y l IH]; intros [|i] H; simpl; try reflexivity.
  - apply H. now left.
  - apply IH. intros z Hz. apply H. now right.
Qed.

Lemma firstn_in {A : Type} (n : nat) (l : list A) (y : A) :
  In y (firstn n l) -> In y l.
Proof.
  intros H. rewrite <- (firstn_skipn n l). apply in_or_app. now left.
Qed.

Lemma skipn_in {A : Type} (n : nat) (l : list A) (y : A) :
  In y (skipn n l) -> In y l.
Proof.
  intros H. rewrite <- (firstn_skipn n l). apply in_or_app. now right.
Qed.

(** X12.  A cell that starts at or after the timeline and ends within it is
    padded to the length of the timeline: its values stand at their months,
    and every other month is [MISSING]. *)
Theorem padded_series_window (m : meta) (s : cell) (i : nat) :
  let offset := Z.to_nat (12 * (cell_first_year s - yrbeg m)) in
  (yrbeg m <= cell_first_year s)%Z ->
  (offset + length (cell_series s) <= monm m)%nat ->
  length (padded_series m s) = monm m
  /\ nth i (padded_series m s) MISSING
     = if ((offset <=? i) && (i <? offset + length (cell_series s)))%nat
       then nth (i - offset) (cell_series s) MISSING
       else MISSING.
Proof.
  intros offset Hy Hlen. unfold padded_series.
  replace (12 * (cell_first_year s - yrbeg m))%Z with (Z.of_nat offset)
    by (unfold offset; lia).
  rewrite slice_assign_inside by (rewrite repeat_length; exact Hlen).
  split.
  - rewrite !length_app, length_firstn, length_skipn, repeat_length. lia.
  - destruct (offset <=? i)%nat eqn:E1; simpl.
    + apply Nat.leb_le in E1.
      rewrite app_nth2 by (rewrite length_firstn, repeat_length; lia).
      rewrite length_firstn, repeat_length, Nat.min_l by lia.
      destruct (i <? offset + length (cell_series s))%nat eqn:E2.
      * apply Nat.ltb_lt in E2. rewrite app_nth1 by lia. reflexivity.
      * apply Nat.ltb_ge in E2. rewrite app_nth2 by lia.
        apply nth_all_same. intros y Hin.
        apply skipn_in in Hin. now apply repeat_spec in Hin.
    + apply Nat.leb_gt in E1.
      rewrite app_nth1 by (rewrite length_firstn, repeat_length; lia).
      apply nth_all_same. intros y Hin.
      apply firstn_in in Hin. now apply repeat_spec in Hin.
Qed.

(** X13.  A cell that starts before the timeline is not clipped.  The
    negative slice bound counts from the end of the timeline, so the first
    value of the cell lands as many months before the end as the cell
    starts before the beginning. *)
Theorem padded_series_early_cell (m : meta) (s : cell) :
  let early := Z.to_nat (12 * (yrbeg m - cell_first_year s)) in
  (cell_first_year s < yrbeg m)%Z ->
  (early <= monm m)%nat ->
  cell_series s <> [] ->
  nth (monm m - early) (padded_series m s) MISSING
  = nth 0 (cell_series s) MISSING.
Proof.
  intros early Hy Hlen Hne. unfold padded_series, slice_assign.
  rewrite repeat_length.
  assert (Hlo : slice_bound (monm m) (12 * (cell_first_year s - yrbeg m))
                = (monm m - early)%nat).
  { unfold slice_bound.
    destruct (12 * (cell_first_year s - yrbeg m) <? 0)%Z eqn:E1;
      [|apply Z.ltb_ge in E1; lia].
    destruct (12 * (cell_first_year s - yrbeg m) + Z.of_nat (monm m) <? 0)%Z
      eqn:E2; [apply Z.ltb_lt in E2; unfold early in Hlen; lia|].
    unfold early. lia. }
  rewrite Hlo.
  rewrite app_nth2 by (rewrite length_firstn, repeat_length; lia).
  rewrite length_firstn, repeat_length, Nat.min_l, Nat.sub_diag by lia.
  destruct (cell_series s) as [|v l]; [congruence | reflexivity].
Qed.

End SubboxToBoxMore.

(** ** [sort_perm] and [zonav] *)

Section SortPermMore.
Import Step5.

Lemma map_fst_combine {A B : Type} (l : list A) (l' : list B) :
  length l = length l' -> map fst (List.combine l l') = l.
Proof.
  revert l'. induction l as [|x l IH]; intros [|y l'] H; simpl in *;
    try discriminate; try reflexivity.
  f_equal. apply IH. lia.
Qed.

Lemma StronglySorted_nth {A : Type} (R : A -> A -> Prop) (l : list A)
  (d : A) :
  StronglySorted R l ->
  forall x y, (x < y)%nat -> (y < length l)%nat -> R (nth x l d) (nth y l d).
Proof.
  induction 1 as [|a l Hs IH Ha]; intros x y Hxy Hy; simpl in Hy; [lia|].
  destruct y as [|y]; [lia|]. destruct x as [|x]; simpl.
  - eapply Forall_forall in Ha; [exact Ha|]. apply nth_In. lia.
  - apply IH; lia.
Qed.

(** X14.  Whatever the input, the two tuples that [sort_perm] returns have
    the length of [a]; [sorted] is a rearrangement of [a] and [indexes] one
    of the positions of [a], with [sorted[x] == a[indexes[x]]]; and the
    order is the one of the key: [indexes[x] - sorted[x]] never decreases
    along the result. *)
Theorem sort_perm_result (a s : list Z) (ix : list nat) :
  sort_perm a = Ok (s, ix) ->
  length s = length a /\ length ix = length a
  /\ Permutation s a
  /\ Permutation ix (seq 0 (length a))
  /\ s = map (fun i => nth i a 0%Z) ix
  /\ forall x y, (x < y)%nat -> (y < length a)%nat ->
       (Z.of_nat (nth x ix 0%nat) - nth x s 0
        <= Z.of_nat (nth y ix 0%nat) - nth y s 0)%Z.
Proof.
  intros H. destruct (sort_perm_spec a s ix H) as [Hp Hs].
  assert (Hlix : length ix = length a).
  { rewrite (Permutation_length Hp). apply length_seq. }
  assert (Hls : length s = length a) by (rewrite Hs, length_map; exact Hlix).
  split; [exact Hls|]. split; [exact Hlix|].
  unfold sort_perm in H.
  set (key := fun x : Z * nat => (Z.of_nat (snd x) - fst x)%Z) in H.
  set (z := List.combine a (seq 0 (length a))) in H.
  pose proof (sorted_perm key z) as Hpz.
  pose proof (sorted_sorted key z) as Hsz.
  destruct (sorted key z) as [|p z'] eqn:E; [discriminate|].
  rewrite split_maps in H. injection H as Hs' Hix'.
  split.
  - rewrite <- Hs'. apply (Permutation_map fst) in Hpz.
    replace (map fst z) with a in Hpz; [exact Hpz|].
    symmetry. apply map_fst_combine. now rewrite length_seq.
  - split; [exact Hp|]. split; [exact Hs|].
    intros x y Hxy Hy.
    assert (Hl : length (p :: z') = length a).
    { rewrite (Permutation_length Hpz). unfold z.
      now rewrite length_combine, length_seq, Nat.min_id. }
    pose proof (StronglySorted_nth _ _ (0%Z, 0%nat) Hsz x y Hxy
                  ltac:(rewrite Hl; exact Hy)) as Hk.
    unfold key_le, key in Hk.
    assert (Hs2 : s = map fst (p :: z')) by (symmetry; exact Hs').
    assert (Hix2 : ix = map snd (p :: z')) by (symmetry; exact Hix').
    rewrite Hs2, Hix2.
    rewrite !(map_nth fst (p :: z') (0%Z, 0%nat) : forall n, nth n (map fst (p :: z')) 0%Z = _).
    rewrite !(map_nth snd (p :: z') (0%Z, 0%nat) : forall n, nth n (map snd (p :: z')) 0%nat = _).
    exact Hk.
Qed.

Lemma sorted_of_sorted {A : Type} (key : A -> Z) (l : list A) :
  StronglySorted (key_le key) l -> sorted key l = l.
Proof.
  induction 1 as [|x l Hs IH Hx]; simpl.
  - reflexivity.
  - rewrite IH. destruct l as [|y l]; [reflexivity|]. simpl.
    inversion Hx as [|? ? Hy _]; subst. unfold key_le in Hy.
    apply Z.leb_le in Hy. now rewrite Hy.
Qed.

Lemma zip_descending_sorted (a : list Z) (k : nat) :
  descending a ->
  StronglySorted (key_le (fun x : Z * nat => (Z.of_nat (snd x) - fst x)%Z))
    (List.combine a (seq k (length a))).
Proof.
  intros H. revert k. induction H as [|v a Hs IH Hv]; intros k; simpl.
  - constructor.
  - constructor; [apply IH|].
    apply Forall_forall. intros [w i] Hin. unfold key_le. simpl.
    pose proof (in_combine_l _ _ _ _ Hin) as Hw.
    pose proof (in_combine_r _ _ _ _ Hin) as Hi.
    apply in_seq in Hi.
    eapply Forall_forall in Hv; [|exact Hw]. lia.
Qed.

(** X15.  On a list that is already in descending order, [sort_perm]
    returns the list as it is, with the positions in their order. *)
Theorem sort_perm_descending_input (a : list Z) :
  descending a -> a <> [] ->
  sort_perm a = Ok (a, seq 0 (length a)).
Proof.
  intros Hd Hne. unfold sort_perm.
  rewrite sorted_of_sorted by (apply zip_descending_sorted; exact Hd).
  destruct a as [|v a]; [congruence|].
  change (List.combine (v :: a) (seq 0 (length (v :: a))))
    with ((v, 0%nat) :: List.combine a (seq 1 (length a))).
  cbv iota.
  change ((v, 0%nat) :: List.combine a (seq 1 (length a)))
    with (List.combine (v :: a) (seq 0 (length (v :: a)))).
  rewrite combine_split by (now rewrite length_seq). reflexivity.
Qed.

End SortPermMore.

Section ZonavMore.
Import Step5.

Variable combine :
  list Q -> list Q -> list Q -> weight_arg -> Z -> list Q * list Q * list Z.
Variable anomalize : list Q -> Z * Z -> Z -> list Q.
Variable box_min_overlap : Z.
Variable box_reference_period : Z * Z.

Local Abbreviation band_average :=
  (band_average combine anomalize box_min_overlap box_reference_period).
Local Abbreviation zonav_bands :=
  (zonav_bands combine anomalize box_min_overlap box_reference_period).
Local Abbreviation zonav :=
  (zonav combine anomalize box_min_overlap box_reference_period).

(** The number of leading bands that [n] boxes fill. *)
Fixpoint full_bands (sizes : list nat) (n : nat) : nat :=
  match sizes with
  | [] => 0
  | k :: sizes' =>
      if (k <=? n)%nat then S (full_bands sizes' (n - k)) else 0
  end.

Lemma next_n_short {A : Type} (k : nat) (l : list A) :
  (length l < k)%nat -> next_n k l = Raise StopIteration.
Proof.
  revert l. induction k as [|k IH]; intros l H; [lia|].
  destruct l as [|x l]; simpl in *; [reflexivity|].
  rewrite IH by lia. reflexivity.
Qed.

Lemma zonav_bands_short (m : meta) (sizes : list nat) :
  Forall (fun k => (0 < k)%nat) sizes ->
  forall boxed_data : list box_t,
    (length boxed_data < list_sum sizes)%nat ->
    let n := full_bands sizes (length boxed_data) in
    exists zs,
      zonav_bands m sizes boxed_data = (zs, Raise StopIteration)
      /\ length zs = n
      /\ (n < length sizes)%nat
      /\ (list_sum (firstn n sizes) <= length boxed_data
          < list_sum (firstn (S n) sizes))%nat
      /\ Forall2 (fun k (g : list box_t) => length g = k)
           (firstn n sizes) (firstn n (groups sizes boxed_data))
      /\ map Ok zs
         = map (band_average m) (firstn n (groups sizes boxed_data)).
Proof.
  induction 1 as [|k sizes Hk _ IH]; intros boxed_data Hlen.
  - simpl in Hlen. lia.
  - cbn [full_bands zonav_bands Step5.zonav_bands groups length].
    change (list_sum (k :: sizes)) with (k + list_sum sizes)%nat in Hlen.
    destruct (Nat.leb_spec k (length boxed_data)) as [Hs | Hs].
    + rewrite next_n_firstn by exact Hs. cbv beta iota.
      match goal with
      | |- context [Step5.band_average _ _ _ _ m ?bs] =>
          destruct (band_average_ok combine anomalize box_min_overlap
                      box_reference_period m bs) as [z Hz]
      end.
      { intros E. apply (f_equal (@length _)) in E.
        rewrite length_firstn in E. simpl in E. lia. }
      rewrite Hz.
      destruct (IH (skipn k boxed_data))
        as (zs & Hzs & Hl & Hn & Hsum & Hfull & Hmap).
      { rewrite length_skipn. lia. }
      rewrite length_skipn in *.
      rewrite Hzs. exists (z :: zs).
      split; [reflexivity|]. split; [simpl; now rewrite Hl|].
      split; [lia|]. split.
      { cbn [firstn list_sum fold_right] in *.
        change (fold_right Nat.add 0%nat) with list_sum in *. lia. }
      split.
      { cbn [firstn]. constructor; [|exact Hfull].
        rewrite length_firstn. lia. }
      cbn [firstn map]. rewrite Hmap. f_equal. symmetry. exact Hz.
    + rewrite next_n_short by exact Hs.
      exists []. split; [reflexivity|]. split; [reflexivity|].
      split; [simpl; lia|]. split; [simpl; lia|].
      split; [constructor | reflexivity].
Qed.

(** X16.  On a stream of fewer than 80 boxes [zonav] yields the averages of
    the bands whose boxes the stream holds in full, band by band and fewer
    than 8 of them, and its body then stops at the [StopIteration] that
    [next] raises on the exhausted stream: no band is made of a group that is
    not full, and no compound zone is made.  The consumer does not see that
    [StopIteration]: the generator ends after those bands (up to Python 3.6),
    or raises [RuntimeError] (from Python 3.7 on). *)
Theorem zonav_short_stream (m : meta) (boxed_data : list box_t) :
  (length boxed_data < 80)%nat ->
  let sizes := [4; 8; 12; 16; 16; 12; 8; 4]%nat in
  let n := full_bands sizes (length boxed_data) in
  exists bands_out,
    zonav m boxed_data = (Gen bands_out (Some StopIteration), [])
    /\ (forall pep479,
          consumed pep479 (fst (zonav m boxed_data))
          = Gen bands_out (if pep479 then Some RuntimeError else None))
    /\ length bands_out = n
    /\ (n < 8)%nat
    /\ (list_sum (firstn n sizes) <= length boxed_data
        < list_sum (firstn (S n) sizes))%nat
    /\ Forall2 (fun k (g : list box_t) => length g = k)
         (firstn n sizes) (firstn n (groups sizes boxed_data))
    /\ map Ok bands_out
       = map (band_average m) (firstn n (groups sizes boxed_data)).
Proof.
  intros Hlen sizes n.
  destruct (zonav_bands_short m sizes)
    with (boxed_data := boxed_data) as (zs & Hzs & Hl & Hn & Hsum & Hfull & Hmap).
  { repeat constructor. }
  { exact Hlen. }
  assert (Hz : zonav m boxed_data = (Gen zs (Some StopIteration), [])).
  { unfold Step5.zonav. rewrite zones_value. cbv iota beta.
    fold sizes. rewrite Hzs. reflexivity. }
  exists zs. split; [exact Hz|]. split.
  { intros pep479. rewrite Hz. reflexivity. }
  repeat split; try assumption; apply Hsum.
Qed.

End ZonavMore.

(** ** [annzon]: grouping, errors and what passes through *)

Section AnnzonMore.
Import Step5.
Local Open Scope Q_scope.

Variable zone_annual_min_months : Z.

Local Abbreviation year_mean := (year_mean zone_annual_min_months).
Local Abbreviation annual_means := (annual_means zone_annual_min_months).
Local Abbreviation annzon := (annzon zone_annual_min_months).

Lemma firstn_plus {A : Type} (n k : nat) (l : list A) :
  firstn (n + k) l = firstn n l ++ firstn k (skipn n l).
Proof.
  revert l. induction n as [|n IH]; intros l; simpl.
  - reflexivity.
  - destruct l as [|x l]; simpl.
    + now rewrite firstn_nil.
    + now rewrite IH.
Qed.

Lemma concat_blocks (l : list Q) (k : nat) :
  concat (map (fun i => firstn 12 (skipn (12 * i) l)) (seq 0 k))
  = firstn (12 * k) l.
Proof.
  induction k as [|k IH].
  - reflexivity.
  - rewrite seq_S, map_app, concat_app, IH. simpl concat.
    rewrite app_nil_r. replace (12 * S k)%nat with (12 * k + 12)%nat by lia.
    now rewrite firstn_plus.
Qed.

(** X17.  Regrouping a series in blocks of 12 keeps its values in order and
    drops only an incomplete last block: there are [len / 12] blocks, each
    of 12 values, and together they are the first [12 * (len / 12)] values
    of the series. *)
Theorem group12_blocks (l : list Q) :
  length (group12 l) = (length l / 12)%nat
  /\ Forall (fun block => length block = 12%nat) (group12 l)
  /\ concat (group12 l) = firstn (12 * (length l / 12)) l.
Proof.
  split; [apply group12_length|]. split.
  - unfold group12. apply Forall_forall. intros block Hin.
    apply in_map_iff in Hin. destruct Hin as [i [<- Hi]].
    apply in_seq in Hi.
    rewrite length_firstn, length_skipn.
    pose proof (Nat.Div0.mul_div_le (length l) 12) as Hd.
    assert (12 * i + 12 <= 12 * (length l / 12))%nat by lia. lia.
  - unfold group12. apply concat_blocks.
Qed.

(** [annzon] once the zones have been read and the annual means found. *)
Lemma annzon_after_means (m : meta) (zs : list zone_t)
  (alternate : alternate_t) (ann : list (list Q)) :
  (16 <= length zs)%nat ->
  annual_means (monm m / 12) (input_data zs) = Ok ann ->
  annzon m zs alternate
  = (r <- alternate_global (alt_global alternate) (monm m / 12)
            (input_data zs) ann ;;
     Ok (Annzon
           (fst (alternate_hemi (alt_hemi alternate) (monm m / 12)
                   (fst r) (snd r)))
           (map (fun z : zone_t => group12 (snd z)) (firstn 16 zs))
           (snd (alternate_hemi (alt_hemi alternate) (monm m / 12)
                   (fst r) (snd r)))
           zone_annual_min_months)).
Proof.
  intros H16 Hann. unfold Step5.annzon.
  rewrite next_n_firstn by exact H16. rewrite bind_Ok. cbv zeta.
  cbn [fst snd].
  change (map (fun z : zone_t => group12 (fst z)) (firstn 16 zs))
    with (input_data zs).
  rewrite Hann, bind_Ok.
  destruct (alternate_global _ _ _ _) as [[data1 ann1]|e]; [|reflexivity].
  rewrite !bind_Ok. cbn [fst snd].
  destruct (alternate_hemi _ _ data1 ann1) as [d a]. reflexivity.
Qed.

Lemma annzon_means_raise (m : meta) (zs : list zone_t)
  (alternate : alternate_t) (e : exn) :
  (16 <= length zs)%nat ->
  annual_means (monm m / 12) (input_data zs) = Raise e ->
  annzon m zs alternate = Raise e.
Proof.
  intros H16 Hann. unfold Step5.annzon.
  rewrite next_n_firstn by exact H16. rewrite bind_Ok. cbv zeta.
  cbn [fst snd].
  change (map (fun z : zone_t => group12 (fst z)) (firstn 16 zs))
    with (input_data zs).
  rewrite Hann. reflexivity.
Qed.

(** X18.  [annzon] reads 16 zones: on a stream of fewer it stops with the
    [StopIteration] of the exhausted stream. *)
Theorem annzon_too_few_zones (m : meta) (zs : list zone_t)
  (alternate : alternate_t) :
  (length zs < 16)%nat ->
  annzon m zs alternate = Raise StopIteration.
Proof.
  intros H. unfold Step5.annzon.
  assert (E : next_n 16 zs = Raise StopIteration).
  { clear -H. revert H. generalize 16%nat. intros k. revert zs.
    induction k as [|k IH]; intros zs H; [lia|].
    destruct zs as [|x zs]; simpl in *; [reflexivity|].
    rewrite IH by lia. reflexivity. }
  rewrite E. reflexivity.
Qed.

(** X19.  A selector of the alternate global mean other than false, 1 or 2
    stops [annzon] on its assertion, after the annual means are found. *)
Theorem annzon_bad_selector (m : meta) (zs : list zone_t)
  (alternate : alternate_t) :
  well_formed m zs ->
  (1 <= zone_annual_min_months)%Z ->
  alt_global alternate <> 0%Z -> alt_global alternate <> 1%Z ->
  alt_global alternate <> 2%Z ->
  annzon m zs alternate = Raise (AssertionError EmptyString).
Proof.
  intros Hwf Hmin H0 H1 H2.
  destruct (annzon_stages zone_annual_min_months m zs alternate Hwf Hmin)
    as (ann & Hann & _).
  rewrite (annzon_after_means m zs alternate ann (proj1 Hwf) Hann).
  unfold alternate_global.
  apply Z.eqb_neq in H0, H1, H2. rewrite H0, H1, H2. reflexivity.
Qed.

Lemma mapM_raise {A B : Type} (f : A -> result B) (l1 l2 : list A) (x : A)
  (e : exn) :
  (forall y, In y l1 -> exists b, f y = Ok b) ->
  f x = Raise e ->
  mapM f (l1 ++ x :: l2) = Raise e.
Proof.
  intros Hok Hx. induction l1 as [|y l1 IH]; simpl.
  - now rewrite Hx.
  - destruct (Hok y (or_introl eq_refl)) as [b Hb]. rewrite Hb, bind_Ok.
    rewrite IH by (intros y' Hy'; apply Hok; now right). reflexivity.
Qed.

Lemma years_ok (dz : list (list Q)) (n : nat) :
  (1 <= zone_annual_min_months)%Z ->
  (n <= length dz)%nat ->
  exists row,
    mapM (fun iy => yr <- getitem dz iy ;; year_mean yr) (seq 0 n) = Ok row.
Proof.
  intros Hmin Hn. apply mapM_ok. intros iy Hiy. apply in_seq in Hiy.
  unfold getitem. rewrite (nth_error_nth' dz []) by lia. rewrite bind_Ok.
  destruct (year_mean_spec zone_annual_min_months (nth iy dz []) Hmin)
    as [a [Ha _]].
  eauto.
Qed.

Lemma skipn_nth {A : Type} (d : A) (l : list A) (z : nat) :
  (z < length l)%nat -> skipn z l = nth z l d :: skipn (S z) l.
Proof.
  revert z. induction l as [|x l IH]; intros z Hz; simpl in Hz; [lia|].
  destruct z as [|z]; [reflexivity|]. simpl. apply IH. lia.
Qed.

Lemma firstn_in_nth {A : Type} (d : A) (n : nat) (l : list A) (x : A) :
  In x (firstn n l) -> exists k, (k < n)%nat /\ x = nth k l d.
Proof.
  revert l. induction n as [|n IH]; intros l H; simpl in H; [destruct H|].
  destruct l as [|y l]; [destruct H|].
  destruct H as [<- | H].
  - exists 0%nat. split; [lia | reflexivity].
  - destruct (IH l H) as [k [Hk ->]]. exists (S k). split; [lia | reflexivity].
Qed.

Lemma seq_split_at (k n : nat) :
  (k < n)%nat -> seq 0 n = seq 0 k ++ k :: seq (S k) (n - S k).
Proof.
  intros H. assert (E : n = (k + S (n - S k))%nat) by lia.
  rewrite E at 1. rewrite seq_app. reflexivity.
Qed.

(** X20.  When a zone holds fewer years than the metadata says, and the
    zones before it do not, [annzon] stops with [IndexError]. *)
Theorem annzon_short_zone (m : meta) (zs : list zone_t)
  (alternate : alternate_t) (z : nat) :
  (16 <= length zs)%nat ->
  (1 <= zone_annual_min_months)%Z ->
  (z < 16)%nat ->
  (length (fst (nth z zs ([], []))) / 12 < monm m / 12)%nat ->
  (forall z', (z' < z)%nat ->
     (monm m / 12 <= length (fst (nth z' zs ([], []))) / 12)%nat) ->
  annzon m zs alternate = Raise IndexError.
Proof.
  intros H16 Hmin Hz Hshort Hbefore.
  apply annzon_means_raise; [exact H16|].
  assert (Hrow : forall k, (k < 16)%nat ->
            nth k (input_data zs) []
            = group12 (fst (nth k zs ([], [])))).
  { intros k Hk. unfold input_data.
    change (@nil (list Q)) with ((fun z : zone_t => group12 (fst z)) ([], [])).
    rewrite map_nth, nth_firstn.
    destruct (k <? 16)%nat eqn:E; [reflexivity|].
    apply Nat.ltb_ge in E. lia. }
  pose proof (input_data_length zs H16) as Hl.
  unfold Step5.annual_means.
  rewrite <- (firstn_skipn z (input_data zs)).
  rewrite (skipn_nth [] (input_data zs) z) by lia.
  apply mapM_raise.
  - intros dz Hin. apply (firstn_in_nth []) in Hin.
    destruct Hin as [k [Hk ->]].
    apply years_ok; [exact Hmin|].
    rewrite Hrow by lia. rewrite group12_length. apply Hbefore, Hk.
  - rewrite (Hrow z Hz).
    set (dz := group12 (fst (nth z zs ([], [])))).
    assert (Hdz : (length dz < monm m / 12)%nat)
      by (unfold dz; rewrite group12_length; exact Hshort).
    rewrite (seq_split_at (length dz) (monm m / 12) Hdz).
    apply mapM_raise.
    + intros iy Hiy. apply in_seq in Hiy.
      unfold getitem. rewrite (nth_error_nth' dz []) by lia.
      rewrite bind_Ok.
      destruct (year_mean_spec zone_annual_min_months (nth iy dz []) Hmin)
        as [a [Ha _]].
      eauto.
    + unfold getitem.
      assert (E : nth_error dz (length dz) = None)
        by (apply nth_error_None; lia).
      rewrite E. reflexivity.
Qed.

End AnnzonMore.

Section AnnzonValues.
Import Step5.
Local Open Scope Q_scope.

Variable zone_annual_min_months : Z.

Local Abbreviation year_mean := (year_mean zone_annual_min_months).
Local Abbreviation annual_means := (annual_means zone_annual_min_months).
Local Abbreviation annzon := (annzon zone_annual_min_months).

Lemma valid_months_none (yr : list Q) :
  Forall (fun v => valid v = false) yr -> valid_months yr = [].
Proof.
  induction 1 as [|v yr Hv _ IH]; simpl.
  - reflexivity.
  - rewrite Hv. exact IH.
Qed.

(** X21.  With a threshold of 0 or less, a year without any valid month is
    averaged over 0 months: when the first year of the first zone is such a
    year, [annzon] stops with [ZeroDivisionError]. *)
Theorem annzon_zero_division (m : meta) (zs : list zone_t)
  (alternate : alternate_t) :
  (16 <= length zs)%nat ->
  (zone_annual_min_months <= 0)%Z ->
  (12 <= monm m)%nat ->
  (12 <= length (fst (nth 0 zs ([], []))))%nat ->
  Forall (fun v => valid v = false) (firstn 12 (fst (nth 0 zs ([], [])))) ->
  annzon m zs alternate = Raise ZeroDivisionError.
Proof.
  intros H16 Hmin Hm Hlen Hnone.
  apply annzon_means_raise; [exact H16|].
  unfold Step5.annual_means, input_data.
  destruct zs as [|z0 zs]; [simpl in H16; lia|].
  simpl nth in *. cbn [firstn map].
  apply (mapM_raise _ [] _ (group12 (fst z0))); [intros y []|].
  assert (Hy : (0 < monm m / 12)%nat).
  { apply Nat.div_str_pos. lia. }
  rewrite (seq_split_at 0 (monm m / 12) Hy).
  apply (mapM_raise _ []); [intros y []|].
  assert (Hg : getitem (group12 (fst z0)) 0 = Ok (firstn 12 (fst z0))).
  { unfold getitem, group12.
    assert (Hd : (0 < length (fst z0) / 12)%nat)
      by (apply Nat.div_str_pos; lia).
    destruct (length (fst z0) / 12)%nat as [|k]; [lia|]. reflexivity. }
  rewrite Hg, bind_Ok. unfold Step5.year_mean.
  destruct (year_sum_spec (firstn 12 (fst z0))) as [H1 _].
  rewrite (valid_months_none _ Hnone) in H1.
  destruct (year_sum (firstn 12 (fst z0))) as [mon anniy].
  cbn [fst length] in H1. change (Z.of_nat 0) with 0%Z in H1. subst mon.
  destruct (zone_annual_min_months <=? 0)%Z eqn:E;
    [reflexivity | apply Z.leb_gt in E; lia].
Qed.

(** X22.  [annzon] returns the weights regrouped and otherwise untouched,
    the threshold it used, and the monthly values of every zone that no
    enabled alternate estimator writes to as they came in. *)
Theorem annzon_passes_through (m : meta) (zs : list zone_t)
  (alternate : alternate_t) :
  well_formed m zs ->
  (1 <= zone_annual_min_months)%Z ->
  (0 <= alt_global alternate <= 2)%Z ->
  exists r,
    annzon m zs alternate = Ok r
    /\ az_wt r = map (fun z : zone_t => group12 (snd z)) (firstn 16 zs)
    /\ az_min_months r = zone_annual_min_months
    /\ forall z,
         (alt_global alternate <> 0%Z -> z <> 15%nat) ->
         (alt_hemi alternate = true -> z <> 11%nat /\ z <> 12%nat) ->
         nth z (az_data r) [] = nth z (input_data zs) [].
Proof.
  intros Hwf Hmin Hglb. pose proof Hwf as [H16 _].
  destruct (annzon_stages zone_annual_min_months m zs alternate Hwf Hmin)
    as (ann & Hann & _).
  rewrite (annzon_after_means zone_annual_min_months m zs alternate ann H16
             Hann).
  assert (Hg : exists data1 ann1,
             alternate_global (alt_global alternate) (monm m / 12)
               (input_data zs) ann = Ok (data1, ann1)
             /\ forall z, (alt_global alternate <> 0%Z -> z <> 15%nat) ->
                  nth z data1 [] = nth z (input_data zs) []).
  { assert (Hcases : alt_global alternate = 0%Z \/ alt_global alternate = 1%Z
                     \/ alt_global alternate = 2%Z) by lia.
    destruct Hcases as [E | [E | E]]; rewrite E.
    - do 2 eexists. split; reflexivity.
    - do 2 eexists. split; [reflexivity|]. intros z Hz. symmetry.
      apply (global_data_loop [8; 9; 9; 10]%nat).
      + repeat constructor; lia.
      + now apply input_data_length.
      + apply (input_data_row m); [exact Hwf | lia].
      + apply Hz. discriminate.
    - do 2 eexists. split; [reflexivity|]. intros z Hz. symmetry.
      apply (global_data_loop [8; 3; 4; 10]%nat).
      + repeat constructor; lia.
      + now apply input_data_length.
      + apply (input_data_row m); [exact Hwf | lia].
      + apply Hz. discriminate. }
  destruct Hg as (data1 & ann1 & Hg & Hrows).
  rewrite Hg, bind_Ok. cbn [fst snd].
  eexists. split; [reflexivity|]. cbn [az_wt az_min_months az_data].
  split; [reflexivity|]. split; [reflexivity|].
  intros z Hz15 Hzh. rewrite <- (Hrows z Hz15).
  destruct (alt_hemi alternate) eqn:E.
  - symmetry.
    apply (alternate_hemi_frame true (monm m / 12) data1 ann1); now apply Hzh.
  - reflexivity.
Qed.

Lemma Qsum_between (l : list Q) (lo hi : Q) :
  Forall (fun v => lo <= v <= hi) l ->
  lo * inject_Z (Z.of_nat (length l)) <= Qsum l
  /\ Qsum l <= hi * inject_Z (Z.of_nat (length l)).
Proof.
  induction 1 as [|v l [Hlo Hhi] _ [IH1 IH2]].
  - simpl. split; ring_simplify; apply Qle_refl.
  - cbn [length Qsum fold_right]. fold (Qsum l).
    rewrite Nat2Z.inj_succ, <- Z.add_1_r, inject_Z_plus.
    change (inject_Z 1) with 1. split.
    + setoid_replace (lo * (inject_Z (Z.of_nat (length l)) + 1))
        with (lo + lo * inject_Z (Z.of_nat (length l))) by ring.
      now apply Qplus_le_compat.
    + setoid_replace (hi * (inject_Z (Z.of_nat (length l)) + 1))
        with (hi + hi * inject_Z (Z.of_nat (length l))) by ring.
      now apply Qplus_le_compat.
Qed.

(** X23.  An annual mean lies between the bounds of the year's valid
    months: when they all lie between [lo] and [hi] and there are enough of
    them, so does the annual value. *)
Theorem year_mean_between (yr : list Q) (lo hi : Q) :
  (1 <= zone_annual_min_months)%Z ->
  (zone_annual_min_months <= Z.of_nat (length (valid_months yr)))%Z ->
  Forall (fun v => valid v = true -> lo <= v <= hi) yr ->
  exists a, year_mean yr = Ok a /\ lo <= a <= hi.
Proof.
  intros Hmin Hcount Hall.
  destruct (year_mean_spec zone_annual_min_months yr Hmin) as [a [Ha Hspec]].
  exists a. split; [exact Ha|].
  apply Z.leb_le in Hcount. rewrite Hcount in Hspec.
  apply Z.leb_le in Hcount.
  assert (Hv : Forall (fun v => lo <= v <= hi) (valid_months yr)).
  { unfold valid_months. apply Forall_forall. intros v Hv.
    apply filter_In in Hv. destruct Hv as [Hin Hval].
    eapply Forall_forall in Hall; [|exact Hin]. now apply Hall. }
  destruct (Qsum_between _ lo hi Hv) as [H1 H2].
  assert (Hn : 0 < inject_Z (Z.of_nat (length (valid_months yr)))).
  { change 0 with (inject_Z 0). rewrite <- Zlt_Qlt. lia. }
  rewrite Hspec. unfold mean. split.
  - apply Qle_shift_div_l; assumption.
  - apply Qle_shift_div_r; assumption.
Qed.

End AnnzonValues.

(** ** [annzon]: the alternate hemispheric means *)

Section HemiBlend.
Import Step5.
Local Open Scope Q_scope.

Variable ihem : nat.
Hypothesis ihem_range : (ihem < 2)%nat.

(** Two arrays that agree on every zone but the one written to. *)
Definition same_but {A : Type} (r : nat) (s s' : list (list A)) : Prop :=
  forall z, z <> r -> nth z s [] = nth z s' [].

Lemma same_but_refl {A : Type} (r : nat) (s : list (list A)) : same_but r s s.
Proof. intros z _. reflexivity. Qed.

Lemma same_but_trans {A : Type} (r : nat) (s1 s2 s3 : list (list A)) :
  same_but r s1 s2 -> same_but r s2 s3 -> same_but r s1 s3.
Proof. intros H1 H2 z Hz. rewrite (H1 z Hz). apply H2, Hz. Qed.

Lemma same_but_set2 {A : Type} (r : nat) (s : list (list A)) (i : nat)
  (x : A) :
  same_but r s (set2 s r i x).
Proof. intros z Hz. symmetry. apply nth_set2_other. congruence. Qed.

Lemma same_but_set3 (r : nat) (s : list (list (list Q))) (i m : nat)
  (x : Q) :
  same_but r s (set3 s r i m x).
Proof. intros z Hz. symmetry. apply nth_set3_other. congruence. Qed.

Lemma get3_nth (d : list (list (list Q))) (z i m : nat) :
  get3 d z i m = nth m (nth i (nth z d []) []) MISSING.
Proof. reflexivity. Qed.

(** The value the hemispheric blend leaves: [old] when an input is
    [MISSING]. *)
Definition hemi_value (x y old : Q) : Q :=
  if valid x && valid y then 0.4 * x + 0.6 * y else old.

Lemma hemi_ann_turn_eq (iy : nat) (ann : list (list Q)) :
  hemi_ann_turn ihem iy ann
  = set2 (set2 ann (ihem + 11) iy MISSING) (ihem + 11) iy
      (hemi_value (get2 ann (ihem + 3) iy) (get2 ann (2 * ihem + 8) iy)
         MISSING)
  \/ (hemi_ann_turn ihem iy ann = set2 ann (ihem + 11) iy MISSING
      /\ hemi_value (get2 ann (ihem + 3) iy) (get2 ann (2 * ihem + 8) iy)
           MISSING = MISSING).
Proof.
  unfold hemi_ann_turn, hemi_value, valid. cbv zeta.
  assert (Ea : get2 (set2 ann (ihem + 11) iy MISSING) (ihem + 3) iy
               = get2 ann (ihem + 3) iy).
  { unfold get2. rewrite nth_set2_other by lia. reflexivity. }
  assert (Eb : get2 (set2 ann (ihem + 11) iy MISSING) (2 * ihem + 8) iy
               = get2 ann (2 * ihem + 8) iy).
  { unfold get2. rewrite nth_set2_other by lia. reflexivity. }
  rewrite Ea, Eb.
  destruct (negb _ && negb _); [left | right]; auto.
Qed.

Lemma hemi_ann_loop (iyrs : nat) (ann : list (list Q)) :
  (ihem + 11 < length ann)%nat ->
  length (nth (ihem + 11) ann []) = iyrs ->
  same_but (ihem + 11) ann (for_each (seq 0 iyrs) (hemi_ann_turn ihem) ann)
  /\ (forall iy, (iy < iyrs)%nat ->
       get2 (for_each (seq 0 iyrs) (hemi_ann_turn ihem) ann) (ihem + 11) iy
       = hemi_value (get2 ann (ihem + 3) iy) (get2 ann (2 * ihem + 8) iy)
           MISSING)
  /\ length (for_each (seq 0 iyrs) (hemi_ann_turn ihem) ann) = length ann.
Proof.
  intros Hl Hrow.
  destruct (for_each_spec
              (fun s i => get2 s (ihem + 11) i) (same_but (ihem + 11))
              (fun s => length s = length ann
                        /\ length (nth (ihem + 11) s []) = iyrs)
              (fun i => (i < iyrs)%nat)
              (hemi_ann_turn ihem)
              (fun s i =>
                 hemi_value (get2 s (ihem + 3) i) (get2 s (2 * ihem + 8) i)
                   MISSING))
    with (ns := seq 0 iyrs) (s := ann) as ((Hlen & _) & Hsame & Hset & _).
  - apply same_but_refl.
  - apply same_but_trans.
  - intros i s [Hls Hr] Hi.
    destruct (hemi_ann_turn_eq i s) as [-> | [-> _]]; split;
      rewrite ?length_set2; try exact Hls;
      rewrite !nth_set2_row by (rewrite ?length_set2; lia);
      rewrite !length_set_at; exact Hr.
  - intros i s [Hls Hr] Hi.
    destruct (hemi_ann_turn_eq i s) as [-> | [-> _]].
    + eapply same_but_trans; apply same_but_set2.
    + apply same_but_set2.
  - intros i j s [Hls Hr] Hi Hj. unfold get2.
    destruct (hemi_ann_turn_eq i s) as [-> | [-> _]];
      rewrite !nth_set2_row by (rewrite ?length_set2; lia);
      rewrite !nth_set_at_other by congruence; reflexivity.
  - intros i s [Hls Hr] Hi. unfold get2 at 1.
    destruct (hemi_ann_turn_eq i s) as [-> | [-> ->]];
      rewrite !nth_set2_row by (rewrite ?length_set2; lia);
      rewrite nth_set_at_same by (rewrite ?length_set_at; lia); reflexivity.
  - intros s s' i Hs _. unfold get2.
    rewrite (Hs (ihem + 3)%nat), (Hs (2 * ihem + 8)%nat) by lia.
    reflexivity.
  - apply seq_NoDup.
  - split; [reflexivity | exact Hrow].
  - intros i Hi. apply in_seq in Hi. lia.
  - split; [exact Hsame|]. split; [|exact Hlen].
    intros iy Hiy. apply Hset, in_seq. lia.
Qed.

Lemma hemi_month_turn_eq (iy m : nat) (s : list (list (list Q))) :
  hemi_month_turn ihem iy m s
  = set3 s (ihem + 11) iy m
      (hemi_value (get3 s (ihem + 3) iy m) (get3 s (2 * ihem + 8) iy m)
         (get3 s (ihem + 11) iy m))
  \/ (hemi_month_turn ihem iy m s = s
      /\ hemi_value (get3 s (ihem + 3) iy m) (get3 s (2 * ihem + 8) iy m)
           (get3 s (ihem + 11) iy m)
         = get3 s (ihem + 11) iy m).
Proof.
  unfold hemi_month_turn, hemi_value, valid.
  destruct (negb _ && negb _); [left | right]; auto.
Qed.

Lemma hemi_month_loop (iy : nat) (s1 : list (list (list Q))) :
  (ihem + 11 < length s1)%nat ->
  (iy < length (nth (ihem + 11) s1 []))%nat ->
  length (nth iy (nth (ihem + 11) s1 []) []) = 12%nat ->
  let s' := for_each (seq 0 12) (hemi_month_turn ihem iy) s1 in
  (length s' = length s1
   /\ length (nth (ihem + 11) s' []) = length (nth (ihem + 11) s1 [])
   /\ length (nth iy (nth (ihem + 11) s' []) []) = 12%nat
   /\ forall j, j <> iy ->
        nth j (nth (ihem + 11) s' []) [] = nth j (nth (ihem + 11) s1 []) [])
  /\ same_but (ihem + 11) s1 s'
  /\ forall m, (m < 12)%nat ->
       get3 s' (ihem + 11) iy m
       = hemi_value (get3 s1 (ihem + 3) iy m) (get3 s1 (2 * ihem + 8) iy m)
           (get3 s1 (ihem + 11) iy m).
Proof.
  intros Hl Hiy Hyr.
  destruct (for_each_spec
              (fun s m => get3 s (ihem + 11) iy m) (same_but (ihem + 11))
              (fun s => length s = length s1
                        /\ length (nth (ihem + 11) s [])
                           = length (nth (ihem + 11) s1 [])
                        /\ length (nth iy (nth (ihem + 11) s []) []) = 12%nat
                        /\ forall j, j <> iy ->
                             nth j (nth (ihem + 11) s []) []
                             = nth j (nth (ihem + 11) s1 []) [])
              (fun m => (m < 12)%nat)
              (hemi_month_turn ihem iy)
              (fun s m =>
                 hemi_value (get3 s (ihem + 3) iy m)
                   (get3 s (2 * ihem + 8) iy m) (get3 s (ihem + 11) iy m)))
    with (ns := seq 0 12) (s := s1) as (Hinv & Hsame & Hset & _).
  - apply same_but_refl.
  - apply same_but_trans.
  - intros m s (Hls & Hr & Hy & Ho) Hm.
    destruct (hemi_month_turn_eq iy m s) as [-> | [-> _]]; [|now auto].
    rewrite length_set3, nth_set3_row by lia.
    rewrite length_set_at.
    rewrite nth_set_at_same by lia. rewrite length_set_at.
    repeat split; auto.
    intros j Hj. rewrite nth_set_at_other by congruence. now apply Ho.
  - intros m s (Hls & _) Hm.
    destruct (hemi_month_turn_eq iy m s) as [-> | [-> _]].
    + apply same_but_set3.
    + apply same_but_refl.
  - intros m j s (Hls & Hr & Hy & Ho) Hm Hj. unfold get3.
    destruct (hemi_month_turn_eq iy m s) as [-> | [-> _]]; [|reflexivity].
    rewrite nth_set3_row by lia.
    rewrite nth_set_at_same by lia.
    now rewrite nth_set_at_other by congruence.
  - intros m s (Hls & Hr & Hy & Ho) Hm.
    destruct (hemi_month_turn_eq iy m s) as [-> | [-> ->]]; [|reflexivity].
    unfold get3 at 1. rewrite nth_set3_row by lia.
    rewrite nth_set_at_same by lia.
    now rewrite nth_set_at_same by lia.
  - intros s s' m Hs Hg. unfold get3 at 1 2 4 5.
    rewrite (Hs (ihem + 3)%nat), (Hs (2 * ihem + 8)%nat) by lia.
    fold (get3 s' (ihem + 3) iy m). fold (get3 s' (2 * ihem + 8) iy m).
    now rewrite Hg.
  - apply seq_NoDup.
  - repeat split; auto.
  - intros m Hm. apply in_seq in Hm. lia.
  - split; [exact Hinv|]. split; [exact Hsame|].
    intros m Hm. apply Hset, in_seq. lia.
Qed.

Lemma hemi_data_loop (iyrs : nat) (data : list (list (list Q))) :
  (ihem + 11 < length data)%nat ->
  (iyrs <= length (nth (ihem + 11) data []))%nat ->
  same_but (ihem + 11) data
    (for_each (seq 0 iyrs) (hemi_data_turn ihem) data)
  /\ (forall iy m, (iy < iyrs)%nat -> (m < 12)%nat ->
       get3 (for_each (seq 0 iyrs) (hemi_data_turn ihem) data)
         (ihem + 11) iy m
       = hemi_value (get3 data (ihem + 3) iy m)
           (get3 data (2 * ihem + 8) iy m) MISSING)
  /\ length (for_each (seq 0 iyrs) (hemi_data_turn ihem) data)
     = length data.
Proof.
  intros Hl Hrow.
  set (L := length (nth (ihem + 11) data [])) in *.
  set (value := fun (s : list (list (list Q))) (iy m : nat) =>
                  hemi_value (get3 s (ihem + 3) iy m)
                    (get3 s (2 * ihem + 8) iy m) MISSING).
  assert (Hvalue : forall s s' iy m,
             same_but (ihem + 11) s s' -> value s iy m = value s' iy m).
  { intros s s' iy m Hs. unfold value, get3.
    rewrite (Hs (ihem + 3)%nat), (Hs (2 * ihem + 8)%nat) by lia.
    reflexivity. }
  assert (Hturn : forall iy s,
             length s = length data ->
             length (nth (ihem + 11) s []) = L -> (iy < L)%nat ->
             let s' := hemi_data_turn ihem iy s in
             (length s' = length data /\ length (nth (ihem + 11) s' []) = L)
             /\ same_but (ihem + 11) s s'
             /\ (forall j, j <> iy ->
                   nth j (nth (ihem + 11) s' []) []
                   = nth j (nth (ihem + 11) s []) [])
             /\ nth iy (nth (ihem + 11) s' []) []
                = map (value s iy) (seq 0 12)).
  { intros iy s Hls Hr Hiy. unfold hemi_data_turn. cbv zeta.
    set (s1 := set2 s (ihem + 11) iy (repeat MISSING 12)).
    assert (Hrow1 : nth (ihem + 11) s1 []
                    = set_at (nth (ihem + 11) s []) iy (repeat MISSING 12)).
    { unfold s1. apply nth_set2_row. lia. }
    assert (Hyr1 : nth iy (nth (ihem + 11) s1 []) [] = repeat MISSING 12).
    { rewrite Hrow1. apply nth_set_at_same. lia. }
    assert (Hl1 : length s1 = length s) by (unfold s1; apply length_set2).
    destruct (hemi_month_loop iy s1) as ((I1 & I2 & I3 & I4) & Hs & Hv).
    - lia.
    - rewrite Hrow1, length_set_at. lia.
    - rewrite Hyr1. apply repeat_length.
    - split; [|split; [|split]].
      + split; [lia|]. rewrite I2, Hrow1, length_set_at. exact Hr.
      + eapply same_but_trans; [apply same_but_set2 | exact Hs].
      + intros j Hj. rewrite (I4 j Hj), Hrow1.
        apply nth_set_at_other. congruence.
      + apply (nth_ext _ _ MISSING (value s iy 0%nat)).
        * rewrite I3, length_map, length_seq. reflexivity.
        * intros m Hm. rewrite I3 in Hm.
          rewrite (map_nth (value s iy) (seq 0 12) 0%nat m).
          rewrite seq_nth by exact Hm. change (0 + m)%nat with m.
          rewrite <- (get3_nth
                        (for_each (seq 0 12) (hemi_month_turn ihem iy) s1)
                        (ihem + 11) iy m).
          rewrite (Hv m Hm).
          rewrite (Hvalue s s1) by apply same_but_set2.
          unfold value. f_equal.
          unfold get3. rewrite Hyr1. apply nth_repeat. }
  destruct (for_each_spec
              (fun s iy => nth iy (nth (ihem + 11) s []) [])
              (same_but (ihem + 11))
              (fun s => length s = length data
                        /\ length (nth (ihem + 11) s []) = L)
              (fun iy => (iy < L)%nat)
              (hemi_data_turn ihem)
              (fun s iy => map (value s iy) (seq 0 12)))
    with (ns := seq 0 iyrs) (s := data) as ((Hlen & _) & Hsame & Hset & _).
  - apply same_but_refl.
  - apply same_but_trans.
  - intros i s [H16 Hr] Hi. apply (Hturn i s H16 Hr Hi).
  - intros i s [H16 Hr] Hi. apply (Hturn i s H16 Hr Hi).
  - intros i j s [H16 Hr] Hi Hj. now apply (Hturn i s H16 Hr Hi).
  - intros i s [H16 Hr] Hi. apply (Hturn i s H16 Hr Hi).
  - intros s s' i Hs _. apply map_ext. intros m. now apply Hvalue.
  - apply seq_NoDup.
  - split; reflexivity.
  - intros i Hi. apply in_seq in Hi. lia.
  - split; [exact Hsame|]. split; [|exact Hlen].
    intros iy m Hiy Hm. unfold get3 at 1.
    rewrite Hset by (apply in_seq; lia).
    rewrite (nth_indep _ MISSING (value data iy 0%nat))
      by (rewrite length_map, length_seq; exact Hm).
    rewrite (map_nth (value data iy) (seq 0 12) 0%nat m).
    now rewrite seq_nth by exact Hm.
Qed.

End HemiBlend.

Section AnnzonHemi.
Import Step5.
Local Open Scope Q_scope.

Variable zone_annual_min_months : Z.

Local Abbreviation annzon := (annzon zone_annual_min_months).

Lemma global_ann_loop_length (zone : list nat) (iyrs : nat)
  (ann : list (list Q)) :
  length (for_each (seq 0 iyrs) (global_ann_turn zone) ann) = length ann.
Proof.
  apply (for_each_invariant (fun s => length s = length ann)); [|reflexivity].
  intros iy s Hs. unfold global_ann_turn.
  destruct (blend_loop _ 0); rewrite ?length_set2; exact Hs.
Qed.

Lemma global_data_loop_length (zone : list nat) (iyrs : nat)
  (data : list (list (list Q))) :
  length (for_each (seq 0 iyrs) (global_data_turn zone) data) = length data.
Proof.
  apply (for_each_invariant (fun s => length s = length data)); [|reflexivity].
  intros iy s Hs. unfold global_data_turn. cbv zeta.
  apply (for_each_invariant (fun s => length s = length data)).
  - intros m s' Hs'. unfold global_month_turn.
    destruct (blend_loop _ 0); rewrite ?length_set3; exact Hs'.
  - rewrite length_set2. exact Hs.
Qed.

Lemma alternate_hemi_true (iyrs : nat) (data : list (list (list Q)))
  (ann : list (list Q)) :
  alternate_hemi true iyrs data ann
  = (for_each (seq 0 iyrs) (hemi_data_turn 1)
       (for_each (seq 0 iyrs) (hemi_data_turn 0) data),
     for_each (seq 0 iyrs) (hemi_ann_turn 1)
       (for_each (seq 0 iyrs) (hemi_ann_turn 0) ann)).
Proof. reflexivity. Qed.

(** What the hemispheric blend of [x] and [y] has to be. *)
Definition hemi_blended (x y out : Q) : Prop :=
  (valid x && valid y = true -> out == 0.4 * x + 0.6 * y)
  /\ (valid x && valid y = false -> out = MISSING).

Lemma hemi_blended_value (x y : Q) : hemi_blended x y (hemi_value x y MISSING).
Proof.
  unfold hemi_blended, hemi_value.
  split; intros H; rewrite H; reflexivity.
Qed.

(** The blend of the alternate hemispheric means, on the values that the
    returned arrays hold where they hold them. *)
Lemma hemi_blend_values (m : meta) (zs : list zone_t)
  (alternate : alternate_t) (ihem Y : nat) :
  well_formed m zs ->
  (1 <= zone_annual_min_months)%Z ->
  (0 <= alt_global alternate <= 2)%Z ->
  alt_hemi alternate = true ->
  (ihem < 2)%nat -> (Y < monm m / 12)%nat ->
  exists r,
    annzon m zs alternate = Ok r
    /\ hemi_blended (get2 (az_ann r) (ihem + 3) Y)
         (get2 (az_ann r) (2 * ihem + 8) Y) (get2 (az_ann r) (ihem + 11) Y)
    /\ forall M, (M < 12)%nat ->
         hemi_blended (get3 (az_data r) (ihem + 3) Y M)
           (get3 (az_data r) (2 * ihem + 8) Y M)
           (get3 (az_data r) (ihem + 11) Y M).
Proof.
  intros Hwf Hmin Hglb Hhemi Hihem HY. pose proof Hwf as [H16 _].
  destruct (annzon_stages zone_annual_min_months m zs alternate Hwf Hmin)
    as (ann & Hann & Hla & Hrows & _ & Hrest).
  set (iyrs := (monm m / 12)%nat) in *.
  assert (Hg : exists data1 ann1,
             alternate_global (alt_global alternate) iyrs (input_data zs) ann
             = Ok (data1, ann1)
             /\ length ann1 = 16%nat /\ length data1 = 16%nat
             /\ (forall z, z <> 15%nat -> nth z ann1 [] = nth z ann [])
             /\ (forall z, z <> 15%nat ->
                   nth z data1 [] = nth z (input_data zs) [])).
  { assert (Hcases : alt_global alternate = 0%Z \/ alt_global alternate = 1%Z
                     \/ alt_global alternate = 2%Z) by lia.
    pose proof (input_data_length zs H16) as Hld.
    assert (Hblend : forall zone, Forall (fun z => z <> 15%nat) zone ->
              let ann1 := for_each (seq 0 iyrs) (global_ann_turn zone) ann in
              let data1 := for_each (seq 0 iyrs) (global_data_turn zone)
                             (input_data zs) in
              length ann1 = 16%nat /\ length data1 = 16%nat
              /\ (forall z, z <> 15%nat -> nth z ann1 [] = nth z ann [])
              /\ (forall z, z <> 15%nat ->
                    nth z data1 [] = nth z (input_data zs) [])).
    { intros zone Hzone. cbv zeta.
      rewrite global_ann_loop_length, global_data_loop_length.
      destruct (global_ann_loop zone Hzone iyrs ann Hla) as [Hsa _].
      { apply Hrows. lia. }
      destruct (global_data_loop zone Hzone iyrs (input_data zs) Hld)
        as [Hsd _].
      { apply (input_data_row m); [exact Hwf | lia]. }
      split; [exact Hla|]. split; [exact Hld|].
      split; intros z Hz; symmetry; [apply Hsa | apply Hsd]; exact Hz. }
    destruct Hcases as [E | [E | E]]; rewrite E.
    - exists (input_data zs), ann. repeat split; auto.
    - do 2 eexists. split; [reflexivity|].
      apply Hblend. repeat constructor; lia.
    - do 2 eexists. split; [reflexivity|].
      apply Hblend. repeat constructor; lia. }
  destruct Hg as (data1 & ann1 & Hg & Hla1 & Hld1 & Hra & Hrd).
  destruct (Hrest _ _ Hg) as (r & Hr & Hd & Ha).
  exists r. split; [exact Hr|].
  rewrite Hhemi, alternate_hemi_true in Hd, Ha. cbn [fst snd] in Hd, Ha.
  assert (Hrow_a : forall z, (z < 16)%nat -> z <> 15%nat ->
            length (nth z ann1 []) = iyrs).
  { intros z Hz Hz15. rewrite Hra by exact Hz15. now apply Hrows. }
  assert (Hrow_d : forall z, (z < 16)%nat -> z <> 15%nat ->
            (iyrs <= length (nth z data1 []))%nat).
  { intros z Hz Hz15. rewrite Hrd by exact Hz15.
    now apply (input_data_row m). }
  (* the annual values *)
  destruct (hemi_ann_loop 0 ltac:(lia) iyrs ann1) as (Sa0 & Va0 & La0).
  { simpl. lia. } { apply Hrow_a; simpl; lia. }
  set (A1 := for_each (seq 0 iyrs) (hemi_ann_turn 0) ann1) in *.
  destruct (hemi_ann_loop 1 ltac:(lia) iyrs A1) as (Sa1 & Va1 & La1).
  { fold A1 in La0. simpl. lia. }
  { change (1 + 11)%nat with 12%nat.
    rewrite <- (Sa0 12%nat) by (simpl; lia). apply Hrow_a; lia. }
  destruct (hemi_data_loop 0 ltac:(lia) iyrs data1) as (Sd0 & Vd0 & Ld0).
  { simpl. lia. } { apply Hrow_d; simpl; lia. }
  set (D1 := for_each (seq 0 iyrs) (hemi_data_turn 0) data1) in *.
  destruct (hemi_data_loop 1 ltac:(lia) iyrs D1) as (Sd1 & Vd1 & Ld1).
  { fold D1 in Ld0. simpl. lia. }
  { change (1 + 11)%nat with 12%nat.
    rewrite <- (Sd0 12%nat) by (simpl; lia). apply Hrow_d; lia. }
  rewrite Ha, Hd.
  cbn [Nat.add Nat.mul] in Sa0, Va0, Sa1, Va1, Sd0, Vd0, Sd1, Vd1.
  assert (Hi : ihem = 0%nat \/ ihem = 1%nat) by lia.
  destruct Hi as [-> | ->]; simpl Nat.add; simpl Nat.mul.
  - split.
    + unfold get2. rewrite <- !(Sa1 _) by (simpl; lia).
      fold (get2 A1 3 Y). fold (get2 A1 8 Y). fold (get2 A1 11 Y).
      rewrite (Va0 Y HY). unfold get2.
      rewrite <- !(Sa0 _) by (simpl; lia).
      apply hemi_blended_value.
    + intros M HM. unfold get3. rewrite <- !(Sd1 _) by (simpl; lia).
      rewrite <- !get3_nth. rewrite (Vd0 Y M HY HM). unfold get3.
      rewrite <- !(Sd0 _) by (simpl; lia).
      apply hemi_blended_value.
  - split.
    + rewrite (Va1 Y HY). unfold get2.
      rewrite <- !(Sa1 _) by (simpl; lia).
      apply hemi_blended_value.
    + intros M HM. rewrite (Vd1 Y M HY HM). unfold get3.
      rewrite <- !(Sd1 _) by (simpl; lia).
      apply hemi_blended_value.
Qed.

End AnnzonHemi.

(** ** [annzon]: the shape of the arrays *)

Section ArrayShape.
Import Step5.

Lemma map_set_at {A B : Type} (f : A -> B) (l : list A) (i : nat) (x : A) :
  map f (set_at l i x) = set_at (map f l) i (f x).
Proof.
  revert i. induction l as [|y l IH]; intros [|i]; simpl; try reflexivity.
  now rewrite IH.
Qed.

Lemma set_at_nth {A : Type} (l : list A) (i : nat) (d : A) :
  set_at l i (nth i l d) = l.
Proof.
  revert i. induction l as [|y l IH]; intros [|i]; simpl; try reflexivity.
  now rewrite IH.
Qed.

Lemma Forall_set_at {A : Type} (P : A -> Prop) (l : list A) (i : nat)
  (x : A) :
  Forall P l -> ((i < length l)%nat -> P x) -> Forall P (set_at l i x).
Proof.
  intros H. revert i. induction H as [|y l Hy Hl IH]; intros [|i] Hx; simpl.
  - constructor.
  - constructor.
  - constructor; [apply Hx; simpl; lia | exact Hl].
  - constructor; [exact Hy|]. apply IH. intros Hi. apply Hx. simpl. lia.
Qed.

Lemma Forall_nth_default {A : Type} (P : A -> Prop) (l : list A) (i : nat)
  (d : A) :
  Forall P l -> P d -> P (nth i l d).
Proof.
  intros H Hd. revert i. induction H as [|y l Hy Hl IH]; intros [|i]; simpl;
    auto.
Qed.

(** The lengths of the rows of an array. *)
Definition rows {A : Type} (a : list (list A)) : list nat :=
  map (@length A) a.

Lemma rows_nth {A : Type} (a : list (list A)) (z : nat) :
  nth z (rows a) 0%nat = length (nth z a []).
Proof. unfold rows. apply (map_nth (@length A) a [] z). Qed.

Lemma rows_eq {A : Type} (a a0 : list (list A)) :
  rows a = rows a0 ->
  length a = length a0
  /\ forall z, length (nth z a []) = length (nth z a0 []).
Proof.
  intros H. split.
  - apply (f_equal (@length nat)) in H. unfold rows in H.
    now rewrite !length_map in H.
  - intros z. now rewrite <- !rows_nth, H.
Qed.

Lemma rows_set_at {A : Type} (a : list (list A)) (z : nat) (row : list A) :
  length row = length (nth z a []) -> rows (set_at a z row) = rows a.
Proof.
  intros H. unfold rows. rewrite map_set_at, H.
  rewrite <- (map_nth (@length A) a [] z). apply set_at_nth.
Qed.

Lemma rows_set2 {A : Type} (a : list (list A)) (z i : nat) (x : A) :
  rows (set2 a z i x) = rows a.
Proof. unfold set2. apply rows_set_at, length_set_at. Qed.

Lemma rows_set3 (d : list (list (list Q))) (z i m : nat) (x : Q) :
  rows (set3 d z i m x) = rows d.
Proof. unfold set3. apply rows_set_at, length_set2. Qed.

(** Every year of every zone holds 12 months. *)
Definition blocks12 (d : list (list (list Q))) : Prop :=
  Forall (Forall (fun yr : list Q => length yr = 12%nat)) d.

Lemma blocks12_set2 (d : list (list (list Q))) (z i : nat) (yr : list Q) :
  blocks12 d -> length yr = 12%nat -> blocks12 (set2 d z i yr).
Proof.
  intros H Hyr. unfold set2. apply Forall_set_at; [exact H|]. intros _.
  apply Forall_set_at; [|intros _; exact Hyr].
  apply Forall_nth_default; [exact H | constructor].
Qed.

Lemma blocks12_set3 (d : list (list (list Q))) (z i m : nat) (x : Q) :
  blocks12 d -> blocks12 (set3 d z i m x).
Proof.
  intros H. unfold set3, set2. apply Forall_set_at; [exact H|]. intros _.
  assert (Hrow : Forall (fun yr : list Q => length yr = 12%nat) (nth z d [])).
  { apply Forall_nth_default; [exact H | constructor]. }
  apply Forall_set_at; [exact Hrow|]. intros Hi.
  rewrite length_set_at.
  apply (proj1 (Forall_nth _ _) Hrow i [] Hi).
Qed.

Lemma blocks12_nth (d : list (list (list Q))) (z Y : nat) :
  blocks12 d -> (Y < length (nth z d []))%nat ->
  length (nth Y (nth z d []) []) = 12%nat.
Proof.
  intros H HY.
  assert (Hrow : Forall (fun yr : list Q => length yr = 12%nat) (nth z d [])).
  { apply Forall_nth_default; [exact H | constructor]. }
  apply (proj1 (Forall_nth _ _) Hrow Y [] HY).
Qed.

Lemma global_ann_turn_rows (zone : list nat) (iy : nat) (ann : list (list Q)) :
  rows (global_ann_turn zone iy ann) = rows ann.
Proof.
  unfold global_ann_turn. cbv zeta.
  destruct (blend_loop _ 0); now rewrite ?rows_set2.
Qed.

Lemma hemi_ann_turn_rows (ihem iy : nat) (ann : list (list Q)) :
  rows (hemi_ann_turn ihem iy ann) = rows ann.
Proof.
  unfold hemi_ann_turn. cbv zeta.
  destruct (_ && _); now rewrite ?rows_set2.
Qed.

(** The shape that the loops over the monthly values keep. *)
Definition data_shape (d0 d : list (list (list Q))) : Prop :=
  rows d = rows d0 /\ blocks12 d.

Lemma global_data_turn_shape (zone : list nat) (iy : nat)
  (d0 d : list (list (list Q))) :
  data_shape d0 d -> data_shape d0 (global_data_turn zone iy d).
Proof.
  intros [Hr Hb]. unfold global_data_turn. cbv zeta.
  apply (for_each_invariant (data_shape d0)).
  - intros m s [Hr' Hb']. unfold global_month_turn.
    destruct (blend_loop _ 0); [|now split].
    split; [now rewrite rows_set3 | now apply blocks12_set3].
  - split; [now rewrite rows_set2|].
    apply blocks12_set2; [exact Hb | apply repeat_length].
Qed.

Lemma hemi_data_turn_shape (ihem iy : nat) (d0 d : list (list (list Q))) :
  data_shape d0 d -> data_shape d0 (hemi_data_turn ihem iy d).
Proof.
  intros [Hr Hb]. unfold hemi_data_turn. cbv zeta.
  apply (for_each_invariant (data_shape d0)).
  - intros m s [Hr' Hb']. unfold hemi_month_turn.
    destruct (_ && _); [|now split].
    split; [now rewrite rows_set3 | now apply blocks12_set3].
  - split; [now rewrite rows_set2|].
    apply blocks12_set2; [exact Hb | apply repeat_length].
Qed.

Lemma alternate_global_shape (glb : Z) (iyrs : nat)
  (data data1 : list (list (list Q))) (ann ann1 : list (list Q)) :
  alternate_global glb iyrs data ann = Ok (data1, ann1) ->
  blocks12 data ->
  rows ann1 = rows ann /\ data_shape data data1.
Proof.
  unfold alternate_global. intros H Hb.
  destruct (glb =? 0)%Z.
  - injection H as <- <-. repeat split; auto.
  - destruct (negb _); [discriminate|]. injection H as <- <-. split.
    + apply (for_each_invariant (fun s => rows s = rows ann));
        [|reflexivity].
      intros iy s Hs. now rewrite global_ann_turn_rows.
    + apply (for_each_invariant (data_shape data)).
      * intros iy s Hs. now apply global_data_turn_shape.
      * split; [reflexivity | exact Hb].
Qed.

Lemma alternate_hemi_shape (hemi : bool) (iyrs : nat)
  (data : list (list (list Q))) (ann : list (list Q)) :
  blocks12 data ->
  rows (snd (alternate_hemi hemi iyrs data ann)) = rows ann
  /\ data_shape data (fst (alternate_hemi hemi iyrs data ann)).
Proof.
  intros Hb. destruct hemi.
  - rewrite alternate_hemi_true. cbn [fst snd]. split.
    + apply (for_each_invariant (fun s => rows s = rows ann)).
      * intros iy s Hs. now rewrite hemi_ann_turn_rows.
      * apply (for_each_invariant (fun s => rows s = rows ann));
          [|reflexivity].
        intros iy s Hs. now rewrite hemi_ann_turn_rows.
    + apply (for_each_invariant (data_shape data)).
      * intros iy s Hs. now apply hemi_data_turn_shape.
      * apply (for_each_invariant (data_shape data)).
        -- intros iy s Hs. now apply hemi_data_turn_shape.
        -- split; [reflexivity | exact Hb].
  - simpl. repeat split; auto.
Qed.

(** The blocks of [group12]. *)
Lemma group12_nth (l : list Q) (Y : nat) :
  (Y < length l / 12)%nat ->
  nth Y (group12 l) [] = firstn 12 (skipn (12 * Y) l).
Proof.
  intros HY. unfold group12.
  rewrite (nth_indep _ [] ((fun i => firstn 12 (skipn (12 * i) l)) 0%nat))
    by (now rewrite length_map, length_seq).
  rewrite (map_nth (fun i => firstn 12 (skipn (12 * i) l))).
  now rewrite seq_nth.
Qed.

Lemma group12_full (l : list Q) :
  Forall (fun yr : list Q => length yr = 12%nat) (group12 l).
Proof.
  unfold group12. apply Forall_forall. intros yr Hyr.
  apply in_map_iff in Hyr. destruct Hyr as (i & <- & Hi).
  apply in_seq in Hi.
  rewrite length_firstn, length_skipn.
  pose proof (Nat.Div0.mul_div_le (length l) 12). nia.
Qed.

End ArrayShape.

(** ** [annzon]: the alternate means, on the input *)

Section AnnzonBlends.
Import Step5.
Local Open Scope Q_scope.

Variable zone_annual_min_months : Z.

Local Abbreviation year_mean := (year_mean zone_annual_min_months).
Local Abbreviation annual_means := (annual_means zone_annual_min_months).
Local Abbreviation annzon := (annzon zone_annual_min_months).

(** [a[z][i]] and [d[z][i][m]], where the array holds them. *)
Definition entry2 (a : list (list Q)) (z i : nat) : option Q :=
  nth_error (nth z a []) i.

Definition entry3 (d : list (list (list Q))) (z i m : nat) : option Q :=
  nth_error (nth i (nth z d []) []) m.

(** The months of the year [Y] in the series of the zone [z] of the input
    stream, and the month [M] of that year. *)
Definition zone_year (zs : list zone_t) (z Y : nat) : list Q :=
  firstn 12 (skipn (12 * Y) (fst (nth z zs ([], [])))).

Definition zone_month (zs : list zone_t) (z Y M : nat) : option Q :=
  nth_error (fst (nth z zs ([], []))) (12 * Y + M).

(** [v] is the annual value of the zone [z] for the year [Y]: what the loop
    over the months makes of the zone's months of that year, and what the
    returned array holds. *)
Definition annual_value (zs : list zone_t) (r : annzon_t) (z Y : nat)
  (v : Q) : Prop :=
  year_mean (zone_year zs z Y) = Ok v /\ entry2 (az_ann r) z Y = Some v.

(** [v] is the monthly value of the zone [z] for the year [Y] and the month
    [M]: what the input stream holds, and what the returned array holds. *)
Definition monthly_value (zs : list zone_t) (r : annzon_t) (z Y M : nat)
  (v : Q) : Prop :=
  zone_month zs z Y M = Some v /\ entry3 (az_data r) z Y M = Some v.

Lemma entry2_get2 (a : list (list Q)) (z i : nat) :
  (i < length (nth z a []))%nat -> entry2 a z i = Some (get2 a z i).
Proof. intros H. unfold entry2, get2. now apply nth_error_nth'. Qed.

Lemma entry3_get3 (d : list (list (list Q))) (z i m : nat) :
  (m < length (nth i (nth z d []) []))%nat ->
  entry3 d z i m = Some (get3 d z i m).
Proof. intros H. unfold entry3, get3. now apply nth_error_nth'. Qed.

Lemma input_data_nth (zs : list zone_t) (z : nat) :
  (16 <= length zs)%nat -> (z < 16)%nat ->
  nth z (input_data zs) [] = group12 (fst (nth z zs ([], []))).
Proof.
  intros H16 Hz. unfold input_data.
  rewrite (nth_indep _ [] ((fun z : zone_t => group12 (fst z)) ([], [])))
    by (rewrite length_map, length_firstn; lia).
  rewrite (map_nth (fun z : zone_t => group12 (fst z))).
  rewrite nth_firstn.
  destruct (Nat.ltb_spec z 16); [reflexivity | lia].
Qed.

Lemma input_data_blocks12 (zs : list zone_t) : blocks12 (input_data zs).
Proof.
  unfold blocks12, input_data. apply Forall_forall. intros row Hrow.
  apply in_map_iff in Hrow. destruct Hrow as (z & <- & _).
  apply group12_full.
Qed.

Lemma input_data_year (m : meta) (zs : list zone_t) (z Y : nat) :
  well_formed m zs -> (z < 16)%nat -> (Y < monm m / 12)%nat ->
  nth Y (nth z (input_data zs) []) [] = zone_year zs z Y.
Proof.
  intros [H16 Hlen] Hz HY.
  rewrite input_data_nth by assumption.
  apply group12_nth.
  apply Nat.lt_le_trans with (monm m / 12)%nat; [exact HY|].
  apply Nat.Div0.div_le_mono, Hlen, Hz.
Qed.

Lemma input_data_month (m : meta) (zs : list zone_t) (z Y M : nat) :
  well_formed m zs -> (z < 16)%nat -> (Y < monm m / 12)%nat ->
  (M < 12)%nat ->
  zone_month zs z Y M = Some (get3 (input_data zs) z Y M).
Proof.
  intros Hwf Hz HY HM. unfold get3, zone_month.
  rewrite (input_data_year m) by assumption. unfold zone_year.
  pose proof Hwf as [_ Hlen]. specialize (Hlen z Hz).
  set (l := fst (nth z zs ([], []))) in *.
  assert (Hl : (12 * Y + M < length l)%nat).
  { pose proof (Nat.Div0.div_le_mono _ _ 12 Hlen).
    pose proof (Nat.Div0.mul_div_le (length l) 12). nia. }
  rewrite (nth_error_nth' l MISSING Hl). f_equal.
  rewrite nth_firstn.
  destruct (Nat.ltb_spec M 12); [|lia].
  now rewrite nth_skipn.
Qed.

(** What [annzon] returns on a well-formed input: the shape of its arrays,
    and the zones that no alternate estimator replaces. *)
Lemma annzon_result (m : meta) (zs : list zone_t) (alternate : alternate_t) :
  well_formed m zs ->
  (1 <= zone_annual_min_months)%Z ->
  (0 <= alt_global alternate <= 2)%Z ->
  exists r,
    annzon m zs alternate = Ok r
    /\ length (az_ann r) = 16%nat
    /\ length (az_data r) = 16%nat
    /\ (forall z, (z < 16)%nat ->
          length (nth z (az_ann r) []) = (monm m / 12)%nat)
    /\ (forall z Y, (z < 16)%nat -> (Y < monm m / 12)%nat ->
          length (nth Y (nth z (az_data r) []) []) = 12%nat)
    /\ forall z Y, (z < 16)%nat -> (Y < monm m / 12)%nat ->
         (alt_global alternate <> 0%Z -> z <> 15%nat) ->
         (alt_hemi alternate = true -> z <> 11%nat /\ z <> 12%nat) ->
         year_mean (zone_year zs z Y) = Ok (get2 (az_ann r) z Y)
         /\ forall M, (M < 12)%nat ->
              zone_month zs z Y M = Some (get3 (az_data r) z Y M).
Proof.
  intros Hwf Hmin Hglb. pose proof Hwf as [H16 _].
  destruct (annzon_stages zone_annual_min_months m zs alternate Hwf Hmin)
    as (ann & _ & Hla & Hrows & Hvals & Hrest).
  set (iyrs := (monm m / 12)%nat) in *.
  pose proof (input_data_length zs H16) as Hld.
  pose proof (input_data_blocks12 zs) as Hb.
  assert (Hg : exists data1 ann1,
             alternate_global (alt_global alternate) iyrs (input_data zs) ann
             = Ok (data1, ann1)
             /\ (forall z, (alt_global alternate <> 0%Z -> z <> 15%nat) ->
                   nth z ann1 [] = nth z ann []
                   /\ nth z data1 [] = nth z (input_data zs) [])).
  { assert (Hcases : alt_global alternate = 0%Z \/ alt_global alternate = 1%Z
                     \/ alt_global alternate = 2%Z) by lia.
    assert (Hblend : forall zone, Forall (fun z => z <> 15%nat) zone ->
              forall z, z <> 15%nat ->
                nth z (for_each (seq 0 iyrs) (global_ann_turn zone) ann) []
                = nth z ann []
                /\ nth z (for_each (seq 0 iyrs) (global_data_turn zone)
                            (input_data zs)) []
                   = nth z (input_data zs) []).
    { intros zone Hzone z Hz.
      destruct (global_ann_loop zone Hzone iyrs ann Hla) as [Hsa _].
      { apply Hrows. lia. }
      destruct (global_data_loop zone Hzone iyrs (input_data zs) Hld)
        as [Hsd _].
      { apply (input_data_row m); [exact Hwf | lia]. }
      split; symmetry; [apply Hsa | apply Hsd]; exact Hz. }
    destruct Hcases as [E | [E | E]]; rewrite E.
    - exists (input_data zs), ann. split; [reflexivity|]. now split.
    - do 2 eexists. split; [reflexivity|]. intros z Hz.
      apply Hblend; [repeat constructor; lia | apply Hz; discriminate].
    - do 2 eexists. split; [reflexivity|]. intros z Hz.
      apply Hblend; [repeat constructor; lia | apply Hz; discriminate]. }
  destruct Hg as (data1 & ann1 & Hg & Hkeep).
  destruct (alternate_global_shape _ _ _ _ _ _ Hg Hb) as [Hra1 [Hrd1 Hb1]].
  destruct (Hrest _ _ Hg) as (r & Hr & Hd & Ha).
  destruct (alternate_hemi_shape (alt_hemi alternate) iyrs data1 ann1 Hb1)
    as [Hra [Hrd Hbr]].
  rewrite <- Ha in Hra. rewrite <- Hd in Hrd, Hbr.
  rewrite Hra1 in Hra. rewrite Hrd1 in Hrd.
  destruct (rows_eq _ _ Hra) as [Hlen_a Hrow_a].
  destruct (rows_eq _ _ Hrd) as [Hlen_d Hrow_d].
  assert (Hframe : forall z,
            (alt_global alternate <> 0%Z -> z <> 15%nat) ->
            (alt_hemi alternate = true -> z <> 11%nat /\ z <> 12%nat) ->
            nth z (az_ann r) [] = nth z ann []
            /\ nth z (az_data r) [] = nth z (input_data zs) []).
  { intros z Hz15 Hzh. destruct (Hkeep z Hz15) as [Ea Ed].
    rewrite <- Ea, <- Ed, Ha, Hd.
    destruct (alt_hemi alternate) eqn:E.
    - destruct (alternate_hemi_frame true iyrs data1 ann1) as [Fd Fa].
      destruct (Hzh eq_refl) as [H11 H12].
      split; symmetry; [apply Fa | apply Fd]; assumption.
    - split; reflexivity. }
  exists r. split; [exact Hr|].
  split; [lia|]. split; [lia|].
  split; [intros z Hz; rewrite Hrow_a; now apply Hrows|].
  split.
  { intros z Y Hz HY. apply blocks12_nth; [exact Hbr|].
    rewrite Hrow_d.
    apply Nat.lt_le_trans with iyrs; [exact HY|].
    now apply (input_data_row m). }
  intros z Y Hz HY Hz15 Hzh.
  destruct (Hframe z Hz15 Hzh) as [Ea Ed]. split.
  - unfold get2. rewrite Ea. fold (get2 ann z Y).
    rewrite <- (input_data_year m) by assumption.
    now apply Hvals.
  - intros M HM. unfold get3. rewrite Ed.
    now apply (input_data_month m).
Qed.

(** C6.  With the alternate global estimator enabled in variant 1 or 2,
    [annzon] returns arrays of 16 zones in which, for every year, the last
    zone's annual value, and for every month its monthly value, is
    [0.1 * (3 za + 2 zb + 2 zc + 3 zd)] when the four values of the zones
    [(a, b, c, d)] for that year (and month) are valid, and [MISSING] as soon
    as one of them is [MISSING]; the four values are the annual means (the
    monthly values) of those zones of the input, which the arrays hold
    unchanged, and [(a, b, c, d)] is [(8, 9, 9, 10)] in variant 1 and
    [(8, 3, 4, 10)] in variant 2. *)
Theorem annzon_alternate_global (m : meta) (zs : list zone_t)
  (alternate : alternate_t) (a b c d : nat) :
  well_formed m zs ->
  (1 <= zone_annual_min_months)%Z ->
  (alt_global alternate = 1%Z /\ (a, b, c, d) = (8, 9, 9, 10)%nat)
  \/ (alt_global alternate = 2%Z /\ (a, b, c, d) = (8, 3, 4, 10)%nat) ->
  exists r,
    annzon m zs alternate = Ok r
    /\ length (az_ann r) = 16%nat
    /\ length (az_data r) = 16%nat
    /\ forall Y, (Y < monm m / 12)%nat ->
         (exists za zb zc zd out,
             annual_value zs r a Y za /\ annual_value zs r b Y zb
             /\ annual_value zs r c Y zc /\ annual_value zs r d Y zd
             /\ entry2 (az_ann r) 15 Y = Some out
             /\ blended za zb zc zd out)
         /\ forall M, (M < 12)%nat ->
              exists ma mb mc md out,
                monthly_value zs r a Y M ma /\ monthly_value zs r b Y M mb
                /\ monthly_value zs r c Y M mc /\ monthly_value zs r d Y M md
                /\ entry3 (az_data r) 15 Y M = Some out
                /\ blended ma mb mc md out.
Proof.
  intros Hwf Hmin Hv.
  destruct (global_blend_values zone_annual_min_months m zs alternate
              a b c d Hwf Hmin Hv) as (r & Hr & Hblend).
  destruct (annzon_result m zs alternate Hwf Hmin) as (r' & Hr' & Hres).
  { destruct Hv as [[-> _] | [-> _]]; lia. }
  rewrite Hr in Hr'. injection Hr' as <-.
  destruct Hres as (Hla & Hld & Hrow & Hyr & Hkeep).
  exists r. split; [exact Hr|]. split; [exact Hla|]. split; [exact Hld|].
  assert (Hz : Forall (fun z => (z < 16)%nat
                  /\ (alt_global alternate <> 0%Z -> z <> 15%nat)
                  /\ (alt_hemi alternate = true -> z <> 11%nat /\ z <> 12%nat))
                 [a; b; c; d]).
  { destruct Hv as [[_ E] | [_ E]]; injection E as -> -> -> ->;
      repeat constructor; lia. }
  assert (Hann : forall z Y, In z [a; b; c; d] -> (Y < monm m / 12)%nat ->
            annual_value zs r z Y (get2 (az_ann r) z Y)).
  { intros z Y Hin HY.
    destruct (proj1 (Forall_forall _ _) Hz z Hin) as (Hz16 & Hz15 & Hzh).
    split.
    - now apply (Hkeep z Y).
    - apply entry2_get2. now rewrite Hrow. }
  assert (Hmon : forall z Y M, In z [a; b; c; d] -> (Y < monm m / 12)%nat ->
            (M < 12)%nat ->
            monthly_value zs r z Y M (get3 (az_data r) z Y M)).
  { intros z Y M Hin HY HM.
    destruct (proj1 (Forall_forall _ _) Hz z Hin) as (Hz16 & Hz15 & Hzh).
    split.
    - now apply (Hkeep z Y).
    - apply entry3_get3. now rewrite Hyr. }
  intros Y HY. destruct (Hblend Y HY) as [Ha Hd]. split.
  - exists (get2 (az_ann r) a Y), (get2 (az_ann r) b Y),
      (get2 (az_ann r) c Y), (get2 (az_ann r) d Y), (get2 (az_ann r) 15 Y).
    do 4 (split; [apply Hann; [simpl; tauto | exact HY]|]).
    split; [|exact Ha].
    apply entry2_get2. rewrite Hrow; [exact HY | lia].
  - intros M HM.
    exists (get3 (az_data r) a Y M), (get3 (az_data r) b Y M),
      (get3 (az_data r) c Y M), (get3 (az_data r) d Y M),
      (get3 (az_data r) 15 Y M).
    do 4 (split; [apply Hmon; [simpl; tauto | exact HY | exact HM]|]).
    split; [|exact (Hd M HM)].
    apply entry3_get3. rewrite Hyr; [exact HM | lia | exact HY].
Qed.

(** X24.  With the alternate hemispheric means enabled, [annzon] returns
    arrays of 16 zones in which the annual value of zone 11 (12) for every
    year, and its monthly value for every year and month, is
    [0.4 x + 0.6 y] when the values [x] of zone 3 (4) and [y] of zone 8 (10)
    are valid, and [MISSING] when one of them is [MISSING]; [x] and [y] are
    the annual means (the monthly values) of those zones of the input, which
    the arrays hold unchanged. *)
Theorem annzon_alternate_hemi (m : meta) (zs : list zone_t)
  (alternate : alternate_t) (ihem Y : nat) :
  well_formed m zs ->
  (1 <= zone_annual_min_months)%Z ->
  (0 <= alt_global alternate <= 2)%Z ->
  alt_hemi alternate = true ->
  (ihem < 2)%nat -> (Y < monm m / 12)%nat ->
  exists r,
    annzon m zs alternate = Ok r
    /\ length (az_ann r) = 16%nat
    /\ length (az_data r) = 16%nat
    /\ (exists x y out,
           annual_value zs r (ihem + 3) Y x
           /\ annual_value zs r (2 * ihem + 8) Y y
           /\ entry2 (az_ann r) (ihem + 11) Y = Some out
           /\ hemi_blended x y out)
    /\ forall M, (M < 12)%nat ->
         exists x y out,
           monthly_value zs r (ihem + 3) Y M x
           /\ monthly_value zs r (2 * ihem + 8) Y M y
           /\ entry3 (az_data r) (ihem + 11) Y M = Some out
           /\ hemi_blended x y out.
Proof.
  intros Hwf Hmin Hglb Hhemi Hihem HY.
  destruct (hemi_blend_values zone_annual_min_months m zs alternate
              ihem Y Hwf Hmin Hglb Hhemi Hihem HY) as (r & Hr & Ha & Hd).
  destruct (annzon_result m zs alternate Hwf Hmin Hglb) as (r' & Hr' & Hres).
  rewrite Hr in Hr'. injection Hr' as <-.
  destruct Hres as (Hla & Hld & Hrow & Hyr & Hkeep).
  exists r. split; [exact Hr|]. split; [exact Hla|]. split; [exact Hld|].
  assert (Hx : year_mean (zone_year zs (ihem + 3) Y)
               = Ok (get2 (az_ann r) (ihem + 3) Y)
               /\ forall M, (M < 12)%nat ->
                    zone_month zs (ihem + 3) Y M
                    = Some (get3 (az_data r) (ihem + 3) Y M)).
  { apply Hkeep; try assumption; lia. }
  assert (Hy : year_mean (zone_year zs (2 * ihem + 8) Y)
               = Ok (get2 (az_ann r) (2 * ihem + 8) Y)
               /\ forall M, (M < 12)%nat ->
                    zone_month zs (2 * ihem + 8) Y M
                    = Some (get3 (az_data r) (2 * ihem + 8) Y M)).
  { apply Hkeep; try assumption; lia. }
  split.
  - exists (get2 (az_ann r) (ihem + 3) Y), (get2 (az_ann r) (2 * ihem + 8) Y),
      (get2 (az_ann r) (ihem + 11) Y).
    split; [split; [apply Hx | apply entry2_get2; rewrite Hrow; lia]|].
    split; [split; [apply Hy | apply entry2_get2; rewrite Hrow; lia]|].
    split; [apply entry2_get2; rewrite Hrow; lia | exact Ha].
  - intros M HM.
    exists (get3 (az_data r) (ihem + 3) Y M),
      (get3 (az_data r) (2 * ihem + 8) Y M),
      (get3 (az_data r) (ihem + 11) Y M).
    split; [split; [now apply Hx | apply entry3_get3; rewrite Hyr; lia]|].
    split; [split; [now apply Hy | apply entry3_get3; rewrite Hyr; lia]|].
    split; [apply entry3_get3; rewrite Hyr; lia | exact (Hd M HM)].
Qed.

End AnnzonBlends.

(** ** The land mask and the choice of cells *)

Section LandOcean.
Import Step5 Step5Cells.
Local Open Scope Z_scope.

Variable combine :
  list Q -> list Q -> list Q -> weight_arg -> Z -> list Q * list Q * list Z.
Variable anomalize : list Q -> Z * Z -> Z -> list Q.
Variable box_min_overlap : Z.
Variable subbox_min_valid : Z.
Variable subbox_reference_period : Z * Z.
Variable centre : region -> Q * Q.
Variable grid : list region.
Variable subbox_land_range : Q.
Variable d : cell -> Q.
Variable first_valid_month : cell -> Z.
Variable last_valid_month : cell -> Z.
Variable header : result unit.
Variable report : cell -> result unit.

Local Abbreviation landmask := (landmask subbox_min_valid subbox_land_range d).
Local Abbreviation ensure_weight :=
  (ensure_weight subbox_min_valid subbox_land_range d).
Local Abbreviation choose_turn :=
  (choose_turn first_valid_month last_valid_month report).
Local Abbreviation choose_loop :=
  (choose_loop first_valid_month last_valid_month report).
Local Abbreviation choose_cells :=
  (choose_cells first_valid_month last_valid_month report).
Local Abbreviation subbox_to_box_of :=
  (subbox_to_box_of combine anomalize box_min_overlap subbox_min_valid
     subbox_reference_period centre grid).
Local Abbreviation land_ocean_boxes :=
  (land_ocean_boxes combine anomalize box_min_overlap subbox_min_valid
     subbox_reference_period centre grid first_valid_month last_valid_month
     header report).

Definition weight_of (t : triple) : weight_t := fst (fst t).
Definition land_of (t : triple) : cell := snd (fst t).
Definition ocean_of (t : triple) : cell := snd t.

(** The cell of a triple that goes to the mixed analysis. *)
Definition picked (t : triple) : cell :=
  if weight_truthy (weight_of t) then land_of t else ocean_of t.

(** A triple that the loop gets past: its weight is 0 or 1 and the lines
    for its land cell are written. *)
Definition accepted (t : triple) : Prop :=
  in_0_1 (weight_of t) = true /\ report (land_of t) = Ok tt.

(** The ranges after one more triple. *)
Definition range_turn (r : ranges) (t : triple) : ranges :=
  if weight_truthy (weight_of t) then
    Ranges (Z.min (minland r) (first_valid_month (land_of t)))
           (Z.max (maxland r) (last_valid_month (land_of t)))
           (minocean r) (maxocean r)
  else
    Ranges (minland r) (maxland r)
           (Z.min (minocean r) (first_valid_month (ocean_of t)))
           (Z.max (maxocean r) (last_valid_month (ocean_of t))).

(** X25.  [ensure_weight] leaves its own output alone: a mask that it
    computed is marked in the metadata, so a second pass yields the stream
    as it is. *)
Theorem ensure_weight_idempotent (data : mask_meta * list triple) :
  ensure_weight (ensure_weight data) = ensure_weight data.
Proof.
  destruct data as [mm cells]. unfold Step5Cells.ensure_weight.
  destruct (mask_truthy mm) eqn:E.
  - now rewrite E.
  - reflexivity.
Qed.

Lemma choose_turn_ok (s : chosen) (t : triple) :
  accepted t ->
  choose_turn s t
  = Ok (Chosen (land s ++ [land_of t]) (mixed s ++ [picked t])
          (range_turn (month_ranges s) t)).
Proof.
  destruct t as [[w l] o]. intros [Hw Hr].
  unfold weight_of, land_of in Hw, Hr. simpl in Hw, Hr.
  unfold Step5Cells.choose_turn, picked, range_turn, weight_of, land_of,
    ocean_of.
  cbn [fst snd]. rewrite Hw.
  destruct (weight_truthy w); rewrite Hr; reflexivity.
Qed.

Lemma choose_turn_accepted (s s' : chosen) (t : triple) :
  choose_turn s t = Ok s' -> accepted t.
Proof.
  destruct t as [[w l] o]. unfold Step5Cells.choose_turn, accepted, weight_of,
    land_of.
  cbn [fst snd]. destruct (in_0_1 w); [|discriminate].
  destruct (weight_truthy w); destruct (report l) as [[]|e]; simpl;
    intros H; try discriminate; now split.
Qed.

Lemma choose_loop_ok (cells : list triple) (s : chosen) :
  Forall accepted cells ->
  choose_loop cells s
  = Ok (Chosen (land s ++ map land_of cells) (mixed s ++ map picked cells)
          (fold_left range_turn cells (month_ranges s))).
Proof.
  intros H. revert s. induction H as [|t cells Ht _ IH]; intros s.
  - simpl. rewrite !app_nil_r. now destruct s.
  - cbn [Step5Cells.choose_loop]. rewrite (choose_turn_ok s t Ht), bind_Ok.
    rewrite IH. cbn [land mixed month_ranges map fold_left].
    now rewrite <- !app_assoc.
Qed.

Lemma choose_loop_accepted (cells : list triple) (s s' : chosen) :
  choose_loop cells s = Ok s' -> Forall accepted cells.
Proof.
  revert s. induction cells as [|t cells IH]; intros s H.
  - constructor.
  - cbn [Step5Cells.choose_loop] in H.
    destruct (choose_turn s t) as [s1|e] eqn:E; [|discriminate].
    rewrite bind_Ok in H. constructor.
    + exact (choose_turn_accepted s s1 t E).
    + exact (IH s1 H).
Qed.

Lemma land_ocean_boxes_ok (land_meta ocean_meta : subbox_meta)
  (cells : list triple) :
  header = Ok tt ->
  sm_mavg land_meta = 6 -> cells <> [] -> Forall accepted cells ->
  let r := fold_left range_turn cells
             (Ranges 999999 (-999999) 999999 (-999999)) in
  let mm := itermixed_meta land_meta ocean_meta r in
  land_ocean_boxes land_meta ocean_meta cells
  = Ok (Analyses land_meta (mm_months_data mm)
          (subbox_to_box_of (sm_yrbeg land_meta) (sm_monm land_meta)
             (map land_of cells))
          mm
          (subbox_to_box_of (mm_yrbeg mm) (Z.to_nat (mm_monm mm))
             (map picked cells))).
Proof.
  intros Hh Hm Hne Hacc. cbv zeta. unfold Step5Cells.land_ocean_boxes.
  rewrite Hh, bind_Ok, Hm, Z.eqb_refl. unfold Step5Cells.choose_cells.
  rewrite (choose_loop_ok cells _ Hacc), bind_Ok.
  destruct cells as [|t cells]; [contradiction|].
  rewrite bind_Ok. reflexivity.
Qed.

Lemma land_ocean_boxes_accepts (land_meta ocean_meta : subbox_meta)
  (cells : list triple) (r : analyses) :
  land_ocean_boxes land_meta ocean_meta cells = Ok r ->
  header = Ok tt /\ sm_mavg land_meta = 6 /\ cells <> []
  /\ Forall accepted cells.
Proof.
  intros H. unfold Step5Cells.land_ocean_boxes in H.
  destruct header as [[]|e0]; [|discriminate]. rewrite bind_Ok in H.
  destruct (sm_mavg land_meta =? 6) eqn:Em; [|discriminate].
  apply Z.eqb_eq in Em.
  destruct (choose_cells cells) as [s|e] eqn:E; [|discriminate].
  rewrite bind_Ok in H.
  split; [reflexivity|]. split; [exact Em|]. split.
  - intros ->. discriminate.
  - exact (choose_loop_accepted cells _ s E).
Qed.

(** X26.  [land_ocean_boxes] returns exactly when the header of the land
    file is written, [mavg] of the land metadata is 6, the stream has at
    least one cell, every weight is 0 or 1 and the lines of every land cell
    are written; a fractional weight, a weight [None] and an empty stream
    all make it raise. *)
Theorem land_ocean_boxes_returns_iff (land_meta ocean_meta : subbox_meta)
  (cells : list triple) :
  (exists r, land_ocean_boxes land_meta ocean_meta cells = Ok r)
  <-> header = Ok tt /\ sm_mavg land_meta = 6 /\ cells <> []
      /\ Forall accepted cells.
Proof.
  split.
  - intros [r H].
    exact (land_ocean_boxes_accepts land_meta ocean_meta cells r H).
  - intros (Hh & Hm & Hne & Hacc). eexists.
    apply (land_ocean_boxes_ok land_meta ocean_meta cells Hh Hm Hne Hacc).
Qed.

Lemma map_land_of_ensure (cells : list triple) :
  map land_of
    (map (fun t : triple =>
            let '(_, l, o) := t in (Some (landmask l o), l, o)) cells)
  = map land_of cells.
Proof.
  rewrite map_map. apply map_ext. now intros [[w l] o].
Qed.

(** The cell that the computed mask sends to the mixed analysis. *)
Definition mask_choice (t : triple) : cell :=
  if (cell_good_count (ocean_of t) <? subbox_min_valid)
     || Qlt_bool (d (land_of t)) subbox_land_range
  then land_of t
  else ocean_of t.

Lemma map_picked_ensure (cells : list triple) :
  map picked
    (map (fun t : triple =>
            let '(_, l, o) := t in (Some (landmask l o), l, o)) cells)
  = map mask_choice cells.
Proof.
  rewrite map_map. apply map_ext. intros [[w l] o].
  unfold picked, mask_choice, weight_of, land_of, ocean_of,
    Step5Cells.landmask.
  cbn [fst snd].
  now destruct ((cell_good_count o <? subbox_min_valid)
                || Qlt_bool (d l) subbox_land_range).
Qed.

(** X27.  On a stream without a mask, [land_ocean_boxes] applied to what
    [ensure_weight] yields never fails the check of the weights: with
    the header written, [mavg] 6, at least one cell and the lines of every
    land cell written, it returns; the land analysis is [subbox_to_box] of every land cell in
    stream order, and the mixed analysis is [subbox_to_box] of, for each
    triple, the land cell when the ocean cell has fewer than
    [subbox_min_valid] good months or the land cell's [d] is below
    [subbox_land_range], and the ocean cell otherwise. *)
Theorem land_ocean_boxes_computed_mask (maskmeta : mask_meta)
  (land_meta ocean_meta : subbox_meta) (cells : list triple) :
  mask_truthy maskmeta = false ->
  header = Ok tt ->
  sm_mavg land_meta = 6 ->
  cells <> [] ->
  (forall t, In t cells -> report (land_of t) = Ok tt) ->
  exists r,
    land_ocean_boxes land_meta ocean_meta
      (snd (ensure_weight (maskmeta, cells))) = Ok r
    /\ land_boxes r
       = subbox_to_box_of (sm_yrbeg land_meta) (sm_monm land_meta)
           (map land_of cells)
    /\ mixed_boxes r
       = subbox_to_box_of (mm_yrbeg (mixed_meta_out r))
           (Z.to_nat (mm_monm (mixed_meta_out r)))
           (map mask_choice cells).
Proof.
  intros Hmask Hh Hm Hne Hrep. unfold Step5Cells.ensure_weight.
  rewrite Hmask. cbn [snd].
  eexists. split.
  - apply land_ocean_boxes_ok.
    + exact Hh.
    + exact Hm.
    + destruct cells; [contradiction | discriminate].
    + apply Forall_forall. intros t Ht. apply in_map_iff in Ht.
      destruct Ht as ([[w l] o] & <- & Hin). split.
      * unfold weight_of, Step5Cells.landmask. cbn [fst].
        now destruct ((cell_good_count o <? subbox_min_valid)
                      || Qlt_bool (d l) subbox_land_range).
      * exact (Hrep _ Hin).
  - cbn [land_boxes mixed_boxes mixed_meta_out].
    now rewrite map_land_of_ensure, map_picked_ensure.
Qed.

(** [m] is the least of [base] and the numbers [xs]. *)
Definition least (base : Z) (xs : list Z) (m : Z) : Prop :=
  m <= base /\ Forall (fun x => m <= x) xs /\ (m = base \/ In m xs).

(** [m] is the greatest of [base] and the numbers [xs]. *)
Definition greatest (base : Z) (xs : list Z) (m : Z) : Prop :=
  base <= m /\ Forall (fun x => x <= m) xs /\ (m = base \/ In m xs).

Lemma fold_min_least (xs : list Z) (base : Z) :
  least base xs (fold_left Z.min xs base).
Proof.
  revert base. induction xs as [|x xs IH]; intros base.
  - repeat split; [apply Z.le_refl | constructor | now left].
  - cbn [fold_left]. destruct (IH (Z.min base x)) as (H1 & H2 & H3).
    repeat split.
    + lia.
    + constructor; [lia | exact H2].
    + destruct H3 as [H3 | H3].
      * destruct (Z.min_spec base x) as [[_ E] | [_ E]].
        -- left. congruence.
        -- right. left. congruence.
      * right. now right.
Qed.

Lemma fold_max_greatest (xs : list Z) (base : Z) :
  greatest base xs (fold_left Z.max xs base).
Proof.
  revert base. induction xs as [|x xs IH]; intros base.
  - repeat split; [apply Z.le_refl | constructor | now left].
  - cbn [fold_left]. destruct (IH (Z.max base x)) as (H1 & H2 & H3).
    repeat split.
    + lia.
    + constructor; [lia | exact H2].
    + destruct H3 as [H3 | H3].
      * destruct (Z.max_spec base x) as [[_ E] | [_ E]].
        -- right. left. congruence.
        -- left. congruence.
      * right. now right.
Qed.

(** The land cells, and the ocean cells, that go to the mixed analysis. *)
Definition land_picked (cells : list triple) : list cell :=
  map land_of (filter (fun t => weight_truthy (weight_of t)) cells).

Definition ocean_picked (cells : list triple) : list cell :=
  map ocean_of (filter (fun t => negb (weight_truthy (weight_of t))) cells).

Lemma fold_range_turn (cells : list triple) (r : ranges) :
  fold_left range_turn cells r
  = Ranges
      (fold_left Z.min (map first_valid_month (land_picked cells))
         (minland r))
      (fold_left Z.max (map last_valid_month (land_picked cells))
         (maxland r))
      (fold_left Z.min (map first_valid_month (ocean_picked cells))
         (minocean r))
      (fold_left Z.max (map last_valid_month (ocean_picked cells))
         (maxocean r)).
Proof.
  revert r. induction cells as [|t cells IH]; intros r.
  - now destruct r.
  - cbn [fold_left]. rewrite IH. unfold range_turn, land_picked, ocean_picked.
    cbn [filter]. destruct (weight_truthy (weight_of t)); reflexivity.
Qed.

(** X28.  The month ranges that [land_ocean_boxes] stores in the mixed
    metadata: the land range is the least first valid month and the
    greatest last valid month over the land cells that go to the mixed
    analysis, starting from 999999 and -999999, and the ocean range is the
    same over the ocean cells that go to it; [months_data], of both
    metadata, is the greater of the two upper ends. *)
Theorem land_ocean_boxes_month_ranges (land_meta ocean_meta : subbox_meta)
  (cells : list triple) (r : analyses) :
  land_ocean_boxes land_meta ocean_meta cells = Ok r ->
  let mm := mixed_meta_out r in
  least 999999 (map first_valid_month (land_picked cells))
    (fst (land_month_range mm))
  /\ greatest (-999999) (map last_valid_month (land_picked cells))
       (snd (land_month_range mm))
  /\ least 999999 (map first_valid_month (ocean_picked cells))
       (fst (ocean_month_range mm))
  /\ greatest (-999999) (map last_valid_month (ocean_picked cells))
       (snd (ocean_month_range mm))
  /\ mm_months_data mm
     = Z.max (snd (land_month_range mm)) (snd (ocean_month_range mm))
  /\ land_months_data r = mm_months_data mm.
Proof.
  intros H.
  destruct (land_ocean_boxes_accepts land_meta ocean_meta cells r H)
    as (Hh & Hm & Hne & Hacc).
  rewrite (land_ocean_boxes_ok land_meta ocean_meta cells Hh Hm Hne Hacc)
    in H.
  injection H as <-. cbv zeta. cbn [mixed_meta_out land_months_data].
  rewrite fold_range_turn. unfold itermixed_meta.
  cbn [land_month_range ocean_month_range mm_months_data fst snd minland
       maxland minocean maxocean].
  repeat split; try apply fold_min_least; try apply fold_max_greatest.
Qed.

(** X29.  The timeline of the mixed analysis covers the whole years of the
    land and of the ocean timeline: it starts at the earlier first year, it
    ends at the later limit year, and its number of months is a multiple of
    12 that is not negative. *)
Theorem itermixed_meta_covers (land_meta ocean_meta : subbox_meta)
  (r : ranges) :
  let mm := itermixed_meta land_meta ocean_meta r in
  let limit (yrbeg monm : Z) := yrbeg + monm / 12 in
  mm_yrbeg mm = Z.min (sm_yrbeg land_meta) (sm_yrbeg ocean_meta)
  /\ limit (mm_yrbeg mm) (mm_monm mm)
     = Z.max (limit (sm_yrbeg land_meta) (Z.of_nat (sm_monm land_meta)))
             (limit (sm_yrbeg ocean_meta) (Z.of_nat (sm_monm ocean_meta)))
  /\ 0 <= mm_monm mm
  /\ mm_monm mm mod 12 = 0.
Proof.
  cbv zeta. unfold itermixed_meta. cbn [mm_yrbeg mm_monm].
  pose proof (Z.div_pos (Z.of_nat (sm_monm land_meta)) 12
                (Nat2Z.is_nonneg _) eq_refl) as Hl.
  pose proof (Z.div_pos (Z.of_nat (sm_monm ocean_meta)) 12
                (Nat2Z.is_nonneg _) eq_refl) as Ho.
  split; [reflexivity|]. split; [|split].
  - rewrite Z.div_mul by discriminate. lia.
  - lia.
  - apply Z.mod_mul. discriminate.
Qed.

End LandOcean.

(** ** Instances of the further properties *)

Section Step3MoreInstances.
Import Step3.
Local Open Scope R_scope.

Lemma quarter_turn : 0 < PI / 2 <= PI.
Proof. pose proof PI_RGT_0. lra. Qed.

Lemma quarter_turn_over_one : 0 < PI / 2 / 1 <= PI.
Proof. pose proof PI_RGT_0. lra. Qed.

Lemma incircle_quarter_turn :
  incircle [station_at 0 0 12] (PI / 2) 0 0
  = [(station_at 0 0 12, weight (PI / 2) 1)].
Proof.
  simpl. rewrite cosd_origin, cos_PI2.
  destruct (Rlt_dec 0 1) as [H | H]; [reflexivity | exfalso; lra].
Qed.

(** X1, an instance: a station at the target, an arc of a quarter turn. *)
Lemma incircle_weight_range_witness :
  0 < PI / 2 <= PI
  /\ In (station_at 0 0 12, weight (PI / 2) 1)
       (incircle [station_at 0 0 12] (PI / 2) 0 0)
  /\ 0 < weight (PI / 2) 1 <= 1.
Proof.
  assert (Hin : In (station_at 0 0 12, weight (PI / 2) 1)
                  (incircle [station_at 0 0 12] (PI / 2) 0 0))
    by (rewrite incircle_quarter_turn; left; reflexivity).
  split; [exact quarter_turn|]. split; [exact Hin|].
  apply (incircle_weight_range [station_at 0 0 12] (PI / 2) 0 0
           (station_at 0 0 12) (weight (PI / 2) 1) quarter_turn Hin).
Defined.

(** X3, an instance: the arc widened from a quarter turn to half a turn. *)
Lemma incircle_arc_monotone_witness :
  0 < PI / 2 /\ PI / 2 <= PI /\ PI <= PI
  /\ In (station_at 0 0 12, weight (PI / 2) 1)
       (incircle [station_at 0 0 12] (PI / 2) 0 0)
  /\ exists w2,
       In (station_at 0 0 12, w2) (incircle [station_at 0 0 12] PI 0 0)
       /\ weight (PI / 2) 1 <= w2.
Proof.
  assert (H1 : 0 < PI / 2) by apply quarter_turn.
  assert (H2 : PI / 2 <= PI) by apply quarter_turn.
  assert (H3 : PI <= PI) by apply Rle_refl.
  assert (Hin : In (station_at 0 0 12, weight (PI / 2) 1)
                  (incircle [station_at 0 0 12] (PI / 2) 0 0))
    by (rewrite incircle_quarter_turn; left; reflexivity).
  split; [exact H1|]. split; [exact H2|]. split; [exact H3|].
  split; [exact Hin|].
  apply (incircle_arc_monotone [station_at 0 0 12] (PI / 2) PI 0 0
           (station_at 0 0 12) (weight (PI / 2) 1) H1 H2 H3 Hin).
Defined.

(** X4, an instance: a centre at 84 degrees north. *)
Lemma pole_snap_thresholds_witness :
  83.5 <= 84 /\ pole_snap (84, 10) = (90, 0).
Proof.
  assert (H : 83.5 <= 84) by lra.
  split; [exact H|].
  apply (proj1 (pole_snap_thresholds 84 10) H).
Defined.

(** X7, an instance: the two stations on the equator, a radius of a quarter
    turn on a sphere of radius 1. *)
Lemma iter_subbox_grid_quality_range_witness :
  0 < PI / 2
  /\ 0 < PI / 2 / 1 <= PI
  /\ Forall2
       (fun s subbox =>
          cell_contributors 1 sample_centre [near_station; far_station]
            (PI / 2) subbox <> [] ->
          0 <= s_d s < PI / 2)
       (iter_subbox_grid combine_reject anomalize_keep 20 (1951, 1980)%Z 1
          sample_grid sample_centre [near_station; far_station] 24 1880
          (PI / 2))
       (grid_cells sample_grid).
Proof.
  assert (H1 : 0 < PI / 2) by apply quarter_turn.
  split; [exact H1|]. split; [exact quarter_turn_over_one|].
  apply (iter_subbox_grid_quality_range combine_reject anomalize_keep 20
           (1951, 1980)%Z 1 sample_grid sample_centre
           [near_station; far_station] 24 1880 (PI / 2) H1
           quarter_turn_over_one).
Defined.

End Step3MoreInstances.

Section Step5MoreInstances.
Import Step5 Step5Cells.
Local Open Scope Q_scope.

Lemma one_cell_in_grid (c : cell) :
  In c [cell_in west_box] -> whichbox mid two_boxes (cell_box c) <> None.
Proof. intros [<- | []]. discriminate. Qed.

(** X9, an instance: one cell, in the west box of two. *)
Lemma partition_cells_lookup_witness :
  (forall c, In c [cell_in west_box] ->
     whichbox mid two_boxes (cell_box c) <> None)
  /\ exists d,
       partition_cells mid two_boxes [cell_in west_box]
         (fold_left (fun d box => dict_set d box []) two_boxes [])
       = Ok d
       /\ forall box, In box two_boxes ->
            dict_get d box
            = Ok (contributors mid two_boxes [cell_in west_box] box).
Proof.
  split; [exact one_cell_in_grid|].
  apply (partition_cells_lookup mid two_boxes [cell_in west_box]
           one_cell_in_grid).
Defined.

Lemma two_boxes_distinct : distinct_boxes two_boxes.
Proof. repeat constructor. Qed.

(** X10, an instance: the same cell and grid. *)
Lemma contributors_partition_witness :
  distinct_boxes two_boxes
  /\ (forall c, In c [cell_in west_box] ->
        whichbox mid two_boxes (cell_box c) <> None)
  /\ list_sum
       (map (fun box =>
               length (contributors mid two_boxes [cell_in west_box] box))
          two_boxes)
     = 1%nat.
Proof.
  split; [exact two_boxes_distinct|]. split; [exact one_cell_in_grid|].
  apply (contributors_partition mid two_boxes [cell_in west_box]
           two_boxes_distinct one_cell_in_grid).
Defined.

(** X12, an instance: a cell of one year on a timeline of the same year. *)
Lemma padded_series_window_witness :
  (yrbeg one_year <= cell_first_year (cell_in west_box))%Z
  /\ (Z.to_nat (12 * (cell_first_year (cell_in west_box) - yrbeg one_year))
      + length (cell_series (cell_in west_box)) <= monm one_year)%nat
  /\ length (padded_series one_year (cell_in west_box)) = monm one_year
  /\ nth 3 (padded_series one_year (cell_in west_box)) MISSING
     = nth 3 (cell_series (cell_in west_box)) MISSING.
Proof.
  assert (H1 : (yrbeg one_year <= cell_first_year (cell_in west_box))%Z)
    by (simpl; lia).
  assert (H2 : (Z.to_nat
                  (12 * (cell_first_year (cell_in west_box) - yrbeg one_year))
                + length (cell_series (cell_in west_box))
                <= monm one_year)%nat)
    by (simpl; lia).
  split; [exact H1|]. split; [exact H2|].
  exact (padded_series_window one_year (cell_in west_box) 3 H1 H2).
Defined.

(** A cell that starts a year before the timeline. *)
Definition early_cell : cell := Cell (repeat 1 12) west_box 12 1879 "".

Definition two_years : meta := Meta 1880 24.

(** X13, an instance: the first value of a cell that starts one year early
    lands one year before the end of a timeline of two years. *)
Lemma padded_series_early_cell_witness :
  (cell_first_year early_cell < yrbeg two_years)%Z
  /\ (Z.to_nat (12 * (yrbeg two_years - cell_first_year early_cell))
      <= monm two_years)%nat
  /\ cell_series early_cell <> []
  /\ nth 12 (padded_series two_years early_cell) MISSING
     = nth 0 (cell_series early_cell) MISSING.
Proof.
  assert (H1 : (cell_first_year early_cell < yrbeg two_years)%Z)
    by (simpl; lia).
  assert (H2 : (Z.to_nat (12 * (yrbeg two_years - cell_first_year early_cell))
                <= monm two_years)%nat)
    by (simpl; lia).
  assert (H3 : cell_series early_cell <> []) by discriminate.
  split; [exact H1|]. split; [exact H2|]. split; [exact H3|].
  exact (padded_series_early_cell two_years early_cell H1 H2 H3).
Defined.

(** X14, an instance: the list of C1. *)
Lemma sort_perm_result_witness :
  sort_perm [1; 2]%Z = Ok ([1; 2]%Z, [0; 1]%nat)
  /\ Permutation [1; 2]%Z [1; 2]%Z
  /\ [1; 2]%Z = map (fun i => nth i [1; 2]%Z 0%Z) [0; 1]%nat.
Proof.
  assert (H : sort_perm [1; 2]%Z = Ok ([1; 2]%Z, [0; 1]%nat)) by reflexivity.
  split; [exact H|].
  destruct (sort_perm_result [1; 2]%Z [1; 2]%Z [0; 1]%nat H)
    as (_ & _ & Hp & _ & Hs & _).
  split; [exact Hp | exact Hs].
Defined.

Lemma two_one_descending : descending [2; 1]%Z.
Proof.
  repeat constructor. discriminate.
Qed.

(** X15, an instance. *)
Lemma sort_perm_descending_input_witness :
  descending [2; 1]%Z
  /\ [2; 1]%Z <> []
  /\ sort_perm [2; 1]%Z = Ok ([2; 1]%Z, [0; 1]%nat).
Proof.
  assert (H : [2; 1]%Z <> []) by discriminate.
  split; [exact two_one_descending|]. split; [exact H|].
  exact (sort_perm_descending_input [2; 1]%Z two_one_descending H).
Defined.

(** X16, an instance: a stream of 13 boxes, which fills two bands. *)
Lemma zonav_short_stream_witness :
  (length (repeat full_box 13) < 80)%nat
  /\ exists bands_out,
       zonav combine_decline anomalize_same 20 (1951, 1980)%Z one_year
         (repeat full_box 13)
       = (Gen bands_out (Some StopIteration), [])
       /\ length bands_out = 2%nat
       /\ consumed true
            (fst (zonav combine_decline anomalize_same 20 (1951, 1980)%Z
                    one_year (repeat full_box 13)))
          = Gen bands_out (Some RuntimeError)
       /\ consumed false
            (fst (zonav combine_decline anomalize_same 20 (1951, 1980)%Z
                    one_year (repeat full_box 13)))
          = Gen bands_out None.
Proof.
  assert (H : (length (repeat full_box 13) < 80)%nat)
    by (rewrite repeat_length; repeat constructor).
  split; [exact H|].
  destruct (zonav_short_stream combine_decline anomalize_same 20
              (1951, 1980)%Z one_year (repeat full_box 13) H)
    as (bands_out & Hz & Hc & Hl & _).
  exists bands_out. split; [exact Hz|]. split; [exact Hl|].
  split; [exact (Hc true) | exact (Hc false)].
Defined.

(** X18, an instance: a stream of 15 zones. *)
Lemma annzon_too_few_zones_witness :
  (length (repeat (flat_zone 1) 15) < 16)%nat
  /\ annzon 6 one_year (repeat (flat_zone 1) 15) default_alternate
     = Raise StopIteration.
Proof.
  assert (H : (length (repeat (flat_zone 1) 15) < 16)%nat)
    by (rewrite repeat_length; apply le_n).
  split; [exact H|].
  exact (annzon_too_few_zones 6 one_year (repeat (flat_zone 1) 15)
           default_alternate H).
Defined.

Lemma six_months : (1 <= 6)%Z.
Proof. discriminate. Qed.

(** X19, an instance: the selector 3. *)
Lemma annzon_bad_selector_witness :
  well_formed one_year sample_zones
  /\ (1 <= 6)%Z
  /\ annzon 6 one_year sample_zones (Alternate 3 true)
     = Raise (AssertionError EmptyString).
Proof.
  split; [exact sample_zones_well_formed|]. split; [exact six_months|].
  apply (annzon_bad_selector 6 one_year sample_zones (Alternate 3 true)
           sample_zones_well_formed six_months); discriminate.
Defined.

(** X20, an instance: zones of one year read with the metadata of two. *)
Lemma annzon_short_zone_witness :
  (16 <= length sample_zones)%nat
  /\ (length (fst (nth 0 sample_zones ([], []))) / 12 < monm two_years / 12)%nat
  /\ annzon 6 two_years sample_zones default_alternate = Raise IndexError.
Proof.
  assert (H1 : (16 <= length sample_zones)%nat) by apply le_n.
  assert (H2 : (length (fst (nth 0 sample_zones ([], []))) / 12
                < monm two_years / 12)%nat) by apply le_n.
  split; [exact H1|]. split; [exact H2|].
  apply (annzon_short_zone 6 two_years sample_zones default_alternate 0 H1
           six_months).
  - repeat constructor.
  - exact H2.
  - intros z' Hz'. inversion Hz'.
Defined.

(** Sixteen zones without any value. *)
Definition empty_zones : list zone_t := repeat (flat_zone MISSING) 16.

Lemma empty_zones_invalid :
  Forall (fun v => valid v = false)
    (firstn 12 (fst (nth 0 empty_zones ([], [])))).
Proof. repeat constructor. Qed.

(** X21, an instance: the threshold 0 and zones without any value. *)
Lemma annzon_zero_division_witness :
  (0 <= 0)%Z
  /\ Forall (fun v => valid v = false)
       (firstn 12 (fst (nth 0 empty_zones ([], []))))
  /\ annzon 0 one_year empty_zones default_alternate
     = Raise ZeroDivisionError.
Proof.
  assert (H0 : (0 <= 0)%Z) by discriminate.
  split; [exact H0|]. split; [exact empty_zones_invalid|].
  apply (annzon_zero_division 0 one_year empty_zones default_alternate).
  - apply le_n.
  - exact H0.
  - apply le_n.
  - apply le_n.
  - exact empty_zones_invalid.
Defined.

Lemma default_selector :
  (0 <= alt_global default_alternate <= 2)%Z.
Proof. split; discriminate. Qed.

(** C6, an instance: variant 2 on 16 zones of the value 1, the first
    year. *)
Lemma annzon_alternate_global_witness :
  well_formed one_year sample_zones
  /\ (1 <= 6)%Z
  /\ exists r,
       annzon 6 one_year sample_zones default_alternate = Ok r
       /\ exists za zb zc zd out,
            annual_value 6 sample_zones r 8 0 za
            /\ annual_value 6 sample_zones r 3 0 zb
            /\ annual_value 6 sample_zones r 4 0 zc
            /\ annual_value 6 sample_zones r 10 0 zd
            /\ entry2 (az_ann r) 15 0 = Some out
            /\ blended za zb zc zd out.
Proof.
  split; [exact sample_zones_well_formed|]. split; [exact six_months|].
  destruct (annzon_alternate_global 6 one_year sample_zones default_alternate
              8 3 4 10 sample_zones_well_formed six_months
              (or_intror (conj eq_refl eq_refl)))
    as (r & Hr & _ & _ & Hb).
  exists r. split; [exact Hr|].
  apply (Hb 0%nat). apply le_n.
Defined.

(** X24, an instance: the northern blend in the first year of the flat
    zones. *)
Lemma annzon_alternate_hemi_witness :
  well_formed one_year sample_zones
  /\ (1 <= 6)%Z
  /\ exists r,
       annzon 6 one_year sample_zones default_alternate = Ok r
       /\ exists x y out,
            annual_value 6 sample_zones r 3 0 x
            /\ annual_value 6 sample_zones r 8 0 y
            /\ entry2 (az_ann r) 11 0 = Some out
            /\ hemi_blended x y out.
Proof.
  split; [exact sample_zones_well_formed|]. split; [exact six_months|].
  destruct (annzon_alternate_hemi 6 one_year sample_zones default_alternate
              0 0 sample_zones_well_formed six_months default_selector
              eq_refl)
    as (r & Hr & _ & _ & Ha & _).
  - repeat constructor.
  - apply le_n.
  - exists r. split; [exact Hr | exact Ha].
Defined.

(** X22, an instance: the flat zones. *)
Lemma annzon_passes_through_witness :
  well_formed one_year sample_zones
  /\ (1 <= 6)%Z
  /\ exists r,
       annzon 6 one_year sample_zones default_alternate = Ok r
       /\ az_min_months r = 6%Z
       /\ nth 0 (az_data r) [] = nth 0 (input_data sample_zones) [].
Proof.
  split; [exact sample_zones_well_formed|]. split; [exact six_months|].
  destruct (annzon_passes_through 6 one_year sample_zones default_alternate
              sample_zones_well_formed six_months default_selector)
    as (r & Hr & _ & Hm & Hd).
  exists r. split; [exact Hr|]. split; [exact Hm|].
  apply Hd.
  - intros _. discriminate.
  - intros _. split; discriminate.
Defined.

Lemma flat_year_bounds :
  Forall (fun v => valid v = true -> 1 <= v <= 1) (repeat 1 12).
Proof.
  apply Forall_forall. intros v Hv. apply repeat_spec in Hv. subst v.
  intros _. split; apply Qle_refl.
Qed.

(** X23, an instance: a year of twelve ones. *)
Lemma year_mean_between_witness :
  (1 <= 6)%Z
  /\ (6 <= Z.of_nat (length (valid_months (repeat 1%Q 12))))%Z
  /\ exists a, year_mean 6 (repeat 1 12) = Ok a /\ 1 <= a <= 1.
Proof.
  assert (H : (6 <= Z.of_nat (length (valid_months (repeat 1%Q 12))))%Z)
    by discriminate.
  split; [exact six_months|]. split; [exact H|].
  exact (year_mean_between 6 (repeat 1 12) 1 1 six_months H flat_year_bounds).
Defined.

(** The land side: metadata, and collaborators that take the near land cell
    and report without fault. *)
Definition land_1880 : subbox_meta := SubboxMeta 1880 12 6.
Definition ocean_1880 : subbox_meta := SubboxMeta 1880 24 6.
Definition d_near (c : cell) : Q := 0.
Definition first_month (c : cell) : Z := 1.
Definition last_month (c : cell) : Z := Z.of_nat (length (cell_series c)).
Definition report_fine (c : cell) : result unit := Ok tt.

Definition one_triple (w : weight_t) : list triple :=
  [(w, cell_in west_box, cell_in east_box)].

Lemma one_triple_reported (w : weight_t) (t : triple) :
  In t (one_triple w) -> report_fine (land_of t) = Ok tt.
Proof. reflexivity. Qed.

(** X27, an instance: one triple without a weight; the land cell is near
    enough to be taken. *)
Lemma land_ocean_boxes_computed_mask_witness :
  mask_truthy MaskNone = false
  /\ sm_mavg land_1880 = 6%Z
  /\ one_triple None <> []
  /\ exists r,
       land_ocean_boxes combine_decline anomalize_same 20 240
         (1961, 1990)%Z mid two_boxes first_month last_month (Ok tt)
         report_fine land_1880 ocean_1880
         (snd (ensure_weight 240 100 d_near (MaskNone, one_triple None)))
       = Ok r
       /\ mixed_boxes r
          = subbox_to_box_of combine_decline anomalize_same 20 240
              (1961, 1990)%Z mid two_boxes (mm_yrbeg (mixed_meta_out r))
              (Z.to_nat (mm_monm (mixed_meta_out r)))
              (map (mask_choice 240 100 d_near) (one_triple None)).
Proof.
  assert (H1 : mask_truthy MaskNone = false) by reflexivity.
  assert (H2 : sm_mavg land_1880 = 6%Z) by reflexivity.
  assert (H3 : one_triple None <> []) by discriminate.
  split; [exact H1|]. split; [exact H2|]. split; [exact H3|].
  destruct (land_ocean_boxes_computed_mask combine_decline anomalize_same 20
              240 (1961, 1990)%Z mid two_boxes 100 d_near first_month
              last_month (Ok tt) report_fine MaskNone land_1880 ocean_1880
              (one_triple None) H1 eq_refl H2 H3 (one_triple_reported None))
    as (r & Hr & _ & Hmixed).
  exists r. split; [exact Hr | exact Hmixed].
Defined.

Lemma one_triple_accepted :
  Forall (accepted report_fine) (one_triple (Some 1)).
Proof. repeat constructor. Qed.

(** X28, an instance: one triple with the weight 1. *)
Lemma land_ocean_boxes_month_ranges_witness :
  exists r,
    land_ocean_boxes combine_decline anomalize_same 20 240 (1961, 1990)%Z mid
      two_boxes first_month last_month (Ok tt) report_fine land_1880
      ocean_1880 (one_triple (Some 1))
    = Ok r
    /\ least 999999 (map first_month (land_picked (one_triple (Some 1))))
         (fst (land_month_range (mixed_meta_out r)))
    /\ greatest (-999999)
         (map last_month (ocean_picked (one_triple (Some 1))))
         (snd (ocean_month_range (mixed_meta_out r))).
Proof.
  pose proof (land_ocean_boxes_ok combine_decline anomalize_same 20 240
                (1961, 1990)%Z mid two_boxes first_month last_month (Ok tt)
                report_fine land_1880 ocean_1880 (one_triple (Some 1))
                eq_refl eq_refl ltac:(discriminate) one_triple_accepted)
    as H.
  cbv zeta in H. eexists. split; [exact H|].
  destruct (land_ocean_boxes_month_ranges combine_decline anomalize_same 20
              240 (1961, 1990)%Z mid two_boxes first_month last_month
              (Ok tt) report_fine land_1880 ocean_1880 (one_triple (Some 1))
              _ H)
    as (Hl & _ & _ & Hg & _).
  split; [exact Hl | exact Hg].
Defined.

End Step5MoreInstances.
